(** * The annotation review engine of [qa_annotation_tool.py]

    A shallow embedding of the engine part of the QA annotation tool: the
    shuffler, the queue cursor, the judgement validator and the output
    aggregator, with the properties the design document states about them,
    followed by the loader, the notes, the exported files, the profile paths
    and the login gate, with the properties the code shows.

    Conventions.
    - Python [str] values are [string]s (code points below 256).
    - Python [dict]s whose iteration order reaches an output are
      insertion-ordered association lists ([Dict]); the dictionaries and sets
      that are only looked up are [gmap]s and [gset]s.
    - Paths are POSIX paths: [os.path.sep] is the slash.
    - Exceptions are explicit: a computation that may raise has type
      [result A]; [try ... except ValueError] is [try_except_ValueError]. *)

From Stdlib Require Import Ascii String.
From stdpp Require Import base option list strings pretty gmap fin_maps.
From Equations Require Import Equations.

Set Default Proof Using "Type".

(** ** Exceptions *)

Inductive exn : Type := KeyError | ValueError | NameError.

Inductive result (A : Type) : Type :=
| Ok (a : A)
| Raise (e : exn).
Arguments Ok {A} a.
Arguments Raise {A} e.

Global Instance result_ret : MRet result := fun _ a => Ok a.
Global Instance result_bind : MBind result := fun _ _ f m =>
  match m with
  | Ok a => f a
  | Raise e => Raise e
  end.

(** [try: body; except ValueError: handler] *)
Definition try_except_ValueError {A} (body handler : result A) : result A :=
  match body with
  | Raise ValueError => handler
  | r => r
  end.

Definition returns_normally {A} (r : result A) : Prop := exists a, r = Ok a.

(** ** Python string primitives *)

Module Str.

(** [str.isspace] on one character, for code points below 256. *)
Definition isspace (c : ascii) : bool :=
  let n := nat_of_ascii c in
  (Nat.leb 9 n && Nat.leb n 13) || (Nat.leb 28 n && Nat.leb n 32)
  || Nat.eqb n 133 || Nat.eqb n 160.

Fixpoint lstrip (s : string) : string :=
  match s with
  | EmptyString => EmptyString
  | String c s' => if isspace c then lstrip s' else s
  end.

Fixpoint rstrip (s : string) : string :=
  match s with
  | EmptyString => EmptyString
  | String c s' =>
      match rstrip s' with
      | EmptyString => if isspace c then EmptyString else String c EmptyString
      | r => String c r
      end
  end.

(** [s.strip()] *)
Definition strip (s : string) : string := rstrip (lstrip s).

(** [s.find(sub)]: the lowest index at which [sub] occurs in [s]. *)
Fixpoint find (s sub : string) : option nat :=
  if String.prefix sub s then Some 0
  else match s with
       | EmptyString => None
       | String _ s' => S <$> find s' sub
       end.

(** [s.index(sub)]: as [find], but raises [ValueError] when absent. *)
Definition index (s sub : string) : result nat :=
  match find s sub with
  | Some i => Ok i
  | None => Raise ValueError
  end.

(** [sub in s] *)
Definition contains (sub s : string) : bool :=
  match find s sub with
  | Some _ => true
  | None => false
  end.

(** [s.replace(c, '')] for a one-character [c]. *)
Fixpoint remove (c : ascii) (s : string) : string :=
  match s with
  | EmptyString => EmptyString
  | String c' s' => if decide (c' = c) then remove c s' else String c' (remove c s')
  end.

End Str.

(** ** Insertion-ordered dictionaries *)

Module Dict.
Section Dict.
Context {V : Type}.

Definition t : Type := list (string * V).

Definition empty : t := [].

Fixpoint get (k : string) (d : t) : option V :=
  match d with
  | [] => None
  | (k', v) :: d' => if decide (k = k') then Some v else get k d'
  end.

(** [k in d] *)
Definition mem (k : string) (d : t) : bool :=
  match get k d with Some _ => true | None => false end.

(** [d[k]] *)
Definition getitem (k : string) (d : t) : result V :=
  match get k d with
  | Some v => Ok v
  | None => Raise KeyError
  end.

(** [d[k] = v]: an existing key keeps its position, a new one goes last. *)
Fixpoint set (k : string) (v : V) (d : t) : t :=
  match d with
  | [] => [(k, v)]
  | (k', v') :: d' =>
      if decide (k = k') then (k, v) :: d' else (k', v') :: set k v d'
  end.

(** [d.items()] *)
Definition items (d : t) : list (string * V) := d.
End Dict.
Arguments t V : clear implicits.
End Dict.

(** ** Data model *)

(** One entry of the generated dataset: [(context, question, answer)]. *)
Definition item : Type := string * string * string.

(** One row of [kept_pairs] (a Judgement); the fields are the keys of the
    dictionary built by [save_qa_pair]. *)
Record kept_pair : Type := KeptPair {
  kp_Context : string;
  kp_Question : string;
  kp_Answer : string;
  kp_Original_Question_Naturalness : bool;
  kp_Original_Answer_Naturalness : bool;
  kp_Original_Answer_Adequacy : bool;
  kp_Original_Answer_Correctness : bool;
  kp_User_Query : string;
  kp_User_Answer : string
}.

(** The SQuAD v2.0 output document. *)
Module SQuAD.
Record answer : Type := Answer { text : string; answer_start : nat }.

Record qa : Type := QA {
  question : string;
  answers : list answer;
  is_impossible : bool;
  id : string
}.

Record paragraph : Type := Paragraph { qas : list qa; context : string }.

Record article : Type := Article { title : string; paragraphs : list paragraph }.

Record t : Type := Make { data : list article; version : string }.
End SQuAD.

(** ** The output aggregator: [kept_pairs_to_output] *)

Module Aggregator.

(** The locals of [kept_pairs_to_output] that the loop updates, and the
    [[context, q, a]] triples handed to [logger.error]. *)
Record locals : Type := Locals {
  unnatural : list string;
  incorrect : list (string * string);
  context_to_question_answers : Dict.t (Dict.t (list SQuAD.answer));
  logged : list (string * string * string)
}.

Definition initial : locals := Locals [] [] Dict.empty [].

(** The [if]/[else] on the judgement's flags: the value of [pairs_to_add]
    and of the two lists once it has run. *)
Definition classify (kp : kept_pair)
    (unnatural : list string) (incorrect : list (string * string))
  : list (string * string) * list string * list (string * string) :=
  let question := kp_Question kp in
  let answer := kp_Answer kp in
  let pairs_to_add := [ (kp_User_Query kp, kp_User_Answer kp) ] in
  if kp_Original_Question_Naturalness kp
     && kp_Original_Answer_Naturalness kp
     && (kp_Original_Answer_Adequacy kp || kp_Original_Answer_Correctness kp)
  then (pairs_to_add ++ [ (question, answer) ], unnatural, incorrect)
  else
    let unnatural :=
      if negb (kp_Original_Question_Naturalness kp)
      then unnatural ++ [question] else unnatural in
    let unnatural :=
      if negb (kp_Original_Answer_Naturalness kp)
      then unnatural ++ [answer] else unnatural in
    let incorrect :=
      if negb (kp_Original_Answer_Correctness kp)
         && negb (kp_Original_Answer_Adequacy kp)
      then incorrect ++ [ (question, answer) ] else incorrect in
    (pairs_to_add, unnatural, incorrect).

Definition pairs_to_add (kp : kept_pair) : list (string * string) :=
  (classify kp [] []).1.1.

(** The body of [for q, a in pairs_to_add]. The nested dictionaries are
    shared objects: an update of an inner dictionary or list is written
    back into the outer one. The handler of the [try] logs the triple. *)
Definition add_pair (context : string) (qa : string * string) (st : locals)
  : result locals :=
  let '(q, a) := qa in
  let d := context_to_question_answers st in
  q_a ← Dict.getitem context d;
  let d := if Dict.mem q q_a then d
           else Dict.set context (Dict.set q [] q_a) d in
  try_except_ValueError
    (q_a ← Dict.getitem context d;
     entries ← Dict.getitem q q_a;
     start ← Str.index context a;
     let entries := entries ++ [SQuAD.Answer a start] in
     Ok (Locals (unnatural st) (incorrect st)
                (Dict.set context (Dict.set q entries q_a) d) (logged st)))
    (Ok (Locals (unnatural st) (incorrect st) d
                (logged st ++ [(context, q, a)]))).

Fixpoint add_pairs (context : string) (pairs : list (string * string)) (st : locals)
  : result locals :=
  match pairs with
  | [] => Ok st
  | qa :: pairs => st ← add_pair context qa st; add_pairs context pairs st
  end.

(** The body of [for kept_pair in kept_pairs]. *)
Definition step (kp : kept_pair) (st : locals) : result locals :=
  let context := kp_Context kp in
  let d := context_to_question_answers st in
  let d := if Dict.mem context d then d else Dict.set context Dict.empty d in
  let '(pairs_to_add, unnatural, incorrect) :=
    classify kp (unnatural st) (incorrect st) in
  add_pairs context pairs_to_add (Locals unnatural incorrect d (logged st)).

Fixpoint loop (kept_pairs : list kept_pair) (st : locals) : result locals :=
  match kept_pairs with
  | [] => Ok st
  | kp :: kept_pairs => st ← step kp st; loop kept_pairs st
  end.

Section Identifiers.
(** [uuid4 k] is the text of the [k]-th value drawn from [uuid.uuid4()]
    during one call. *)
Variable uuid4 : nat -> string.

Definition fresh_id (k : nat) : string := Str.remove "-"%char (uuid4 k).

(** The list comprehension over [q_a.items()], drawing identifiers from
    [k] on. *)
Fixpoint build_qas (k : nat) (q_a : list (string * list SQuAD.answer))
  : list SQuAD.qa :=
  match q_a with
  | [] => []
  | (question, answers) :: q_a =>
      SQuAD.QA question answers false (fresh_id k) :: build_qas (S k) q_a
  end.

(** The loop over [context_to_question_answers.items()]. *)
Fixpoint build_paragraphs (k : nat)
    (d : list (string * Dict.t (list SQuAD.answer))) : list SQuAD.paragraph :=
  match d with
  | [] => []
  | (context, q_a) :: d =>
      SQuAD.Paragraph (build_qas k (Dict.items q_a)) context
      :: build_paragraphs (k + length q_a) d
  end.

Definition to_squad (d : Dict.t (Dict.t (list SQuAD.answer))) : SQuAD.t :=
  SQuAD.Make
    [ SQuAD.Article "Streamlit" (build_paragraphs 0 (Dict.items d)) ]
    "v2.0".

Definition kept_pairs_to_output (kept_pairs : list kept_pair)
  : result (SQuAD.t * list string * list (string * string)) :=
  st ← loop kept_pairs initial;
  Ok (to_squad (context_to_question_answers st), unnatural st, incorrect st).

(** What the call hands to the logger. *)
Definition kept_pairs_to_output_log (kept_pairs : list kept_pair)
  : list (string * string * string) :=
  match loop kept_pairs initial with
  | Ok st => logged st
  | Raise _ => []
  end.
End Identifiers.

End Aggregator.

(** ** The shuffler: [shuffle_qa_data] *)

(** The function returns its argument on its first statement; the seeded
    shuffle written after that [return] is never run. *)
Definition shuffle_qa_data (username : string) (qa_data : list item) : list item :=
  qa_data.

(** ** The judgement validator: the checks of [submit_qa] *)

(** What the widgets of the page hold when the button is pressed. The
    answer explanation box exists only when the answer part was drawn. *)
Record form : Type := Form {
  question_suitable : bool;
  question_naturalness : bool;
  question_explanation : string;
  user_question : string;
  answer_naturalness : bool;
  answer_adequacy : bool;
  answer_precision : bool;
  answer_explanation : option string;
  user_answer : string
}.

(** [st.session_state['errors']] *)
Record errors : Type := Errors {
  err_question : list string;
  err_answer : list string
}.

Definition no_errors : errors := Errors [] [].

(** [all(len(error_list) == 0 for error_list in errors.values())] *)
Definition all_empty (e : errors) : bool :=
  Nat.eqb (length (err_question e)) 0 && Nat.eqb (length (err_answer e)) 0.

Module Msg.
Definition dquote : string := String "034"%char EmptyString.
Definition newline : string := String "010"%char EmptyString.

Definition blank_question : string := "The question cannot be blank.".
Definition blank_answer : string := "The answer cannot be blank,".
Definition natural_but_modified : string :=
  "The question is marked as reading naturally, but has also been modified. Only ones that do not read naturally should be modified.".
Definition unnatural_but_unmodified : string :=
  "The question is marked as not reading naturally, but it has not been modified. Please modify it to read naturally.".
Definition not_in_document (submitted_answer : string) : string :=
  "The answer " +:+ dquote +:+ submitted_answer +:+ dquote
  +:+ " does not appear in the document, please provide an answer that does (case-sensitive)."
  +:+ newline
  +:+ "            If you cannot do so whilst maintaining naturalness and correctness, please mark the question as unsuitable/impossible.".
Definition precise_implies_adequate : string :=
  "Any precise-and-correct answer should also be adequate, but it was not marked as such.".
Definition perfect_but_modified : string :=
  "The answer is marked as precise, correct and reading naturally, but has been modified. Only ones with problems should be modified.".
Definition answer_unnatural_unmodified : string :=
  "The answer is marked as not reading naturally, but has not been modified. Please modify it to read naturally.".
Definition answer_incorrect_unmodified : string :=
  "The answer is marked as incorrect, but has not been modified. Please modify it to be correct.".
End Msg.

(** The [else] branch of [submit_qa] up to the final test: the two error
    lists, started empty, after all the checks have run. *)
Definition validate (current : item) (f : form) : errors :=
  let '(current_context, current_question, current_answer) := current in
  let submitted_question := Str.strip (user_question f) in
  let submitted_answer := Str.strip (user_answer f) in
  let question_modified :=
    negb (String.eqb submitted_question (Str.strip current_question)) in
  let question_natural := question_naturalness f in
  let answer_modified :=
    negb (String.eqb submitted_answer (Str.strip current_answer)) in
  let answer_natural := answer_naturalness f in
  let answer_adequate := answer_adequacy f in
  let answer_correct := answer_precision f in
  let on_question := [] in
  let on_answer := [] in
  let on_question :=
    if Nat.eqb (String.length submitted_question) 0
    then on_question ++ [Msg.blank_question] else on_question in
  let on_answer :=
    if Nat.eqb (String.length submitted_answer) 0
    then on_answer ++ [Msg.blank_answer] else on_answer in
  let on_question :=
    if question_modified && question_natural
    then on_question ++ [Msg.natural_but_modified]
    else if negb question_modified && negb question_natural
         then on_question ++ [Msg.unnatural_but_unmodified] else on_question in
  let on_answer :=
    if negb (Str.contains submitted_answer current_context)
    then on_answer ++ [Msg.not_in_document submitted_answer] else on_answer in
  let on_answer :=
    if answer_correct && negb answer_adequate
    then on_answer ++ [Msg.precise_implies_adequate] else on_answer in
  let on_answer :=
    if answer_modified
    then (if answer_correct && answer_natural
          then on_answer ++ [Msg.perfect_but_modified] else on_answer)
    else
      let on_answer :=
        if negb answer_natural
        then on_answer ++ [Msg.answer_unnatural_unmodified] else on_answer in
      if negb answer_correct && negb answer_adequate
      then on_answer ++ [Msg.answer_incorrect_unmodified] else on_answer in
  Errors on_question on_answer.

(** ** Session state and profile files *)

(** An elapsed wall-clock time; the engine only stores it. *)
Definition seconds : Type := Z.

(** [st.session_state['times']] *)
Record times : Type := Times {
  t_examples : gmap nat seconds;
  t_questions : gmap nat seconds
}.

(** One value of [st.session_state['notes'][context][question]]: the
    one-entry dictionary under ['answer'] and the text under ['note']. *)
Record note : Type := Note {
  n_answer : string * option string;
  n_note : option string
}.

(** The keys of [st.session_state] the engine works on. *)
Record session_state : Type := Session {
  index_input : nat;
  data : list item;
  completed_questions : gset string;
  unsuitable_questions : gmap string (list string);
  kept_pairs : list kept_pair;
  notes : gmap string (gmap string note);
  session_times : times;
  session_errors : errors
}.

(** The files of one reviewer's profile directory; [None] is a file that
    does not exist. *)
Record files : Type := Files {
  profile_json : list kept_pair;
  profile_squad : option SQuAD.t;
  unnatural_texts_json : option (list string);
  unsuitable_questions_json : option (gmap string (list string));
  incorrect_json : option (list (string * string));
  times_json : option times;
  notes_json : option (gmap string (gmap string note));
  complete : bool
}.

(** What [init_user] leaves for a new reviewer. *)
Definition init_user : files :=
  Files [] None None None None None None false.

Record world : Type := World { session : session_state; disk : files }.

(** The nested loops of [load_user_profile_and_dataset] over the raw
    dataset, a dictionary from context to a dictionary from question to
    answer. *)
Definition flatten_raw_data (raw_data : Dict.t (Dict.t string)) : list item :=
  '(context, qa_data) ← Dict.items raw_data;
  '(question, answer) ← Dict.items qa_data;
  [ (context, question, answer) ].

(** [dict.update] *)
Definition update {V} (d new : gmap string V) : gmap string V := new ∪ d.

Definition load_user_profile_and_dataset (username : string)
    (raw_data : option (Dict.t (Dict.t string))) (fs : files) : session_state :=
  let data := match raw_data with
              | Some raw_data => flatten_raw_data raw_data
              | None => []
              end in
  let data := shuffle_qa_data username data in
  let kept_pairs := profile_json fs in
  let completed_questions : gset string :=
    list_to_set (kp_Question <$> kept_pairs) in
  let unsuitable_questions :=
    match unsuitable_questions_json fs with
    | Some u => update ∅ u
    | None => ∅
    end in
  let times0 := Times ∅ ∅ in
  let times := match times_json fs with
               | Some t => t
               | None => times0
               end in
  let notes := match notes_json fs with
               | Some n => update ∅ n
               | None => ∅
               end in
  Session 0 data completed_questions unsuitable_questions kept_pairs
          notes times no_errors.

(** ** The queue cursor: the [while] loop of [run_qa_tool] *)

Definition inspect {A} (a : A) : {b | a = b} := exist _ a eq_refl.

(** The test [qa_pair_annotated or qa_pair_unsuitable]. *)
Definition resolved (completed_questions : gset string)
    (unsuitable_questions : gmap string (list string)) (current : item) : bool :=
  let '(current_context, current_question, current_answer) := current in
  let qa_pair_annotated := bool_decide (current_question ∈ completed_questions) in
  let qa_pair_unsuitable :=
    match unsuitable_questions !! current_context with
    | Some qs => bool_decide (current_question ∈ qs)
    | None => false
    end in
  qa_pair_annotated || qa_pair_unsuitable.

(** The loop on [index_input] and [new_pair]; it stops at the first entry
    that [skip] rejects or at [len(data)]. *)
Equations? skip_loop (data : list item) (skip : item -> bool)
    (index_input : nat) (new_pair : bool) : nat * bool
    by wf (length data - index_input) lt :=
  skip_loop data skip i np with inspect (data !! i) := {
    | exist _ (Some current) Hcur with skip current := {
        | true => skip_loop data skip (S i) true
        | false => (i, np) }
    | exist _ None _ => (i, np) }.
Proof. apply lookup_lt_Some in Hcur. lia. Qed.

Definition advance_cursor (s : session_state) : session_state * bool :=
  let '(i, new_pair) :=
    skip_loop (data s) (resolved (completed_questions s) (unsuitable_questions s))
              (index_input s) false in
  (Session i (data s) (completed_questions s) (unsuitable_questions s)
           (kept_pairs s) (notes s) (session_times s) (session_errors s),
   new_pair).

(** What [run_qa_tool] shows after the loop. *)
Inductive view : Type :=
| EndOfQueue
| Current (current : item).

(** [run_qa_tool] from the loop on: the cursor moves, and at the end of the
    queue the completion marker is written. Past the loop the page reads the
    locals [current_context], [current_question] and [current_answer], which
    only a loop iteration binds. *)
Definition run_qa_tool (w : world) : result (world * view) :=
  let '(s, _) := advance_cursor (session w) in
  if Nat.eqb (index_input s) (length (data s)) then
    let fs := disk w in
    Ok (World s (Files (profile_json fs) (profile_squad fs) (unnatural_texts_json fs)
                       (unsuitable_questions_json fs) (incorrect_json fs)
                       (times_json fs) (notes_json fs) true),
        EndOfQueue)
  else
    match data s !! index_input s with
    | Some current => Ok (World s (disk w), Current current)
    | None => Raise NameError
    end.

(** ** Accepting a submission: [submit_qa] and its helpers *)

Section Submission.
(** The identifiers drawn while the SQuAD file is rebuilt, and the reading
    [time.time() - start_time]. *)
Variable uuid4 : nat -> string.
Variable elapsed : seconds.

Definition export_data (s : session_state) (fs : files) : result files :=
  '(squad_pairs, unnatural_questions, incorrect_qa) ←
    Aggregator.kept_pairs_to_output uuid4 (kept_pairs s);
  Ok (Files (kept_pairs s)
            (Some squad_pairs)
            (Some unnatural_questions)
            (Some (unsuitable_questions s))
            (Some incorrect_qa)
            (Some (session_times s))
            (Some (notes s))
            (complete fs)).

Definition add_notes (f : form) (context question answer : string)
    (ns : gmap string (gmap string note)) : gmap string (gmap string note) :=
  let question_note := Str.strip (question_explanation f) in
  let answer_note := match answer_explanation f with
                     | Some e => Str.strip e
                     | None => EmptyString
                     end in
  if negb (Nat.eqb (String.length question_note) 0)
     || negb (Nat.eqb (String.length answer_note) 0)
  then
    let for_context := default ∅ (ns !! context) in
    let entry :=
      Note (answer, if Nat.eqb (String.length answer_note) 0
                    then None else Some answer_note)
           (if Nat.eqb (String.length question_note) 0
            then None else Some question_note) in
    <[context := <[question := entry]> for_context]> ns
  else ns.

Definition save_qa_pair (current : item)
    (original_question_naturalness original_answer_naturalness
     original_answer_adequacy original_answer_correctness : bool)
    (user_question user_answer : string) (s : session_state) : session_state :=
  let '(current_context, current_question, current_answer) := current in
  Session (index_input s) (data s)
          (completed_questions s ∪ {[ current_question ]})
          (unsuitable_questions s)
          (kept_pairs s ++
             [ KeptPair current_context current_question current_answer
                        original_question_naturalness original_answer_naturalness
                        original_answer_adequacy original_answer_correctness
                        user_question user_answer ])
          (notes s) (session_times s) (session_errors s).

(** [submit_qa(current_context, current_question, current_answer)], the
    callback of the button drawn for [current]. *)
Definition submit_qa (current : item) (f : form) (w : world) : result world :=
  let '(context, question, answer) := current in
  let s := session w in
  let ts := Times (t_examples (session_times s))
                  (<[index_input s := elapsed]> (t_questions (session_times s))) in
  let ns := add_notes f context question answer (notes s) in
  let s := Session (index_input s) (data s) (completed_questions s)
                   (unsuitable_questions s) (kept_pairs s)
                   ns ts no_errors in
  if negb (question_suitable f) then
    let unsuitable :=
      <[context := default [] (unsuitable_questions s !! context) ++ [question]]>
        (unsuitable_questions s) in
    let s := Session (index_input s) (data s) (completed_questions s)
                     unsuitable (kept_pairs s)
                     (notes s) (session_times s) (session_errors s) in
    fs ← export_data s (disk w);
    Ok (World s fs)
  else
    let errs := validate current f in
    let s := Session (index_input s) (data s) (completed_questions s)
                     (unsuitable_questions s) (kept_pairs s)
                     (notes s) (session_times s) errs in
    if all_empty errs then
      let s := save_qa_pair current
                 (question_naturalness f) (answer_naturalness f)
                 (answer_adequacy f) (answer_precision f)
                 (user_question f) (user_answer f) s in
      fs ← export_data s (disk w);
      Ok (World s fs)
    else Ok (World s (disk w)).

(** One round of the page: the script runs, and the reviewer presses the
    button of the entry shown, if there is one. *)
Definition round (f : form) (w : world) : result world :=
  '(w, v) ← run_qa_tool w;
  match v with
  | EndOfQueue => Ok w
  | Current current => submit_qa current f w
  end.
End Submission.

(** ** Reachable states of one reviewer's profile *)

(** A reviewer logs in on a fresh profile, the page runs, the reviewer
    submits the entry shown, and may log out and in again at any time: the
    login view refuses only the names [list_users] returns for completed
    profiles, which a spelling of the username with a separator escapes. *)
Inductive reachable (username : string) : world -> Prop :=
| reach_login raw_data :
    reachable username
      (World (load_user_profile_and_dataset username raw_data init_user) init_user)
| reach_run w w' v :
    reachable username w ->
    run_qa_tool w = Ok (w', v) ->
    reachable username w'
| reach_submit uuid4 elapsed f w w' :
    reachable username w ->
    round uuid4 elapsed f w = Ok w' ->
    reachable username w'
| reach_relogin raw_data w :
    reachable username w ->
    reachable username
      (World (load_user_profile_and_dataset username raw_data (disk w)) (disk w)).

(** A question string is in the Unsuitable record. *)
Definition question_unsuitable (s : session_state) (question : string) : Prop :=
  exists context qs,
    unsuitable_questions s !! context = Some qs /\ question ∈ qs.

(** A question string is the [Question] of a Judgement. *)
Definition question_judged (s : session_state) (question : string) : Prop :=
  exists kp, kp ∈ kept_pairs s /\ kp_Question kp = question.

(** The same two notions for a (context, question) pair. *)
Definition pair_unsuitable (s : session_state) (context question : string) : Prop :=
  exists qs, unsuitable_questions s !! context = Some qs /\ question ∈ qs.

Definition pair_judged (s : session_state) (context question : string) : Prop :=
  exists kp, kp ∈ kept_pairs s /\ kp_Context kp = context /\ kp_Question kp = question.

(** ** Reading the aggregator's dictionary *)

Module AggregatorSpec.
Import Aggregator.

(** The entries stored under [context] and then [question]. *)
Definition lookup2 (context question : string)
    (d : Dict.t (Dict.t (list SQuAD.answer))) : option (list SQuAD.answer) :=
  Dict.get context d ≫= Dict.get question.

(** What one [(q, a)] of [pairs_to_add] contributes: its entry when the
    offset lookup succeeds, nothing when it raises. *)
Definition found_entry (context : string) (qa : string * string) : list SQuAD.answer :=
  match Str.find context qa.2 with
  | Some start => [SQuAD.Answer qa.2 start]
  | None => []
  end.

(** The pairs of [pairs], added under [context], that land under context
    [c] and question [q]. *)
Definition landing (context c q : string) (pairs : list (string * string))
  : list (string * string) :=
  if decide (context = c) then filter (fun qa => qa.1 = q) pairs else [].

(** The pairs that the judgements add under context [c] and question [q],
    in the order the loops meet them. *)
Definition pairs_under (c q : string) (kept_pairs : list kept_pair)
  : list (string * string) :=
  kp ← kept_pairs; landing (kp_Context kp) c q (pairs_to_add kp).

(** The spec's condition for keeping the original pair. *)
Definition original_kept (kp : kept_pair) : Prop :=
  kp_Original_Question_Naturalness kp = true
  /\ kp_Original_Answer_Naturalness kp = true
  /\ (kp_Original_Answer_Adequacy kp = true
      \/ kp_Original_Answer_Correctness kp = true).

Global Instance original_kept_dec kp : Decision (original_kept kp).
Proof. unfold original_kept. apply _. Defined.

(** The entries under a question once the pairs [ps] have been added to
    what was stored before: the key exists from the first pair on. *)
Definition extend (c : string) (before : option (list SQuAD.answer))
    (ps : list (string * string)) : option (list SQuAD.answer) :=
  match before, ps with
  | None, [] => None
  | _, _ => Some (default [] before ++ (ps ≫= found_entry c))
  end.

(** The paragraphs of the one article of a SQuAD document. *)
Definition paragraphs_of (squad : SQuAD.t) : list SQuAD.paragraph :=
  a ← SQuAD.data squad; SQuAD.paragraphs a.
End AggregatorSpec.

(** ** Vocabulary of the shuffler's contract *)

Definition context_of (it : item) : string := it.1.1.

(** All entries sharing a context are contiguous: between two entries of
    one context every entry has that context. *)
Definition contexts_contiguous (l : list item) : Prop :=
  forall i j k x y z,
    i < j -> j < k ->
    l !! i = Some x -> l !! j = Some y -> l !! k = Some z ->
    context_of x = context_of z -> context_of y = context_of x.

(** ** Vocabulary of the cursor's contract *)

(** The entry at index [j] of the queue is marked: its question is in the
    completed-question set, or its (context, question) pair is in the
    Unsuitable record. *)
Definition marked (s : session_state) (j : nat) : Prop :=
  exists context question answer,
    data s !! j = Some (context, question, answer)
    /\ (question ∈ completed_questions s \/ pair_unsuitable s context question).

(** ** What holds of every reachable state *)

(** Every judged question is in the completed-question set; no (context,
    question) pair is both unsuitable and judged; the profile file and the
    Unsuitable file agree with the session; the cursor is within the queue
    and every entry before it is marked. *)
Record consistent (w : world) : Prop := Consistent {
  judged_completed :
    forall kp, kp ∈ kept_pairs (session w) ->
               kp_Question kp ∈ completed_questions (session w);
  unsuitable_or_judged :
    forall context question,
      ~ (pair_unsuitable (session w) context question
         /\ pair_judged (session w) context question);
  profile_on_disk : profile_json (disk w) = kept_pairs (session w);
  unsuitable_on_disk :
    unsuitable_questions_json (disk w) = Some (unsuitable_questions (session w))
    \/ (unsuitable_questions_json (disk w) = None
        /\ unsuitable_questions (session w) = ∅);
  cursor_in_range : index_input (session w) <= length (data (session w));
  passed_marked : forall j, j < index_input (session w) -> marked (session w) j
}.

(** ** Concrete profiles and pages *)

Module Scenario.
Definition no_ids : nat -> string := fun _ => EmptyString.

(** *** Two contexts sharing the question "q" *)

Definition raw_data : option (Dict.t (Dict.t string)) :=
  Some [("c1", [("q", "a1")]); ("c2", [("q", "a2")])].

(** The reviewer "u" right after the first login. *)
Definition at_login : world :=
  World (load_user_profile_and_dataset "u" raw_data init_user) init_user.

(** The page with the question marked unsuitable. *)
Definition marks_unsuitable : form :=
  Form false false "" "q" false false false None "".

(** The page with the question left as it is and marked natural, and the
    answer marked adequate only and replaced by a snippet of the document. *)
Definition accepts (snippet : string) : form :=
  Form true true "" "q" false true false (Some "") snippet.

(** A session on two documents that contain their answers, nothing judged
    yet, and the page that accepts the first entry as it is. *)
Definition two_documents : world :=
  World (Session 0 [("c1 a1", "q", "a1"); ("c2 a2", "q", "a2")]
                 ∅ ∅ [] ∅ (Times ∅ ∅) no_errors)
        init_user.

Definition accepts_unchanged : form :=
  Form true true "" "q" true true true (Some "") "a1".

(** *** A queue with marked entries *)

(** "q1" is completed and "q2" is unsuitable under "c1". *)
Definition two_marked : world :=
  World (Session 0 [("c1", "q1", "a1"); ("c1", "q2", "a2"); ("c2", "q3", "a3")]
                 {[ "q1" ]} {[ "c1" := ["q2"] ]} [] ∅ (Times ∅ ∅) no_errors)
        init_user.

(** *** One document about a cat *)

Definition cat_sat : item := ("The cat sat.", "Who sat?", "cat").

Definition cat_sat_login : world :=
  World (load_user_profile_and_dataset "u"
           (Some [("The cat sat.", [("Who sat?", "cat")])]) init_user)
        init_user.

(** Everything marked fine, precise included, and the answer replaced by a
    word that is not in the document. *)
Definition replaces_with_dog : form :=
  Form true true "" "Who sat?" true true true (Some "") "dog".

(** Precise marked, adequate not, nothing edited. *)
Definition precise_not_adequate : form :=
  Form true true "" "Who sat?" true false true (Some "") "cat".

(** The Judgement of a reviewer who marked the entry natural and adequate
    and changed nothing. *)
Definition unchanged_judgement : kept_pair :=
  KeptPair "The cat sat." "Who sat?" "cat" true true true false "Who sat?" "cat".

(** The document ends with the answer; the reviewer marks the answer
    natural and adequate and leaves a space after it. *)
Definition cat_login : world :=
  World (load_user_profile_and_dataset "u"
           (Some [("The cat", [("Who?", "cat")])]) init_user)
        init_user.

Definition trailing_space : form :=
  Form true true "" "Who?" true true false (Some "") "cat ".

(** Two Judgements on "The cat" whose pairs for the question "Who sat?"
    all carry answers that are not in the document. *)
Definition failing_judgements : list kept_pair :=
  [KeptPair "The cat" "Who?" "dog" false true false false "Who sat?" "cat ";
   KeptPair "The cat" "Who sat?" "dog" true true true true "Who sat?" "sat"].

(** *** An ungrouped input of the shuffler *)

Definition ungrouped : list item :=
  [("c1", "q1", "a1"); ("c2", "q2", "a2"); ("c1", "q3", "a3")].

(** *** A dataset file with two questions per context *)

(** The question "q1" is asked under both contexts. *)
Definition two_by_two : Dict.t (Dict.t string) :=
  [("c1", [("q1", "a1"); ("q2", "a2")]); ("c2", [("q1", "b1"); ("q3", "b3")])].

(** The queue a login builds from it. *)
Definition grouped : list item :=
  [("c1", "q1", "a1"); ("c1", "q2", "a2"); ("c2", "q1", "b1"); ("c2", "q3", "b3")].
End Scenario.

(** ** A declarative account of the aggregator's output *)

Module AggregatorModel.
Import Aggregator AggregatorSpec.

(** The distinct strings of a list, in the order of their first
    appearance. *)
Fixpoint distinct_in_order (l : list string) : list string :=
  match l with
  | [] => []
  | x :: l => x :: filter (fun y => y <> x) (distinct_in_order l)
  end.

(** The contexts of the judgements. *)
Definition contexts_of (kept_pairs : list kept_pair) : list string :=
  distinct_in_order (kp_Context <$> kept_pairs).

(** The questions of the pairs added under context [c]. *)
Definition questions_under (c : string) (kept_pairs : list kept_pair) : list string :=
  distinct_in_order
    (kp ← kept_pairs;
     if decide (kp_Context kp = c) then (pairs_to_add kp).*1 else []).

(** The entries of the answers found, among the pairs added under context
    [c] and question [q]. *)
Definition entries_under (c q : string) (kept_pairs : list kept_pair)
  : list SQuAD.answer :=
  pairs_under c q kept_pairs ≫= found_entry c.

(** The grouped dataset: one group per context, one list per question. *)
Definition dataset (kept_pairs : list kept_pair)
  : Dict.t (Dict.t (list SQuAD.answer)) :=
  (fun c => (c, (fun q => (q, entries_under c q kept_pairs))
                  <$> questions_under c kept_pairs))
    <$> contexts_of kept_pairs.

(** What a SQuAD document holds, read back: per paragraph its context and,
    per question entry, the question and its answers. *)
Definition grouping_of (squad : SQuAD.t) : Dict.t (Dict.t (list SQuAD.answer)) :=
  (fun p => (SQuAD.context p,
             (fun e => (SQuAD.question e, SQuAD.answers e)) <$> SQuAD.qas p))
    <$> paragraphs_of squad.

(** The texts judged not natural: per judgement the question, then the
    answer. *)
Definition unnatural_of (kept_pairs : list kept_pair) : list string :=
  kp ← kept_pairs;
  (if kp_Original_Question_Naturalness kp then [] else [kp_Question kp])
  ++ (if kp_Original_Answer_Naturalness kp then [] else [kp_Answer kp]).

(** The pairs whose answer was judged neither adequate nor correct. *)
Definition incorrect_of (kept_pairs : list kept_pair) : list (string * string) :=
  (fun kp => (kp_Question kp, kp_Answer kp))
    <$> filter (fun kp => kp_Original_Answer_Adequacy kp = false
                          /\ kp_Original_Answer_Correctness kp = false)
               kept_pairs.

(** The triples whose offset lookup raises, in the order the loops meet
    them. *)
Definition failures_of (kept_pairs : list kept_pair)
  : list (string * string * string) :=
  kp ← kept_pairs;
  qa ← pairs_to_add kp;
  match Str.find (kp_Context kp) qa.2 with
  | Some _ => []
  | None => [(kp_Context kp, qa.1, qa.2)]
  end.

(** A key list after one more key has been met. *)
Definition seen (ks : list string) (k : string) : list string :=
  if decide (k ∈ ks) then ks else ks ++ [k].

(** A question dictionary after one more pair of its context. *)
Definition store (context : string) (q_a : Dict.t (list SQuAD.answer))
    (qa : string * string) : Dict.t (list SQuAD.answer) :=
  Dict.set qa.1 (default [] (Dict.get qa.1 q_a) ++ found_entry context qa) q_a.

(** What one pair adds to the log. *)
Definition failure (context : string) (qa : string * string)
  : list (string * string * string) :=
  match Str.find context qa.2 with
  | Some _ => []
  | None => [(context, qa.1, qa.2)]
  end.
End AggregatorModel.

(** ** The acceptance conditions of the validator *)

(** The conditions under which the checks of [submit_qa] find nothing, on
    the trimmed texts: both texts non-blank; the question marked natural
    exactly when it was left as it was; the answer found in the context;
    precise only if adequate; an answer left as it was marked natural and
    adequate or precise; an edited answer not marked both precise and
    natural. *)
Definition acceptable (current : item) (f : form) : Prop :=
  let '(context, question, answer) := current in
  let submitted_question := Str.strip (user_question f) in
  let submitted_answer := Str.strip (user_answer f) in
  submitted_question <> EmptyString
  /\ submitted_answer <> EmptyString
  /\ (question_naturalness f = true <-> submitted_question = Str.strip question)
  /\ Str.contains submitted_answer context = true
  /\ (answer_precision f = true -> answer_adequacy f = true)
  /\ (submitted_answer = Str.strip answer ->
      answer_naturalness f = true
      /\ (answer_adequacy f = true \/ answer_precision f = true))
  /\ (submitted_answer <> Str.strip answer ->
      ~ (answer_precision f = true /\ answer_naturalness f = true)).

(** The page contents that a stored Judgement records. *)
Definition form_of (kp : kept_pair) : form :=
  Form true (kp_Original_Question_Naturalness kp) EmptyString (kp_User_Query kp)
       (kp_Original_Answer_Naturalness kp) (kp_Original_Answer_Adequacy kp)
       (kp_Original_Answer_Correctness kp) None (kp_User_Answer kp).

Definition item_of (kp : kept_pair) : item :=
  (kp_Context kp, kp_Question kp, kp_Answer kp).

(** ** Trimmed strings *)

(** A string that is empty or starts with a character that is not white
    space. *)
Definition trimmed_left (s : string) : Prop :=
  match s with
  | EmptyString => True
  | String c _ => Str.isspace c = false
  end.


(** ** Agreement of the derived files with the profile file *)


(** ** Vocabulary of the notes *)

(** [notes[context][question]], when both keys are there. *)
Definition note_at (ns : gmap string (gmap string note))
    (context question : string) : option note :=
  ns !! context ≫= (.!! question).

(** The questions recorded as unsuitable under a context. *)
Definition unsuitable_under (s : session_state) (context : string) : list string :=
  default [] (unsuitable_questions s !! context).

(** ** Paths of the profile files *)

(** [os.path] on a POSIX system. *)
Module Path.

(** [os.path.sep] *)
Definition sep : ascii := "/"%char.

(** [s.startswith('/')] *)
Definition startswith_sep (s : string) : bool :=
  match s with
  | EmptyString => false
  | String c _ => bool_decide (c = sep)
  end.

(** [s.endswith('/')] *)
Fixpoint endswith_sep (s : string) : bool :=
  match s with
  | EmptyString => false
  | String c EmptyString => bool_decide (c = sep)
  | String _ s' => endswith_sep s'
  end.

(** [os.path.join(a, b)]: an absolute [b] replaces [a]; otherwise [b] is
    appended, after a separator unless [a] is empty or ends with one. *)
Definition join (a b : string) : string :=
  if startswith_sep b then b
  else if bool_decide (a = EmptyString) || endswith_sep a then a +:+ b
  else a +:+ String sep b.

(** [p[:p.rfind('/') + 1]] *)
Fixpoint upto_last_sep (p : string) : string :=
  match p with
  | EmptyString => EmptyString
  | String c p' =>
      match upto_last_sep p' with
      | EmptyString => if decide (c = sep) then String c EmptyString else EmptyString
      | head => String c head
      end
  end.

(** [s == '/' * len(s)] *)
Fixpoint all_sep (s : string) : bool :=
  match s with
  | EmptyString => true
  | String c s' => bool_decide (c = sep) && all_sep s'
  end.

(** [s.rstrip('/')] *)
Fixpoint rstrip_sep (s : string) : string :=
  match s with
  | EmptyString => EmptyString
  | String c s' =>
      match rstrip_sep s' with
      | EmptyString => if decide (c = sep) then EmptyString else String c EmptyString
      | r => String c r
      end
  end.

(** [os.path.dirname(p)] *)
Definition dirname (p : string) : string :=
  let head := upto_last_sep p in
  if negb (bool_decide (head = EmptyString)) && negb (all_sep head)
  then rstrip_sep head
  else head.

(** [s.split('/')]; the result is never empty. *)
Fixpoint split (s : string) : list string :=
  match s with
  | EmptyString => [EmptyString]
  | String c s' =>
      if decide (c = sep) then EmptyString :: split s'
      else match split s' with
           | part :: parts => String c part :: parts
           | [] => [String c EmptyString]
           end
  end.

End Path.

Section Folders.
(** The module constants [INPUT_DATA_FOLDER], [PROFILES_FOLDER] and
    [PRELIMINARY_PROFILES_FOLDER], read from the environment at import. *)
Variables INPUT_DATA_FOLDER PROFILES_FOLDER PRELIMINARY_PROFILES_FOLDER : string.

(** [str(subset_index)] is [pretty] on [Z]. *)
Definition get_profile_dir (username : string) (preliminary : bool)
    (subset_index : option Z) : string :=
  let username := match subset_index with
                  | Some i => Path.join (pretty i) username
                  | None => username
                  end in
  if preliminary then Path.join PRELIMINARY_PROFILES_FOLDER username
  else Path.join PROFILES_FOLDER username.

Definition get_profile_filepath (username : string) (preliminary : bool)
    (subset_index : option Z) : string :=
  Path.join (get_profile_dir username preliminary subset_index) "profile.json".

Definition get_squad_filepath (username : string) (preliminary : bool)
    (subset_index : option Z) : string :=
  Path.join (get_profile_dir username preliminary subset_index) "profile.squad".

Definition get_unsuitable_questions_filepath (username : string) (preliminary : bool)
    (subset_index : option Z) : string :=
  Path.join (get_profile_dir username preliminary subset_index)
            "unsuitable_questions.json".

Definition get_unnatural_questions_filepath (username : string) (preliminary : bool)
    (subset_index : option Z) : string :=
  Path.join (get_profile_dir username preliminary subset_index) "unnatural_texts.json".

Definition get_incorrect_qa_filepath (username : string) (preliminary : bool)
    (subset_index : option Z) : string :=
  Path.join (get_profile_dir username preliminary subset_index) "incorrect.json".

Definition get_times_filepath (username : string) (preliminary : bool)
    (subset_index : option Z) : string :=
  Path.join (get_profile_dir username preliminary subset_index) "times.json".

Definition get_notes_filepath (username : string) (preliminary : bool)
    (subset_index : option Z) : string :=
  Path.join (get_profile_dir username preliminary subset_index) "notes.json".

Definition get_completeness_marker_filepath (username : string) (preliminary : bool)
    (subset_index : option Z) : string :=
  Path.join (get_profile_dir username preliminary subset_index) "complete".

Definition get_data_filepath (preliminary : bool) (subset_index : option Z) : string :=
  if preliminary then
    Path.join INPUT_DATA_FOLDER "preliminary_generated_data.json"
  else
    match subset_index with
    | Some i =>
        Path.join INPUT_DATA_FOLDER
                  ("subset_" +:+ pretty i +:+ "_generated_data.json")
    | None => Path.join INPUT_DATA_FOLDER "generated_data.json"
    end.

(** The paths [export_data] writes to, in its order, and the completion
    marker. *)
Definition profile_paths (username : string) (preliminary : bool)
    (subset_index : option Z) : list string :=
  [ get_profile_filepath username preliminary subset_index;
    get_squad_filepath username preliminary subset_index;
    get_unnatural_questions_filepath username preliminary subset_index;
    get_unsuitable_questions_filepath username preliminary subset_index;
    get_incorrect_qa_filepath username preliminary subset_index;
    get_times_filepath username preliminary subset_index;
    get_notes_filepath username preliminary subset_index;
    get_completeness_marker_filepath username preliminary subset_index ].

(** ** The login view: [list_users] and the gate of [show_login_view] *)

(** The file system as the login view reads it: [glob.glob] and
    [os.path.isfile]. *)
Variable glob : string -> list string.
Variable isfile : string -> bool.

(** The body of the loop of [list_users]: [dir_path.split(os.path.sep)[-1]]. *)
Definition profile_name (filepath : string) : string :=
  default EmptyString (last (Path.split (Path.dirname filepath))).

Definition list_users (preliminary : bool) (subset_index : option Z) : list string :=
  profile_name <$> glob (get_profile_filepath "*" preliminary subset_index).

Inductive login_error : Type := EmptyId | AlreadyCompleted.

(** What [show_login_view] does with the text typed: it stays on the login
    page, with an error or without, or it initialises the user and sets
    [st.session_state['user']]. *)
Inductive login : Type :=
| StayOnLogin (error : option login_error)
| LoggedIn (user : string).

Definition show_login_view (first_user_input : bool) (username : string)
    (preliminary : bool) (subset_index : option Z) : login :=
  let profiles := list_users preliminary subset_index in
  let completed_users :=
    filter (fun profile =>
              isfile (get_completeness_marker_filepath profile preliminary subset_index)
              = true) profiles in
  if Nat.eqb (String.length (Str.strip username)) 0 then
    StayOnLogin (if negb first_user_input then Some EmptyId else None)
  else if bool_decide (username ∈ completed_users) then
    StayOnLogin (Some AlreadyCompleted)
  else LoggedIn username.
End Folders.

(** * Properties *)

(** ** The string primitives meet their Python meaning *)

Section StrFacts.
Local Open Scope string_scope.

Lemma prefix_app (p s : string) :
  String.prefix p s = true <-> exists post, s = p +:+ post.
Proof.
  revert s. induction p as [|a p IH]; intros s; simpl.
  - destruct s; simpl; split; try done; intros _; by eexists.
  - destruct s as [|b s]; simpl.
    + split; [done | intros [post Hpost]; discriminate].
    + destruct (ascii_dec a b) as [->|Hne].
      * rewrite IH. split; intros [post Hpost]; exists post.
        -- by rewrite Hpost.
        -- by injection Hpost.
      * split; [done | intros [post Hpost]].
        injection Hpost as Hb _. congruence.
Qed.

Lemma find_unfold (s sub : string) :
  Str.find s sub =
    if String.prefix sub s then Some 0
    else match s with
         | EmptyString => None
         | String _ s' => S <$> Str.find s' sub
         end.
Proof. by destruct s. Qed.

(** A hit of [find] is an occurrence of [sub] at that index. *)
Lemma find_Some (s sub : string) (i : nat) :
  Str.find s sub = Some i ->
  exists pre post, s = pre +:+ sub +:+ post /\ String.length pre = i.
Proof.
  revert i. induction s as [|c s IH]; intros i; rewrite find_unfold.
  - destruct (String.prefix sub "") eqn:Hp; [|done].
    intros [= <-]. apply prefix_app in Hp as [post Hpost].
    by exists "", post.
  - destruct (String.prefix sub (String c s)) eqn:Hp.
    + intros [= <-]. apply prefix_app in Hp as [post Hpost].
      by exists "", post.
    + destruct (Str.find s sub) as [j|] eqn:Hj; [|done].
      intros [= <-]. destruct (IH j eq_refl) as (pre & post & -> & Hlen).
      exists (String c pre), post. simpl. by rewrite Hlen.
Qed.

(** A miss of [find] means that [sub] occurs nowhere. *)
Lemma find_None (s sub pre post : string) :
  Str.find s sub = None -> s <> pre +:+ sub +:+ post.
Proof.
  revert s. induction pre as [|c pre IH]; intros s Hf ->;
    rewrite find_unfold in Hf.
  - assert (String.prefix sub ("" +:+ sub +:+ post) = true) as Hp
      by (apply prefix_app; by exists post).
    by rewrite Hp in Hf.
  - destruct (String.prefix sub (String c pre +:+ sub +:+ post)); [done|].
    change (String c pre +:+ sub +:+ post)
      with (String c (pre +:+ sub +:+ post)) in Hf.
    cbv beta iota in Hf.
    destruct (Str.find (pre +:+ sub +:+ post) sub) eqn:Hj; [done|].
    by eapply IH.
Qed.

(** [sub in s] holds exactly when [s] is [pre + sub + post]. *)
Lemma contains_spec (sub s : string) :
  Str.contains sub s = true <-> exists pre post, s = pre +:+ sub +:+ post.
Proof.
  unfold Str.contains. destruct (Str.find s sub) as [i|] eqn:Hf.
  - split; [intros _ | done].
    destruct (find_Some _ _ _ Hf) as (pre & post & ? & _). eauto.
  - split; [done | intros (pre & post & Hs)].
    by destruct (find_None _ _ pre post Hf).
Qed.

(** [s.index(sub)] raises exactly when [sub in s] is false. *)
Lemma index_raises (s sub : string) :
  Str.index s sub = Raise ValueError <-> Str.contains sub s = false.
Proof.
  unfold Str.index, Str.contains. by destruct (Str.find s sub).
Qed.

Lemma index_Ok (s sub : string) (i : nat) :
  Str.index s sub = Ok i <-> Str.find s sub = Some i.
Proof.
  unfold Str.index. destruct (Str.find s sub); split; congruence.
Qed.
End StrFacts.

(** ** Insertion-ordered dictionaries *)

Section DictFacts.
Context {V : Type}.
Implicit Types (d : Dict.t V) (k : string) (v : V).

Lemma get_set_eq k v d : Dict.get k (Dict.set k v d) = Some v.
Proof.
  induction d as [|[k' v'] d IH]; simpl; repeat case_decide; simpl;
    repeat case_decide; congruence.
Qed.

Lemma get_set_ne k k' v d : k <> k' -> Dict.get k' (Dict.set k v d) = Dict.get k' d.
Proof.
  intros Hne. induction d as [|[k0 v0] d IH]; simpl; repeat case_decide; simpl;
    repeat case_decide; congruence.
Qed.

Lemma set_set k v v' d : Dict.set k v (Dict.set k v' d) = Dict.set k v d.
Proof.
  induction d as [|[k0 v0] d IH]; simpl; repeat case_decide; simpl;
    repeat case_decide; congruence.
Qed.

Lemma set_get_id k v d : Dict.get k d = Some v -> Dict.set k v d = d.
Proof.
  induction d as [|[k0 v0] d IH]; simpl; [done|].
  case_decide as Hk.
  - intros [= ->]. by rewrite Hk.
  - intros Hg. f_equal. auto.
Qed.

Lemma mem_get k d : Dict.mem k d = true <-> is_Some (Dict.get k d).
Proof.
  unfold Dict.mem. by destruct (Dict.get k d); split; intros H.
Qed.

Lemma getitem_get k d v : Dict.get k d = Some v -> Dict.getitem k d = Ok v.
Proof. unfold Dict.getitem. by intros ->. Qed.
End DictFacts.

(** ** The aggregator's loops *)

Section AggregatorFacts.
Import Aggregator AggregatorSpec.
Implicit Types (st : locals) (d : Dict.t (Dict.t (list SQuAD.answer))).
Local Arguments lookup2 : simpl never.
Local Arguments extend : simpl never.

(** One pair: the question's list is created if needed and receives the
    entry when the offset is found; otherwise the triple is logged. *)
Lemma add_pair_eq context q a st q_a :
  Dict.get context (context_to_question_answers st) = Some q_a ->
  add_pair context (q, a) st =
    Ok (Locals (unnatural st) (incorrect st)
          (Dict.set context
             (Dict.set q (default [] (Dict.get q q_a) ++ found_entry context (q, a)) q_a)
             (context_to_question_answers st))
          (logged st ++ match Str.find context a with
                        | Some _ => []
                        | None => [(context, q, a)]
                        end)).
Proof.
  intros Hc. unfold add_pair, found_entry, Str.index.
  rewrite (getitem_get _ _ _ Hc). cbn.
  destruct (Dict.mem q q_a) eqn:Hm.
  - apply mem_get in Hm as [l Hl]. rewrite Hl. cbn.
    rewrite (getitem_get _ _ _ Hc). cbn.
    rewrite (getitem_get _ _ _ Hl). cbn.
    destruct (Str.find context a) as [i|]; cbn.
    + by rewrite app_nil_r.
    + by rewrite !app_nil_r, (set_get_id _ _ _ Hl), (set_get_id _ _ _ Hc).
  - assert (Dict.get q q_a = None) as Hl.
    { destruct (Dict.get q q_a) eqn:E; [|done]. unfold Dict.mem in Hm.
      by rewrite E in Hm. }
    rewrite Hl. cbn. unfold Dict.getitem. rewrite !get_set_eq. cbn.
    rewrite get_set_eq.
    destruct (Str.find context a) as [i|]; cbn.
    + by rewrite !set_set, app_nil_r.
    + done.
Qed.

Lemma lookup2_set context q l q_a d c' q' :
  Dict.get context d = Some q_a ->
  lookup2 c' q' (Dict.set context (Dict.set q l q_a) d) =
    if decide (context = c' /\ q = q') then Some l else lookup2 c' q' d.
Proof.
  intros Hc. unfold lookup2.
  destruct (decide (context = c')) as [<-|Hne].
  - rewrite get_set_eq, Hc. cbn.
    destruct (decide (q = q')) as [<-|Hq].
    + rewrite get_set_eq. by rewrite decide_True.
    + rewrite get_set_ne by done. rewrite decide_False; [done | tauto].
  - rewrite get_set_ne by done. rewrite decide_False; [done | tauto].
Qed.

Lemma extend_nil c o : extend c o [] = o.
Proof. unfold extend. destruct o; cbn; by rewrite ?app_nil_r. Qed.

Lemma extend_app c o ps1 ps2 :
  extend c (extend c o ps1) ps2 = extend c o (ps1 ++ ps2).
Proof.
  unfold extend. rewrite bind_app.
  destruct o, ps1, ps2; cbn; rewrite ?app_nil_r, ?app_assoc; done.
Qed.

Lemma landing_cons context c q qa pairs :
  landing context c q (qa :: pairs)
  = landing context c q [qa] ++ landing context c q pairs.
Proof.
  unfold landing. case_decide; [|done].
  rewrite filter_cons, (filter_cons _ qa []), filter_nil. by case_decide.
Qed.

Lemma add_pair_spec context qa st :
  is_Some (Dict.get context (context_to_question_answers st)) ->
  exists st',
    add_pair context qa st = Ok st'
    /\ unnatural st' = unnatural st
    /\ incorrect st' = incorrect st
    /\ (forall c, is_Some (Dict.get c (context_to_question_answers st'))
                  <-> is_Some (Dict.get c (context_to_question_answers st)))
    /\ (forall c q, lookup2 c q (context_to_question_answers st')
                    = extend c (lookup2 c q (context_to_question_answers st))
                             (landing context c q [qa])).
Proof.
  intros [q_a Hc]. destruct qa as [q a].
  eexists. split; [by apply add_pair_eq|]. cbn. repeat split; try done.
  - destruct (decide (context = c)) as [<-|Hne].
    + rewrite get_set_eq, Hc. by eauto.
    + by rewrite get_set_ne.
  - destruct (decide (context = c)) as [<-|Hne].
    + rewrite get_set_eq, Hc. by eauto.
    + by rewrite get_set_ne.
  - intros c q'. rewrite (lookup2_set _ _ _ _ _ _ _ Hc).
    unfold landing. rewrite filter_cons, filter_nil. cbn.
    destruct (decide (context = c)) as [<-|Hne].
    + destruct (decide (q = q')) as [<-|Hq].
      * rewrite decide_True by done. unfold lookup2 at 1. rewrite Hc. cbn.
        unfold extend. cbn. rewrite app_nil_r.
        by destruct (Dict.get q q_a).
      * rewrite decide_False by tauto. by rewrite extend_nil.
    + rewrite decide_False by tauto. by rewrite extend_nil.
Qed.

Lemma add_pairs_spec context pairs st :
  is_Some (Dict.get context (context_to_question_answers st)) ->
  exists st',
    add_pairs context pairs st = Ok st'
    /\ unnatural st' = unnatural st
    /\ incorrect st' = incorrect st
    /\ (forall c, is_Some (Dict.get c (context_to_question_answers st'))
                  <-> is_Some (Dict.get c (context_to_question_answers st)))
    /\ (forall c q, lookup2 c q (context_to_question_answers st')
                    = extend c (lookup2 c q (context_to_question_answers st))
                             (landing context c q pairs)).
Proof.
  revert st. induction pairs as [|qa pairs IH]; intros st Hc.
  - exists st. cbn. repeat split; try done.
    intros c q. unfold landing. case_decide; by rewrite ?filter_nil, extend_nil.
  - destruct (add_pair_spec context qa st Hc) as (st1 & E1 & U1 & I1 & K1 & L1).
    destruct (IH st1) as (st2 & E2 & U2 & I2 & K2 & L2); [by apply K1|].
    exists st2. cbn. rewrite E1. cbn. repeat split; try congruence.
    + intros H. apply K1, K2, H.
    + intros H. apply K2, K1, H.
    + intros c q. by rewrite L2, L1, extend_app, <- landing_cons.
Qed.
End AggregatorFacts.

Section AggregatorLoop.
Import Aggregator AggregatorSpec.
Implicit Types (st : locals) (kp : kept_pair).
Local Arguments lookup2 : simpl never.
Local Arguments extend : simpl never.
Local Arguments pairs_under : simpl never.

(** [pairs_to_add] does not depend on the two lists. *)
Lemma classify_pairs kp u i : (classify kp u i).1.1 = pairs_to_add kp.
Proof.
  unfold pairs_to_add, classify.
  by destruct (kp_Original_Question_Naturalness kp),
    (kp_Original_Answer_Naturalness kp),
    (kp_Original_Answer_Adequacy kp),
    (kp_Original_Answer_Correctness kp).
Qed.

Lemma lookup2_fresh_context context c q (d : Dict.t (Dict.t (list SQuAD.answer))) :
  Dict.get context d = None ->
  lookup2 c q (Dict.set context Dict.empty d) = lookup2 c q d.
Proof.
  intros Hc. unfold lookup2. destruct (decide (context = c)) as [<-|Hne].
  - by rewrite get_set_eq, Hc.
  - by rewrite get_set_ne.
Qed.

(** One judgement: the loop body returns, the two lists are those of
    [classify], and the pairs of [pairs_to_add] land under its context. *)
Lemma step_spec kp st :
  exists st',
    step kp st = Ok st'
    /\ unnatural st' = (classify kp (unnatural st) (incorrect st)).1.2
    /\ incorrect st' = (classify kp (unnatural st) (incorrect st)).2
    /\ (forall c q, lookup2 c q (context_to_question_answers st')
                    = extend c (lookup2 c q (context_to_question_answers st))
                             (landing (kp_Context kp) c q (pairs_to_add kp))).
Proof.
  unfold step. rewrite <- (classify_pairs kp (unnatural st) (incorrect st)).
  destruct (classify kp (unnatural st) (incorrect st)) as [[pairs u] i]. cbn.
  set (d := context_to_question_answers st).
  set (d0 := if Dict.mem (kp_Context kp) d then d
             else Dict.set (kp_Context kp) Dict.empty d).
  assert (is_Some (Dict.get (kp_Context kp) d0)) as Hin.
  { subst d0. destruct (Dict.mem _ d) eqn:Hm.
    - by apply mem_get.
    - rewrite get_set_eq. by eexists. }
  assert (forall c q, lookup2 c q d0 = lookup2 c q d) as Hsame.
  { intros c q. subst d0. destruct (Dict.mem _ d) eqn:Hm; [done|].
    apply lookup2_fresh_context. unfold Dict.mem in Hm.
    by destruct (Dict.get (kp_Context kp) d). }
  destruct (add_pairs_spec (kp_Context kp) pairs (Locals u i d0 (logged st)) Hin)
    as (st' & E & U & I & _ & L).
  exists st'. repeat split; try done.
  intros c q. by rewrite L, <- Hsame.
Qed.

Lemma pairs_under_cons c q kp kps :
  pairs_under c q (kp :: kps)
  = landing (kp_Context kp) c q (pairs_to_add kp) ++ pairs_under c q kps.
Proof. done. Qed.

(** The whole loop returns, and under every context and question it has
    stored the found entries of the pairs added there, in order. *)
Lemma loop_spec kps st :
  exists st',
    loop kps st = Ok st'
    /\ (forall c q, lookup2 c q (context_to_question_answers st')
                    = extend c (lookup2 c q (context_to_question_answers st))
                             (pairs_under c q kps)).
Proof.
  revert st. induction kps as [|kp kps IH]; intros st.
  - exists st. split; [done|]. intros c q. by rewrite extend_nil.
  - destruct (step_spec kp st) as (st1 & E1 & _ & _ & L1).
    destruct (IH st1) as (st2 & E2 & L2).
    exists st2. cbn. rewrite E1. cbn. split; [done|].
    intros c q. by rewrite L2, L1, extend_app, pairs_under_cons.
Qed.

Section Output.
Variable uuid4 : nat -> string.

(** No exception leaves [kept_pairs_to_output]. *)
Lemma kept_pairs_to_output_returns kps :
  returns_normally (kept_pairs_to_output uuid4 kps).
Proof.
  unfold kept_pairs_to_output.
  destruct (loop_spec kps initial) as (st & -> & _). by eexists.
Qed.

Lemma build_qas_elem k (q_a : Dict.t (list SQuAD.answer)) q l :
  Dict.get q q_a = Some l ->
  exists k', SQuAD.QA q l false (fresh_id uuid4 k') ∈ build_qas uuid4 k q_a.
Proof.
  revert k. induction q_a as [|[q0 l0] q_a IH]; intros k; simpl; [done|].
  case_decide as Hq.
  - intros [= ->]. subst q0. exists k. by left.
  - intros Hg. destruct (IH (S k) Hg) as [k' Hk']. exists k'. by right.
Qed.

Lemma build_paragraphs_elem k (d : Dict.t (Dict.t (list SQuAD.answer))) c q_a :
  Dict.get c d = Some q_a ->
  exists k', SQuAD.Paragraph (build_qas uuid4 k' q_a) c
             ∈ build_paragraphs uuid4 k d.
Proof.
  revert k. induction d as [|[c0 q0] d IH]; intros k; simpl; [done|].
  case_decide as Hc.
  - intros [= ->]. subst c0. exists k. by left.
  - intros Hg. destruct (IH (k + length q0) Hg) as [k' Hk']. exists k'. by right.
Qed.

(** Whatever is stored under a context and a question is a question
    entry of that context's paragraph. *)
Lemma to_squad_elem d c q l :
  lookup2 c q d = Some l ->
  exists p e,
    p ∈ paragraphs_of (to_squad uuid4 d)
    /\ SQuAD.context p = c
    /\ e ∈ SQuAD.qas p
    /\ SQuAD.question e = q
    /\ SQuAD.answers e = l.
Proof.
  unfold lookup2. destruct (Dict.get c d) as [q_a|] eqn:Hc; [cbn|done].
  intros Hq.
  destruct (build_paragraphs_elem 0 d c q_a Hc) as [k Hk].
  destruct (build_qas_elem k q_a q l Hq) as [k' Hk'].
  exists (SQuAD.Paragraph (build_qas uuid4 k q_a) c),
         (SQuAD.QA q l false (fresh_id uuid4 k')).
  repeat split; try done.
  unfold paragraphs_of, to_squad. cbn. by rewrite app_nil_r.
Qed.
End Output.
End AggregatorLoop.

(** ** The aggregator's end-to-end properties *)

Section AggregatorClaims.
Import Aggregator AggregatorSpec.
Local Arguments lookup2 : simpl never.
Local Arguments extend : simpl never.
Local Arguments pairs_under : simpl never.
Local Arguments landing : simpl never.
Local Arguments add_pair : simpl never.
Local Arguments found_entry : simpl never.

(** The output for one judgement that keeps its original pair and whose
    reviewer left both texts as they were: one paragraph, one question,
    and one entry per pair of [pairs_to_add] whose offset lookup succeeds. *)
Lemma single_unchanged_judgement_output uuid4 c q a ac :
  kept_pairs_to_output uuid4 [KeptPair c q a true true true ac q a]
  = Ok (SQuAD.Make
          [SQuAD.Article "Streamlit"
             [SQuAD.Paragraph
                [SQuAD.QA q (found_entry c (q, a) ++ found_entry c (q, a))
                          false (fresh_id uuid4 0)] c]]
          "v2.0", [], []).
Proof.
  unfold kept_pairs_to_output, loop, step. cbn.
  rewrite (add_pair_eq c q a _ []) by (cbn; by rewrite decide_True).
  cbn. rewrite !decide_True by done. cbn.
  rewrite (add_pair_eq c q a _ [(q, found_entry c (q, a))])
    by (cbn; by rewrite decide_True).
  cbn. rewrite !decide_True by done. cbn. done.
Qed.

(** C1 (as amended). For a single Judgement whose original question and
    answer are marked natural and whose answer is marked adequate, with
    [user_question] equal to the original question and [user_answer] equal
    to the original answer, and whose answer occurs in the context, the
    verified dataset has exactly one context, exactly one question, and
    exactly two answer entries, both with the original answer text and with
    [answer_start] equal to [context.index(answer)]: one for the user pair
    and one for the original pair. The unnatural and incorrect lists are
    empty. *)
Theorem unchanged_natural_adequate_judgement_yields_two_entries
    (uuid4 : nat -> string) (context question answer : string)
    (correct : bool) (start : nat) :
  Str.index context answer = Ok start ->
  kept_pairs_to_output uuid4
    [KeptPair context question answer true true true correct question answer]
  = Ok (SQuAD.Make
          [SQuAD.Article "Streamlit"
             [SQuAD.Paragraph
                [SQuAD.QA question
                          [SQuAD.Answer answer start; SQuAD.Answer answer start]
                          false (fresh_id uuid4 0)]
                context]]
          "v2.0", [], []).
Proof.
  intros Hi%index_Ok. rewrite single_unchanged_judgement_output.
  unfold found_entry. cbn. by rewrite Hi.
Qed.

Lemma unchanged_natural_adequate_judgement_witness :
  Str.index "The cat sat." "cat" = Ok 4
  /\ kept_pairs_to_output Scenario.no_ids [Scenario.unchanged_judgement]
     = Ok (SQuAD.Make
             [SQuAD.Article "Streamlit"
                [SQuAD.Paragraph
                   [SQuAD.QA "Who sat?"
                             [SQuAD.Answer "cat" 4; SQuAD.Answer "cat" 4]
                             false (fresh_id Scenario.no_ids 0)]
                   "The cat sat."]]
             "v2.0", [], []).
Proof.
  split; [reflexivity|].
  apply (unchanged_natural_adequate_judgement_yields_two_entries
           Scenario.no_ids "The cat sat." "Who sat?" "cat" false 4).
  reflexivity.
Defined.

(** C1 as the design document words it, refuted: for the Judgement on
    context "The cat sat.", question "Who sat?" and answer "cat", marked
    natural, natural and adequate, with both texts unchanged, the single
    question of the verified dataset holds two answer entries, not one. *)
Lemma unchanged_judgement_single_entry_counterexample :
  kp_Original_Question_Naturalness Scenario.unchanged_judgement = true
  /\ kp_Original_Answer_Naturalness Scenario.unchanged_judgement = true
  /\ kp_Original_Answer_Adequacy Scenario.unchanged_judgement = true
  /\ kp_User_Query Scenario.unchanged_judgement
     = kp_Question Scenario.unchanged_judgement
  /\ kp_User_Answer Scenario.unchanged_judgement
     = kp_Answer Scenario.unchanged_judgement
  /\ exists squad,
       kept_pairs_to_output Scenario.no_ids [Scenario.unchanged_judgement]
       = Ok (squad, [], [])
       /\ (length ∘ SQuAD.answers <$> (paragraphs_of squad ≫= SQuAD.qas)) = [2]
       /\ ~ (exists start id,
               paragraphs_of squad
               = [SQuAD.Paragraph
                    [SQuAD.QA "Who sat?" [SQuAD.Answer "cat" start] false id]
                    "The cat sat."]).
Proof.
  repeat split; try reflexivity.
  eexists. split; [vm_compute; reflexivity|]. split; [reflexivity|].
  intros (start & id & H). vm_compute in H. discriminate H.
Qed.

(** One run of the loop body, from any state of the locals: the original
    pair is among the pairs added exactly under the spec's condition, each
    added pair becomes an entry when its offset is found, and the two lists
    grow as the [else] branch says. *)
Lemma step_keeps_original_iff (kp : kept_pair) (st : locals) :
  let question := kp_Question kp in
  let answer := kp_Answer kp in
  let user_pair := (kp_User_Query kp, kp_User_Answer kp) in
  exists st',
    step kp st = Ok st'
    /\ (pairs_to_add kp = [user_pair; (question, answer)] <-> original_kept kp)
    /\ (pairs_to_add kp = [user_pair] <-> ~ original_kept kp)
    /\ (forall c q,
          lookup2 c q (context_to_question_answers st')
          = extend c (lookup2 c q (context_to_question_answers st))
                   (landing (kp_Context kp) c q (pairs_to_add kp)))
    /\ unnatural st'
       = unnatural st
         ++ (if decide (original_kept kp) then []
             else (if kp_Original_Question_Naturalness kp then [] else [question])
                  ++ (if kp_Original_Answer_Naturalness kp then [] else [answer]))
    /\ incorrect st'
       = incorrect st
         ++ (if decide (original_kept kp) then []
             else if kp_Original_Answer_Adequacy kp
                     || kp_Original_Answer_Correctness kp
                  then [] else [(question, answer)]).
Proof.
  cbn zeta. destruct (step_spec kp st) as (st' & E & U & I & L).
  exists st'. split; [done|]. rewrite U, I. clear E U I.
  split; [|split; [|split; [exact L|]]]; clear L;
    unfold pairs_to_add, classify, original_kept;
    destruct kp as [c q a qn an ad ac uq ua]; cbn;
    destruct qn, an, ad, ac; cbn.
  all: try case_decide; rewrite ?app_nil_r.
  all: rewrite <- ?app_assoc; first [done | intuition congruence].
Qed.
End AggregatorClaims.

Section LookupFailure.
Import Aggregator AggregatorSpec.
Local Arguments lookup2 : simpl never.
Local Arguments extend : simpl never.
Local Arguments pairs_under : simpl never.

(** A failed offset lookup inside [add_pair]: the call returns, the
    question's key is present afterwards with the entries it had (none if
    it is new), and the triple is logged. *)
Lemma add_pair_lookup_failure context q a (st : locals) q_a :
  Dict.get context (context_to_question_answers st) = Some q_a ->
  Str.index context a = Raise ValueError ->
  exists st',
    add_pair context (q, a) st = Ok st'
    /\ lookup2 context q (context_to_question_answers st')
       = Some (default [] (Dict.get q q_a))
    /\ logged st' = logged st ++ [(context, q, a)].
Proof.
  intros Hc Hi. apply index_raises in Hi. unfold Str.contains in Hi.
  eexists. split; [by apply add_pair_eq|]. cbn.
  rewrite (lookup2_set _ _ _ _ _ _ _ Hc), decide_True by done.
  unfold found_entry. cbn.
  destruct (Str.find context a); [done|]. by rewrite app_nil_r.
Qed.

Lemma failed_pairs_contribute_nothing context (ps : list (string * string)) :
  Forall (fun qa => Str.index context qa.2 = Raise ValueError) ps ->
  ps ≫= found_entry context = [].
Proof.
  induction 1 as [|qa ps Hqa _ IH]; [done|].
  rewrite bind_cons, IH, app_nil_r. unfold found_entry.
  apply index_raises in Hqa. unfold Str.contains in Hqa.
  by destruct (Str.find context qa.2).
Qed.

(** C10. When the offset lookup fails for an answer, [kept_pairs_to_output]
    still returns, and the question's key is already in the dictionary:
    a question under a context all of whose added answers fail the lookup
    appears in the SQuAD output, in that context's paragraph, with an empty
    answers list. *)
Theorem question_with_only_failed_lookups_has_empty_answers
    (uuid4 : nat -> string) (kept_pairs : list kept_pair)
    (context question : string) :
  pairs_under context question kept_pairs <> [] ->
  Forall (fun qa => Str.index context qa.2 = Raise ValueError)
         (pairs_under context question kept_pairs) ->
  exists squad unnatural incorrect,
    kept_pairs_to_output uuid4 kept_pairs = Ok (squad, unnatural, incorrect)
    /\ exists p e,
         p ∈ paragraphs_of squad
         /\ SQuAD.context p = context
         /\ e ∈ SQuAD.qas p
         /\ SQuAD.question e = question
         /\ SQuAD.answers e = [].
Proof.
  intros Hne Hfail. unfold kept_pairs_to_output.
  destruct (loop_spec kept_pairs initial) as (st & -> & L). cbn.
  eexists _, _, _. split; [done|].
  apply to_squad_elem. rewrite L. unfold extend.
  rewrite (failed_pairs_contribute_nothing _ _ Hfail).
  by destruct (pairs_under context question kept_pairs).
Qed.

Lemma question_with_only_failed_lookups_witness :
  pairs_under "The cat" "Who sat?" Scenario.failing_judgements <> []
  /\ Forall (fun qa => Str.index "The cat" qa.2 = Raise ValueError)
            (pairs_under "The cat" "Who sat?" Scenario.failing_judgements)
  /\ exists squad unnatural incorrect,
       kept_pairs_to_output Scenario.no_ids Scenario.failing_judgements
       = Ok (squad, unnatural, incorrect)
       /\ exists p e,
            p ∈ paragraphs_of squad
            /\ SQuAD.context p = "The cat"
            /\ e ∈ SQuAD.qas p
            /\ SQuAD.question e = "Who sat?"
            /\ SQuAD.answers e = [].
Proof.
  split; [|split].
  - vm_compute. discriminate.
  - vm_compute. repeat constructor.
  - apply (question_with_only_failed_lookups_has_empty_answers Scenario.no_ids).
    + vm_compute. discriminate.
    + vm_compute. repeat constructor.
Defined.

(** The output for those Judgements: the question "Who sat?" has no
    answer, and the three failed lookups are logged. *)
Example failing_judgements_output :
  kept_pairs_to_output Scenario.no_ids Scenario.failing_judgements
  = Ok (SQuAD.Make
          [SQuAD.Article "Streamlit"
             [SQuAD.Paragraph [SQuAD.QA "Who sat?" [] false ""] "The cat"]]
          "v2.0",
        ["Who?"], [("Who?", "dog")])
  /\ kept_pairs_to_output_log Scenario.failing_judgements
     = [("The cat", "Who sat?", "cat "); ("The cat", "Who sat?", "sat");
        ("The cat", "Who sat?", "dog")].
Proof. split; vm_compute; reflexivity. Qed.
End LookupFailure.

(** ** The queue cursor *)

Section CursorFacts.

(** Where the loop stops: at or after its start, every entry it passed is
    skipped, and the entry it stops on, if any, is not. *)
Lemma skip_loop_spec queue skip i np :
  let r := (skip_loop queue skip i np).1 in
  i <= r
  /\ (i <= length queue -> r <= length queue)
  /\ (forall j x, i <= j -> j < r -> queue !! j = Some x -> skip x = true)
  /\ (forall x, queue !! r = Some x -> skip x = false).
Proof.
  cbn zeta. funelim (skip_loop queue skip i np); cbn.
  - repeat split; [lia..|]. intros x Hx. congruence.
  - match goal with
    | IH : _ /\ _ /\ _ /\ _ |- _ => destruct IH as (Hle & Hlen & Hskip & Hstop)
    end.
    match goal with
    | Hit : _ !! i = Some _ |- _ => pose proof (lookup_lt_Some _ _ _ Hit) as Hlt
    end.
    repeat split; [lia | lia | | done].
    intros j x Hij Hjr Hx. destruct (decide (j = i)) as [->|Hne].
    + congruence.
    + apply (Hskip j x); [lia | done | done].
  - repeat split; [lia..|]. intros x Hx. congruence.
Qed.

(** The loop stays where it is on an entry that is not skipped. *)
Lemma skip_loop_stays queue skip i np x :
  queue !! i = Some x -> skip x = false ->
  (skip_loop queue skip i np).1 = i.
Proof.
  intros Hx Hs.
  destruct (skip_loop_spec queue skip i np) as (Hle & _ & Hskip & _).
  cbn zeta in *. destruct (decide ((skip_loop queue skip i np).1 = i)); [done|].
  rewrite (Hskip i x) in Hs; [done | lia | lia | done].
Qed.

Lemma resolved_spec (s : session_state) context question answer :
  resolved (completed_questions s) (unsuitable_questions s)
           (context, question, answer) = true
  <-> question ∈ completed_questions s \/ pair_unsuitable s context question.
Proof.
  unfold resolved, pair_unsuitable. rewrite orb_true_iff, bool_decide_eq_true.
  destruct (unsuitable_questions s !! context) as [qs|].
  - rewrite bool_decide_eq_true. split; (intros [H|H]; [by left | right]).
    + by exists qs.
    + destruct H as (qs' & [= <-] & H). done.
  - split; (intros [H|H]; [by left | exfalso]); [done|].
    by destruct H as (qs' & ? & _).
Qed.

Lemma marked_resolved (s : session_state) j x :
  data s !! j = Some x ->
  marked s j <-> resolved (completed_questions s) (unsuitable_questions s) x = true.
Proof.
  intros Hx. destruct x as [[c q] a]. rewrite resolved_spec. unfold marked.
  split.
  - intros (c' & q' & a' & Hj & H).
    pose proof (eq_trans (eq_sym Hx) Hj) as E. by injection E as <- <- <-.
  - intros H. by exists c, q, a.
Qed.

(** What one run of the page does: only the cursor and the completion
    marker change; the cursor moves over marked entries and stops on the
    first one that is not marked, which is the entry shown. *)
Lemma run_qa_tool_spec (w : world) :
  index_input (session w) <= length (data (session w)) ->
  exists w' v,
    run_qa_tool w = Ok (w', v)
    /\ data (session w') = data (session w)
    /\ completed_questions (session w') = completed_questions (session w)
    /\ unsuitable_questions (session w') = unsuitable_questions (session w)
    /\ kept_pairs (session w') = kept_pairs (session w)
    /\ profile_json (disk w') = profile_json (disk w)
    /\ unsuitable_questions_json (disk w') = unsuitable_questions_json (disk w)
    /\ index_input (session w) <= index_input (session w')
    /\ (forall j, index_input (session w) <= j -> j < index_input (session w') ->
                  marked (session w) j)
    /\ match v with
       | Current x =>
           data (session w) !! index_input (session w') = Some x
           /\ ~ marked (session w) (index_input (session w'))
           /\ disk w' = disk w
       | EndOfQueue =>
           index_input (session w') = length (data (session w))
           /\ complete (disk w') = true
       end.
Proof.
  intros Hle. destruct w as [s fs]. cbn in *.
  unfold run_qa_tool, advance_cursor. cbn.
  pose proof (skip_loop_spec (data s)
                (resolved (completed_questions s) (unsuitable_questions s))
                (index_input s) false) as (Hge & Hlen & Hskip & Hstop).
  cbn zeta in *.
  destruct (skip_loop _ _ _ _) as [r np]. cbn in *.
  specialize (Hlen Hle).
  assert (forall j, index_input s <= j -> j < r -> marked s j) as Hmarked.
  { intros j Hj Hjr.
    destruct (lookup_lt_is_Some_2 (data s) j) as [x Hx]; [lia|].
    apply (marked_resolved s j x Hx). by apply (Hskip j x). }
  destruct (Nat.eqb_spec r (length (data s))) as [->|Hne].
  - eexists _, EndOfQueue. split; [done|]. cbn. repeat split; done.
  - destruct (lookup_lt_is_Some_2 (data s) r) as [x Hx]; [lia|].
    rewrite Hx. eexists _, (Current x). split; [done|]. cbn.
    repeat split; try done.
    intros Hm. apply (marked_resolved s r x Hx) in Hm.
    by rewrite (Hstop x Hx) in Hm.
Qed.

(** C6. For every queue of N entries, started at its head, with S the set
    of indices whose entries are marked complete or unsuitable: the page
    run returns, every index before the cursor is in S, and either the
    cursor is on an index below N that is not in S (the entry shown), or S
    covers the queue and the cursor equals N, the end of the queue. *)
Theorem cursor_lands_on_first_unmarked_index (w : world) :
  index_input (session w) = 0 ->
  exists w' v,
    run_qa_tool w = Ok (w', v)
    /\ let p := index_input (session w') in
       let N := length (data (session w)) in
       (forall j, j < p -> marked (session w) j)
       /\ ((p < N /\ ~ marked (session w) p
            /\ exists x, data (session w) !! p = Some x /\ v = Current x)
           \/ (p = N /\ v = EndOfQueue /\ forall j, j < N -> marked (session w) j)).
Proof.
  intros H0.
  destruct (run_qa_tool_spec w) as (w' & v & E & _ & _ & _ & _ & _ & _ & _ & Hm & Hv);
    [lia|].
  exists w', v. split; [done|]. cbn zeta. rewrite H0 in Hm.
  split; [intros j Hj; apply Hm; lia|].
  destruct v as [|x].
  - right. destruct Hv as [Hp _]. repeat split; [done|].
    intros j Hj. apply Hm; lia.
  - left. destruct Hv as (Hx & Hnm & _). repeat split; [|done|by exists x].
    by apply lookup_lt_Some in Hx.
Qed.

Lemma cursor_lands_on_first_unmarked_witness :
  index_input (session Scenario.two_marked) = 0
  /\ exists w' v,
       run_qa_tool Scenario.two_marked = Ok (w', v)
       /\ let p := index_input (session w') in
          let N := length (data (session Scenario.two_marked)) in
          (forall j, j < p -> marked (session Scenario.two_marked) j)
          /\ ((p < N /\ ~ marked (session Scenario.two_marked) p
               /\ exists x, data (session Scenario.two_marked) !! p = Some x
                            /\ v = Current x)
              \/ (p = N /\ v = EndOfQueue
                  /\ forall j, j < N -> marked (session Scenario.two_marked) j)).
Proof.
  split; [reflexivity|].
  apply (cursor_lands_on_first_unmarked_index Scenario.two_marked).
  reflexivity.
Defined.

(** On that queue the first two entries are passed and the third is
    shown. *)
Example cursor_skips_two_marked_entries :
  (fun r => match r with
            | Ok (w', v) => Some (index_input (session w'), v)
            | Raise _ => None
            end) (run_qa_tool Scenario.two_marked)
  = Some (2, Current ("c2", "q3", "a3")).
Proof. vm_compute. reflexivity. Qed.
End CursorFacts.

(** ** Submissions *)

Section SubmissionFacts.
Variable uuid4 : nat -> string.
Variable elapsed : seconds.
Local Arguments export_data : simpl never.
Local Arguments validate : simpl never.
Local Arguments add_notes : simpl never.

Lemma export_data_spec (s : session_state) (fs : files) :
  exists fs',
    export_data uuid4 s fs = Ok fs'
    /\ profile_json fs' = kept_pairs s
    /\ unsuitable_questions_json fs' = Some (unsuitable_questions s)
    /\ complete fs' = complete fs.
Proof.
  unfold export_data.
  destruct (kept_pairs_to_output_returns uuid4 (kept_pairs s)) as [[[sq un] inc] ->].
  cbn. by eexists.
Qed.

(** A question marked unsuitable: the record of its context grows by the
    question, nothing else of the progress state changes, and the files are
    rewritten. *)
Lemma submit_qa_unsuitable c q a (f : form) (w : world) :
  question_suitable f = false ->
  exists w',
    submit_qa uuid4 elapsed (c, q, a) f w = Ok w'
    /\ data (session w') = data (session w)
    /\ index_input (session w') = index_input (session w)
    /\ kept_pairs (session w') = kept_pairs (session w)
    /\ completed_questions (session w') = completed_questions (session w)
    /\ unsuitable_questions (session w')
       = <[c := default [] (unsuitable_questions (session w) !! c) ++ [q]]>
           (unsuitable_questions (session w))
    /\ profile_json (disk w') = kept_pairs (session w')
    /\ unsuitable_questions_json (disk w') = Some (unsuitable_questions (session w'))
    /\ complete (disk w') = complete (disk w).
Proof.
  intros Hf. unfold submit_qa. rewrite Hf. cbn.
  match goal with
  | |- context [export_data uuid4 ?s ?fs] =>
      destruct (export_data_spec s fs) as (fs' & -> & P & U & C)
  end.
  cbn. eexists. split; [done|]. cbn. by repeat split.
Qed.

(** A suitable question that passes the checks: one row is appended, its
    question joins the completed set, and the files are rewritten. *)
Lemma submit_qa_accepted c q a (f : form) (w : world) :
  question_suitable f = true ->
  all_empty (validate (c, q, a) f) = true ->
  exists w',
    submit_qa uuid4 elapsed (c, q, a) f w = Ok w'
    /\ data (session w') = data (session w)
    /\ index_input (session w') = index_input (session w)
    /\ kept_pairs (session w')
       = kept_pairs (session w)
         ++ [KeptPair c q a (question_naturalness f) (answer_naturalness f)
                      (answer_adequacy f) (answer_precision f)
                      (user_question f) (user_answer f)]
    /\ completed_questions (session w') = completed_questions (session w) ∪ {[ q ]}
    /\ unsuitable_questions (session w') = unsuitable_questions (session w)
    /\ profile_json (disk w') = kept_pairs (session w')
    /\ unsuitable_questions_json (disk w') = Some (unsuitable_questions (session w'))
    /\ complete (disk w') = complete (disk w).
Proof.
  intros Hf Hv. unfold submit_qa. rewrite Hf, Hv. cbn.
  match goal with
  | |- context [export_data uuid4 ?s ?fs] =>
      destruct (export_data_spec s fs) as (fs' & -> & P & U & C)
  end.
  cbn. eexists. split; [done|]. cbn. by repeat split.
Qed.

(** A suitable question that fails the checks: the callback returns with
    the violations stored, and neither the progress state nor any file
    changes. *)
Lemma submit_qa_rejected c q a (f : form) (w : world) :
  question_suitable f = true ->
  all_empty (validate (c, q, a) f) = false ->
  exists s',
    submit_qa uuid4 elapsed (c, q, a) f w = Ok (World s' (disk w))
    /\ data s' = data (session w)
    /\ index_input s' = index_input (session w)
    /\ kept_pairs s' = kept_pairs (session w)
    /\ completed_questions s' = completed_questions (session w)
    /\ unsuitable_questions s' = unsuitable_questions (session w)
    /\ session_errors s' = validate (c, q, a) f.
Proof.
  intros Hf Hv. unfold submit_qa. rewrite Hf, Hv. cbn.
  eexists. split; [done|]. cbn. by repeat split.
Qed.
End SubmissionFacts.

(** ** The validator *)

Section ValidatorFacts.

Lemma length_zero_iff (s : string) : Nat.eqb (String.length s) 0 = true <-> s = EmptyString.
Proof. destruct s; simpl; split; congruence. Qed.

Lemma nonblank_length (s : string) : s <> EmptyString -> Nat.eqb (String.length s) 0 = false.
Proof. by destruct s. Qed.

(** An accepted candidate passed the document check on the trimmed
    answer. *)
Lemma accepted_trimmed_answer_in_context context question answer (f : form) :
  all_empty (validate (context, question, answer) f) = true ->
  Str.contains (Str.strip (user_answer f)) context = true.
Proof.
  unfold validate, all_empty. cbn.
  destruct (Str.contains (Str.strip (user_answer f)) context); [done|].
  intros [_ H]%andb_prop. revert H. cbn.
  repeat match goal with
         | |- context [if ?b then _ else _] => destruct b; cbn
         end; try done.
  all: rewrite ?length_app; cbn; intros H;
    apply Nat.eqb_eq in H; lia.
Qed.

(** C4. For every candidate on a suitable question with precise/correct
    marked and adequate not marked whose other fields are self-consistent
    (non-blank question and answer after trimming, the question marked
    natural exactly when it was left unmodified, the trimmed answer found in
    the context, and the answer marked natural exactly when it was left
    unmodified), validation yields exactly one violation, the "precise
    implies adequate" message, and that is what the callback stores for
    display. *)
Theorem precise_without_adequate_is_the_only_violation
    (uuid4 : nat -> string) (elapsed : seconds)
    (context question answer : string) (f : form) (w : world) :
  question_suitable f = true ->
  answer_precision f = true ->
  answer_adequacy f = false ->
  Str.strip (user_question f) <> EmptyString ->
  Str.strip (user_answer f) <> EmptyString ->
  (question_naturalness f = true
   <-> Str.strip (user_question f) = Str.strip question) ->
  Str.contains (Str.strip (user_answer f)) context = true ->
  (answer_naturalness f = true
   <-> Str.strip (user_answer f) = Str.strip answer) ->
  validate (context, question, answer) f
  = Errors [] [Msg.precise_implies_adequate]
  /\ exists w',
       submit_qa uuid4 elapsed (context, question, answer) f w = Ok w'
       /\ session_errors (session w') = Errors [] [Msg.precise_implies_adequate].
Proof.
  intros Hs Hp Ha Hq Hans Hqn Hin Han.
  assert (validate (context, question, answer) f
          = Errors [] [Msg.precise_implies_adequate]) as Hv.
  { unfold validate.
    rewrite Hp, Ha, Hin, (nonblank_length _ Hq), (nonblank_length _ Hans). cbn.
    destruct (String.eqb_spec (Str.strip (user_question f)) (Str.strip question)) as [Eq|Nq];
      destruct (String.eqb_spec (Str.strip (user_answer f)) (Str.strip answer)) as [Ea|Na];
      destruct (question_naturalness f), (answer_naturalness f); cbn;
      first [done | intuition congruence]. }
  split; [done|].
  destruct (submit_qa_rejected uuid4 elapsed context question answer f w Hs)
    as (s' & E & _ & _ & _ & _ & _ & Er); [by rewrite Hv|].
  exists (World s' (disk w)). split; [done|]. cbn. by rewrite Er.
Qed.

Lemma precise_without_adequate_witness :
  answer_precision Scenario.precise_not_adequate = true
  /\ answer_adequacy Scenario.precise_not_adequate = false
  /\ validate Scenario.cat_sat Scenario.precise_not_adequate
     = Errors [] [Msg.precise_implies_adequate]
  /\ exists w',
       submit_qa Scenario.no_ids 2%Z Scenario.cat_sat Scenario.precise_not_adequate
                 Scenario.cat_sat_login = Ok w'
       /\ session_errors (session w') = Errors [] [Msg.precise_implies_adequate].
Proof.
  split; [reflexivity|]. split; [reflexivity|].
  apply (precise_without_adequate_is_the_only_violation
           Scenario.no_ids 2%Z "The cat sat." "Who sat?" "cat"
           Scenario.precise_not_adequate Scenario.cat_sat_login).
  all: try reflexivity; try discriminate; split; reflexivity.
Defined.

(** When the reviewer's answer text has no surrounding white space, an
    accepted answer is stored as it was checked, so it is in the context. *)
Lemma accepted_trimmed_answer_is_stored context question answer (f : form) :
  Str.strip (user_answer f) = user_answer f ->
  all_empty (validate (context, question, answer) f) = true ->
  Str.contains (user_answer f) context = true.
Proof.
  intros <- Hv. by apply (accepted_trimmed_answer_in_context _ question answer).
Qed.

(** C3, evaluated where it fails. On the entry ("The cat", "Who?", "cat")
    the reviewer marks the answer natural and adequate and leaves a space
    after the answer text. The checks run on the trimmed text and pass; the
    row stored by [save_qa_pair] holds the untrimmed text, which does not
    occur in the context, so the offset lookup of the aggregator raises and
    the entry is logged and dropped. *)
Lemma untrimmed_answer_accepted_but_not_in_context :
  validate ("The cat", "Who?", "cat") Scenario.trailing_space = no_errors
  /\ exists w',
       round Scenario.no_ids 0%Z Scenario.trailing_space Scenario.cat_login = Ok w'
       /\ kp_Context <$> kept_pairs (session w') = ["The cat"]
       /\ kp_User_Answer <$> kept_pairs (session w') = ["cat "]
       /\ Str.contains "cat " "The cat" = false
       /\ Str.index "The cat" "cat " = Raise ValueError
       /\ Aggregator.kept_pairs_to_output_log (kept_pairs (session w'))
          = [("The cat", "Who?", "cat ")]
       /\ profile_squad (disk w')
          = Some (SQuAD.Make
                    [SQuAD.Article "Streamlit"
                       [SQuAD.Paragraph [SQuAD.QA "Who?" [SQuAD.Answer "cat" 4] false ""]
                                        "The cat"]]
                    "v2.0").
Proof.
  split; [reflexivity|].
  eexists. split; [vm_compute; reflexivity|].
  repeat split; reflexivity.
Qed.
End ValidatorFacts.

(** ** The shuffler *)

Section ShufflerFacts.



(** The function does no grouping of its own: a list with an entry of
    context "c2" between two entries of context "c1", which no caller
    passes, comes back as it is. *)
Lemma shuffle_qa_data_does_not_regroup :
  shuffle_qa_data "reviewer" Scenario.ungrouped = Scenario.ungrouped
  /\ ~ contexts_contiguous (shuffle_qa_data "reviewer" Scenario.ungrouped).
Proof.
  split; [done|]. intros H.
  specialize (H 0 1 2 ("c1", "q1", "a1") ("c2", "q2", "a2") ("c1", "q3", "a3")).
  discriminate H; (done || lia).
Qed.


End ShufflerFacts.

(** ** Rejected submissions *)

Section Rejection.

Lemma not_all_empty_has_message (e : errors) :
  all_empty e = false -> err_question e ++ err_answer e <> [].
Proof.
  unfold all_empty. destruct e as [[|m ms] [|m' ms']]; cbn; done.
Qed.

(** C9. For every submission of a suitable question that fails validation
    (at least one violation): the callback returns; no file of the profile
    is written; the kept-pairs list, the completed-question set and the
    Unsuitable record are unchanged, and so is everything aggregation
    derives from the kept pairs; the violations are stored for display as
    the two lists of messages, not both empty; and when the entry was the
    one under the cursor, the next page run shows the same entry again, so
    the reviewer can resubmit. *)
Theorem rejected_submission_is_not_persisted
    (uuid4 : nat -> string) (elapsed : seconds)
    (current : item) (f : form) (w : world) :
  question_suitable f = true ->
  all_empty (validate current f) = false ->
  exists w',
    submit_qa uuid4 elapsed current f w = Ok w'
    /\ disk w' = disk w
    /\ kept_pairs (session w') = kept_pairs (session w)
    /\ completed_questions (session w') = completed_questions (session w)
    /\ unsuitable_questions (session w') = unsuitable_questions (session w)
    /\ Aggregator.kept_pairs_to_output uuid4 (kept_pairs (session w'))
       = Aggregator.kept_pairs_to_output uuid4 (kept_pairs (session w))
    /\ session_errors (session w') = validate current f
    /\ err_question (session_errors (session w'))
       ++ err_answer (session_errors (session w')) <> []
    /\ (data (session w) !! index_input (session w) = Some current ->
        ~ marked (session w) (index_input (session w)) ->
        exists w'',
          run_qa_tool w' = Ok (w'', Current current)
          /\ index_input (session w'') = index_input (session w)).
Proof.
  intros Hf Hv. destruct current as [[c q] a].
  destruct (submit_qa_rejected uuid4 elapsed c q a f w Hf Hv)
    as (s' & E & D & I & K & C & U & Er).
  exists (World s' (disk w)). cbn. rewrite K, Er.
  repeat split; try done; [by apply not_all_empty_has_message|].
  intros Hcur Hnm.
  destruct (run_qa_tool_spec (World s' (disk w)))
    as (w'' & v & Erun & _ & _ & _ & _ & _ & _ & Hge & Hmk & Hview); cbn in *.
  { rewrite D, I. apply lookup_lt_Some in Hcur. lia. }
  assert (forall j, marked s' j <-> marked (session w) j) as Hsame.
  { intros j. unfold marked, pair_unsuitable. by rewrite D, C, U. }
  assert (index_input (session w'') = index_input (session w)) as Hidx.
  { destruct (decide (index_input (session w'') = index_input (session w)));
      [done|]. exfalso. apply Hnm, Hsame, Hmk; lia. }
  exists w''. split; [|done]. rewrite Erun. do 2 f_equal.
  destruct v as [|x].
  - destruct Hview as [Hend _]. apply lookup_lt_Some in Hcur.
    rewrite D in Hend. lia.
  - destruct Hview as (Hx & _ & _). rewrite D, Hidx in Hx.
    pose proof (eq_trans (eq_sym Hx) Hcur) as Heq. by injection Heq as ->.
Qed.

Lemma rejected_submission_witness :
  question_suitable Scenario.replaces_with_dog = true
  /\ all_empty (validate Scenario.cat_sat Scenario.replaces_with_dog) = false
  /\ exists w',
       submit_qa Scenario.no_ids 7%Z Scenario.cat_sat Scenario.replaces_with_dog
                 Scenario.cat_sat_login = Ok w'
       /\ disk w' = disk Scenario.cat_sat_login
       /\ kept_pairs (session w') = kept_pairs (session Scenario.cat_sat_login)
       /\ completed_questions (session w')
          = completed_questions (session Scenario.cat_sat_login)
       /\ unsuitable_questions (session w')
          = unsuitable_questions (session Scenario.cat_sat_login)
       /\ Aggregator.kept_pairs_to_output Scenario.no_ids (kept_pairs (session w'))
          = Aggregator.kept_pairs_to_output Scenario.no_ids
              (kept_pairs (session Scenario.cat_sat_login))
       /\ session_errors (session w')
          = validate Scenario.cat_sat Scenario.replaces_with_dog
       /\ err_question (session_errors (session w'))
          ++ err_answer (session_errors (session w')) <> []
       /\ (data (session Scenario.cat_sat_login)
             !! index_input (session Scenario.cat_sat_login)
           = Some Scenario.cat_sat ->
           ~ marked (session Scenario.cat_sat_login)
                    (index_input (session Scenario.cat_sat_login)) ->
           exists w'',
             run_qa_tool w' = Ok (w'', Current Scenario.cat_sat)
             /\ index_input (session w'')
                = index_input (session Scenario.cat_sat_login)).
Proof.
  split; [reflexivity|]. split; [vm_compute; reflexivity|].
  apply (rejected_submission_is_not_persisted Scenario.no_ids 7%Z
           Scenario.cat_sat Scenario.replaces_with_dog Scenario.cat_sat_login).
  - reflexivity.
  - vm_compute. reflexivity.
Defined.

(** The messages of that rejected submission. *)
Example rejected_submission_messages :
  validate Scenario.cat_sat Scenario.replaces_with_dog
  = Errors [] [Msg.not_in_document "dog"; Msg.perfect_but_modified].
Proof. vm_compute. reflexivity. Qed.
End Rejection.

(** ** Keys of the progress tracking *)

Section Tracking.
Variable uuid4 : nat -> string.
Variable elapsed : seconds.

Lemma pair_unsuitable_after_insert (s s' : session_state) c q c' q' :
  unsuitable_questions s'
  = <[c := default [] (unsuitable_questions s !! c) ++ [q]]> (unsuitable_questions s) ->
  pair_unsuitable s' c' q'
  <-> pair_unsuitable s c' q' \/ (c' = c /\ q' = q).
Proof.
  intros Hu. unfold pair_unsuitable. rewrite Hu.
  destruct (decide (c' = c)) as [->|Hne].
  - rewrite lookup_insert_eq. split.
    + intros (qs & [= <-] & [Hin|Hin]%elem_of_app).
      * left. destruct (unsuitable_questions s !! c) as [qs|]; [|by inversion Hin].
        by exists qs.
      * right. by apply list_elem_of_singleton in Hin.
    + intros [(qs & Hqs & Hin)|[_ ->]]; eexists; (split; [done|]).
      * rewrite Hqs. cbn. apply elem_of_app. by left.
      * apply elem_of_app. right. by apply list_elem_of_singleton.
  - rewrite lookup_insert_ne by done. split; [by left|].
    intros [H|[? _]]; done.
Qed.

(** What a submission marks: an accepted Judgement marks every queue
    entry with its question string, under any context; a question marked
    unsuitable marks the entries with that question under that context, and
    leaves the entries under any other context as they were. *)
Lemma submit_qa_marks_by_key (c1 q a1 : string) (f : form) (w : world) :
  exists w',
    submit_qa uuid4 elapsed (c1, q, a1) f w = Ok w'
    /\ (question_suitable f = true ->
        all_empty (validate (c1, q, a1) f) = true ->
        forall j c2 a2,
          data (session w') !! j = Some (c2, q, a2) -> marked (session w') j)
    /\ (question_suitable f = false ->
        (forall j a2,
           data (session w') !! j = Some (c1, q, a2) -> marked (session w') j)
        /\ (forall j c2 a2,
              c2 <> c1 ->
              data (session w') !! j = Some (c2, q, a2) ->
              (marked (session w') j <-> marked (session w) j))).
Proof.
  destruct (question_suitable f) eqn:Hf.
  - destruct (all_empty (validate (c1, q, a1) f)) eqn:Hv.
    + destruct (submit_qa_accepted uuid4 elapsed c1 q a1 f w Hf Hv)
        as (w' & E & D & _ & _ & C & _).
      exists w'. split; [done|]. split; [|done].
      intros _ _ j c2 a2 Hj. exists c2, q, a2. split; [done|].
      left. rewrite C. apply elem_of_union. right. by apply elem_of_singleton.
    + destruct (submit_qa_rejected uuid4 elapsed c1 q a1 f w Hf Hv)
        as (s' & E & _).
      by exists (World s' (disk w)).
  - destruct (submit_qa_unsuitable uuid4 elapsed c1 q a1 f w Hf)
      as (w' & E & D & _ & _ & C & U & _).
    exists w'. split; [done|]. split; [done|]. intros _. split.
    + intros j a2 Hj. exists c1, q, a2. split; [done|]. right.
      apply (pair_unsuitable_after_insert _ _ _ _ _ _ U). by right.
    + intros j c2 a2 Hne Hj.
      assert (data (session w) !! j = Some (c2, q, a2)) as Hj'
        by (by rewrite <- D).
      rewrite (marked_resolved _ _ _ Hj), (marked_resolved _ _ _ Hj').
      rewrite !resolved_spec, C.
      rewrite (pair_unsuitable_after_insert _ _ _ _ _ _ U).
      split; [intros [?|[?|[? _]]] | intros [?|?]]; auto; done.
Qed.

(** The entry a page run shows is one the test of the loop rejected. *)
Lemma shown_entry_not_resolved (w w' : world) (x : item) :
  run_qa_tool w = Ok (w', Current x) ->
  resolved (completed_questions (session w)) (unsuitable_questions (session w)) x
  = false.
Proof.
  unfold run_qa_tool, advance_cursor.
  pose proof (skip_loop_spec (data (session w))
                (resolved (completed_questions (session w))
                          (unsuitable_questions (session w)))
                (index_input (session w)) false) as (_ & _ & _ & Hstop).
  cbn zeta in Hstop.
  destruct (skip_loop _ _ _ _) as [r np]. cbn in *.
  destruct (Nat.eqb r (length (data (session w)))); [done|].
  destruct (data (session w) !! r) as [y|] eqn:Hy; [|done].
  intros [= _ ->]. by apply Hstop.
Qed.

Lemma pair_unsuitable_under (s : session_state) c q :
  pair_unsuitable s c q <-> q ∈ unsuitable_under s c.
Proof.
  unfold pair_unsuitable, unsuitable_under.
  destruct (unsuitable_questions s !! c) as [qs|]; cbn.
  - split; [by intros (qs' & [= <-] & H) | intros H; by exists qs].
  - split; [by intros (qs' & ? & _) | by intros ?%elem_of_nil].
Qed.

(** The cursor passes an index when every entry from the cursor up to it
    is marked. *)
Lemma cursor_passes_marked (w : world) (j : nat) :
  j < length (data (session w)) ->
  index_input (session w) <= j ->
  (forall k, index_input (session w) <= k -> k <= j -> marked (session w) k) ->
  exists w3 v,
    run_qa_tool w = Ok (w3, v) /\ j < index_input (session w3).
Proof.
  intros Hlt Hle Hmarked.
  destruct (run_qa_tool_spec w)
    as (w3 & v & E3 & _ & _ & _ & _ & _ & _ & Hge & _ & Hv); [lia|].
  exists w3, v. split; [done|].
  destruct (decide (j < index_input (session w3))) as [|Hnot]; [done|].
  exfalso. destruct v as [|x].
  - destruct Hv as [Hend _]. lia.
  - destruct Hv as (_ & Hn & _). apply Hn, Hmarked; lia.
Qed.

(** C7 (as amended). Completion tracking is keyed by question text alone:
    once a Judgement for a question is accepted under one context, no page
    run, then or in any later state that kept the completed questions,
    shows an entry with that question string, under whatever context, and
    the next page run moves the cursor past every such entry it reaches:
    the cursor skips it everywhere. Unsuitable tracking is keyed by the
    (context, question) pair: once a question is marked unsuitable under
    one context, no page run, then or in any later state that kept the
    record, shows an entry with that question under that context, and the
    next page run moves the cursor past every such entry it reaches, while
    an entry with the same question under another context, not marked
    before, is still where the cursor stops: the next page run shows it
    when every entry between the cursor and it is marked. *)
Theorem cursor_skips_by_question_when_judged_by_pair_when_unsuitable
    (c1 q a1 : string) (f : form) (w : world) :
  exists w',
    submit_qa uuid4 elapsed (c1, q, a1) f w = Ok w'
    /\ (question_suitable f = true ->
        all_empty (validate (c1, q, a1) f) = true ->
        forall w2 w3 v,
          completed_questions (session w') ⊆ completed_questions (session w2) ->
          run_qa_tool w2 = Ok (w3, v) ->
          forall c2 a2, v <> Current (c2, q, a2))
    /\ (question_suitable f = true ->
        all_empty (validate (c1, q, a1) f) = true ->
        forall j c2 a2,
          data (session w') !! j = Some (c2, q, a2) ->
          index_input (session w') <= j ->
          (forall k, index_input (session w') <= k -> k < j ->
                     marked (session w') k) ->
          exists w3 v,
            run_qa_tool w' = Ok (w3, v) /\ j < index_input (session w3))
    /\ (question_suitable f = false ->
        (forall w2 w3 v,
           unsuitable_under (session w') c1
             `prefix_of` unsuitable_under (session w2) c1 ->
           run_qa_tool w2 = Ok (w3, v) ->
           forall a2, v <> Current (c1, q, a2))
        /\ (forall j a2,
              data (session w') !! j = Some (c1, q, a2) ->
              index_input (session w') <= j ->
              (forall k, index_input (session w') <= k -> k < j ->
                         marked (session w') k) ->
              exists w3 v,
                run_qa_tool w' = Ok (w3, v) /\ j < index_input (session w3))
        /\ (forall j c2 a2,
              c2 <> c1 ->
              data (session w') !! j = Some (c2, q, a2) ->
              ~ marked (session w) j ->
              index_input (session w') <= j ->
              (forall k, index_input (session w') <= k -> k < j ->
                         marked (session w') k) ->
              exists w3,
                run_qa_tool w' = Ok (w3, Current (c2, q, a2))
                /\ index_input (session w3) = j)).
Proof.
  destruct (submit_qa_marks_by_key c1 q a1 f w) as (w' & E & Hjudged & Hunsuitable).
  exists w'. split; [done|]. split; [|split].
  - intros Hf Hv w2 w3 v Hsub Erun c2 a2 ->.
    apply shown_entry_not_resolved in Erun.
    assert (resolved (completed_questions (session w2))
                     (unsuitable_questions (session w2)) (c2, q, a2) = true)
      as Hres; [|congruence].
    apply resolved_spec. left. apply Hsub.
    destruct (submit_qa_accepted uuid4 elapsed c1 q a1 f w Hf Hv)
      as (w1 & E1 & _ & _ & _ & C & _).
    rewrite E in E1. injection E1 as <-. rewrite C.
    apply elem_of_union. right. by apply elem_of_singleton.
  - intros Hf Hv j c2 a2 Hj Hle Hbetween.
    apply cursor_passes_marked;
      [exact (lookup_lt_Some _ _ _ Hj) | done |].
    intros k Hk Hkj. destruct (decide (k = j)) as [->|Hne].
    + by apply (Hjudged Hf Hv j c2 a2).
    + apply Hbetween; lia.
  - intros Hf. destruct (Hunsuitable Hf) as [Hsame Hother].
    destruct (submit_qa_unsuitable uuid4 elapsed c1 q a1 f w Hf)
      as (w1 & E1 & D & I & _ & _ & U & _).
    rewrite E in E1. injection E1 as <-. split; [|split].
    + intros w2 w3 v Hpre Erun a2 ->.
      apply shown_entry_not_resolved in Erun.
      assert (resolved (completed_questions (session w2))
                       (unsuitable_questions (session w2)) (c1, q, a2) = true)
        as Hres; [|congruence].
      apply resolved_spec. right. apply pair_unsuitable_under.
      eapply elem_of_prefix; [|exact Hpre]. apply pair_unsuitable_under.
      apply (pair_unsuitable_after_insert _ _ _ _ _ _ U). by right.
    + intros j a2 Hj Hle Hbetween.
      apply cursor_passes_marked;
        [exact (lookup_lt_Some _ _ _ Hj) | done |].
      intros k Hk Hkj. destruct (decide (k = j)) as [->|Hne].
      * by apply (Hsame j a2).
      * apply Hbetween; lia.
    + intros j c2 a2 Hne Hj Hnm Hle Hbetween.
      assert (~ marked (session w') j) as Hnm'.
      { intros Hm. by apply Hnm, (Hother j c2 a2). }
      assert (j < length (data (session w'))) as Hlt
        by exact (lookup_lt_Some _ _ _ Hj).
      destruct (run_qa_tool_spec w')
        as (w3 & v & E3 & _ & _ & _ & _ & _ & _ & Hge & Hpassed & Hv); [lia|].
      assert (index_input (session w3) = j) as Hland.
      { destruct (Nat.lt_trichotomy (index_input (session w3)) j) as [Hl|[?|Hg]];
          [exfalso | done | exfalso].
        - destruct v as [|x].
          + destruct Hv as [Hend _]. lia.
          + destruct Hv as (_ & Hn & _). apply Hn, Hbetween; lia.
        - apply Hnm', Hpassed; lia. }
      exists w3. split; [|done]. rewrite E3. do 2 f_equal.
      destruct v as [|x].
      -- destruct Hv as [Hend _]. lia.
      -- destruct Hv as (Hx & _). rewrite Hland in Hx.
         pose proof (eq_trans (eq_sym Hx) Hj) as Heq. by injection Heq as ->.
Qed.
End Tracking.

Section TrackingExamples.
Import Scenario.

Lemma cursor_skips_by_question_when_judged_by_pair_when_unsuitable_witness :
  (exists w' w3 v,
     submit_qa no_ids 3%Z ("c1 a1", "q", "a1") accepts_unchanged two_documents
     = Ok w'
     /\ run_qa_tool w' = Ok (w3, v)
     /\ 1 < index_input (session w3)
     /\ v <> Current ("c2 a2", "q", "a2"))
  /\ (exists w' w3,
        submit_qa no_ids 3%Z ("c1 a1", "q", "a1") marks_unsuitable two_documents
        = Ok w'
        /\ run_qa_tool w' = Ok (w3, Current ("c2 a2", "q", "a2"))
        /\ index_input (session w3) = 1).
Proof.
  split.
  - destruct (cursor_skips_by_question_when_judged_by_pair_when_unsuitable
                no_ids 3%Z "c1 a1" "q" "a1" accepts_unchanged two_documents)
      as (w' & E & Hs & Hpass & _).
    destruct (Hpass eq_refl eq_refl 1 "c2 a2" "a2") as (w3 & v & E3 & H3).
    + vm_compute in E. injection E as <-. reflexivity.
    + vm_compute in E. injection E as <-. cbn. lia.
    + vm_compute in E. injection E as <-. intros k Hk Hk1.
      assert (k = 0) as -> by lia.
      eapply marked_resolved; [reflexivity | vm_compute; reflexivity].
    + exists w', w3, v. split; [exact E|]. split; [exact E3|].
      split; [exact H3|].
      apply (Hs eq_refl eq_refl w' w3 v); [done | exact E3].
  - destruct (cursor_skips_by_question_when_judged_by_pair_when_unsuitable
                no_ids 3%Z "c1 a1" "q" "a1" marks_unsuitable two_documents)
      as (w' & E & _ & _ & Hu).
    exists w'. destruct (Hu eq_refl) as (_ & _ & Hother).
    destruct (Hother 1 "c2 a2" "a2") as (w3 & E3 & H3).
    + discriminate.
    + vm_compute in E. injection E as <-. reflexivity.
    + intros Hm. eapply marked_resolved in Hm; [|reflexivity].
      vm_compute in Hm. discriminate.
    + vm_compute in E. injection E as <-. cbn. lia.
    + vm_compute in E. injection E as <-. intros k Hk Hk1.
      assert (k = 0) as -> by lia.
      eapply marked_resolved; [reflexivity | vm_compute; reflexivity].
    + exists w3. by split.
Defined.

(** C7 as the design document words it, refuted for the Unsuitable
    record: after "q" is marked unsuitable under context "c1", the record
    holds "q", and yet the next page run stops on the entry of context "c2"
    with the same question and shows it. *)
Lemma unsuitable_tracking_by_question_alone_counterexample :
  exists w1 w2,
    round no_ids 3%Z marks_unsuitable at_login = Ok w1
    /\ question_unsuitable (session w1) "q"
    /\ run_qa_tool w1 = Ok (w2, Current ("c2", "q", "a2"))
    /\ ~ marked (session w1) 1.
Proof.
  eexists _, _. split; [vm_compute; reflexivity|].
  split; [|split]; [| vm_compute; reflexivity |].
  - exists "c1", ["q"]. split; [vm_compute; reflexivity|].
    by apply list_elem_of_singleton.
  - intros Hm. eapply marked_resolved in Hm; [|reflexivity].
    vm_compute in Hm. discriminate.
Qed.
End TrackingExamples.

(** ** The profile invariant *)

Section Invariant.

Lemma marked_ext (s s' : session_state) j :
  data s' = data s ->
  completed_questions s' = completed_questions s ->
  unsuitable_questions s' = unsuitable_questions s ->
  marked s' j <-> marked s j.
Proof. intros D C U. unfold marked, pair_unsuitable. by rewrite D, C, U. Qed.

(** Marks are never taken back while the two records only grow. *)
Lemma marked_mono (s s' : session_state) j :
  data s' = data s ->
  completed_questions s ⊆ completed_questions s' ->
  (forall c q, pair_unsuitable s c q -> pair_unsuitable s' c q) ->
  marked s j -> marked s' j.
Proof.
  intros D C U (c & q & a & Hj & H). exists c, q, a. rewrite D. split; [done|].
  destruct H as [H|H]; [left; by apply C | right; by apply U].
Qed.

Lemma consistent_login username raw_data :
  consistent (World (load_user_profile_and_dataset username raw_data init_user)
                    init_user).
Proof.
  split; cbn.
  - intros kp Hkp. by inversion Hkp.
  - intros c q [_ (kp & Hkp & _)]. by inversion Hkp.
  - done.
  - by right.
  - lia.
  - lia.
Qed.

Lemma consistent_relogin username raw_data (w : world) :
  consistent w ->
  consistent (World (load_user_profile_and_dataset username raw_data (disk w))
                    (disk w)).
Proof.
  intros [Hjc Huj Hp Hu Hr _].
  assert (unsuitable_questions
            (load_user_profile_and_dataset username raw_data (disk w))
          = unsuitable_questions (session w)) as HU.
  { cbn. destruct Hu as [->|[-> ->]]; [|done].
    unfold update. apply (right_id_L ∅ (∪)). }
  split; cbn [session disk].
  - cbn. rewrite Hp. intros kp Hkp.
    apply elem_of_list_to_set, list_elem_of_fmap. by exists kp.
  - intros c q [(qs & Hqs & Hq) (kp & Hkp & Hc & Hkq)].
    apply (Huj c q). split.
    + exists qs. by rewrite <- HU.
    + exists kp. cbn in Hkp. by rewrite <- Hp.
  - done.
  - rewrite HU. cbn -[load_user_profile_and_dataset]. done.
  - cbn. lia.
  - cbn. lia.
Qed.

(** Moving the cursor or touching the marker keeps the profile consistent. *)
Lemma consistent_transfer (w w' : world) :
  consistent w ->
  kept_pairs (session w') = kept_pairs (session w) ->
  completed_questions (session w') = completed_questions (session w) ->
  unsuitable_questions (session w') = unsuitable_questions (session w) ->
  profile_json (disk w') = profile_json (disk w) ->
  unsuitable_questions_json (disk w') = unsuitable_questions_json (disk w) ->
  index_input (session w') <= length (data (session w')) ->
  (forall j, j < index_input (session w') -> marked (session w') j) ->
  consistent w'.
Proof.
  intros [Hjc Huj Hp Hu Hr _] K C U P UJ R M.
  split; unfold pair_unsuitable, pair_judged; rewrite ?K, ?C, ?U, ?P, ?UJ; done.
Qed.

Lemma consistent_run (w w' : world) v :
  consistent w -> run_qa_tool w = Ok (w', v) -> consistent w'.
Proof.
  intros Hw E.
  destruct (run_qa_tool_spec w (cursor_in_range w Hw))
    as (w1 & v1 & E1 & D & C & U & K & P & UJ & _ & Hm & Hv).
  rewrite E in E1. injection E1 as <- <-.
  apply (consistent_transfer w); try done.
  - rewrite D. destruct v as [|x].
    + destruct Hv as [-> _]. done.
    + destruct Hv as (Hx & _). apply lookup_lt_Some in Hx. lia.
  - intros j Hj. apply (marked_ext _ (session w)); [done..|].
    destruct (decide (j < index_input (session w))).
    + by apply (passed_marked w Hw).
    + apply Hm; lia.
Qed.

(** A submission on an entry that is not marked keeps the profile
    consistent, whichever way it goes. *)
Lemma consistent_submit uuid4 elapsed c q a (f : form) (w w' : world) :
  consistent w ->
  q ∉ completed_questions (session w) ->
  ~ pair_unsuitable (session w) c q ->
  submit_qa uuid4 elapsed (c, q, a) f w = Ok w' ->
  consistent w'.
Proof.
  intros Hw Hnc Hnu E. pose proof Hw as [Hjc Huj Hp Hu Hr Hpm].
  destruct (question_suitable f) eqn:Hf.
  - destruct (all_empty (validate (c, q, a) f)) eqn:Hv.
    + destruct (submit_qa_accepted uuid4 elapsed c q a f w Hf Hv)
        as (w1 & E1 & D & I & K & C & U & P & UJ & _).
      rewrite E in E1. injection E1 as <-.
      split.
      * rewrite K, C. intros kp [Hkp|Hkp]%elem_of_app; apply elem_of_union.
        -- left. by apply Hjc.
        -- right. apply list_elem_of_singleton in Hkp as ->.
           by apply elem_of_singleton.
      * intros c' q' [(qs & Hqs & Hq) (kp & Hkp & Hc & Hkq)].
        rewrite U in Hqs. rewrite K in Hkp.
        apply elem_of_app in Hkp as [Hkp|Hkp].
        -- apply (Huj c' q'). split; [by exists qs | by exists kp].
        -- apply list_elem_of_singleton in Hkp as ->. cbn in Hc, Hkq. subst c' q'.
           apply Hnu. by exists qs.
      * done.
      * by left.
      * rewrite D, I. done.
      * rewrite I. intros j Hj. apply (marked_mono (session w)); [done| |  |by apply Hpm].
        -- rewrite C. apply union_subseteq_l.
        -- intros c' q'. unfold pair_unsuitable. by rewrite U.
    + destruct (submit_qa_rejected uuid4 elapsed c q a f w Hf Hv)
        as (s' & E1 & D & I & K & C & U & _).
      rewrite E in E1. injection E1 as ->.
      apply (consistent_transfer w); cbn; try done.
      * rewrite D, I. done.
      * rewrite I. intros j Hj. apply (marked_ext _ (session w)); [done..|].
        by apply Hpm.
  - destruct (submit_qa_unsuitable uuid4 elapsed c q a f w Hf)
      as (w1 & E1 & D & I & K & C & U & P & UJ & _).
    rewrite E in E1. injection E1 as <-.
    split.
    + rewrite K, C. done.
    + intros c' q' [Hun (kp & Hkp & Hc & Hkq)].
      rewrite K in Hkp.
      apply (pair_unsuitable_after_insert _ _ _ _ _ _ U) in Hun as [Hun|[-> ->]].
      * apply (Huj c' q'). split; [done | by exists kp].
      * apply Hnc. rewrite <- Hkq. by apply Hjc.
    + done.
    + by left.
    + rewrite D, I. done.
    + rewrite I. intros j Hj. apply (marked_mono (session w)); [done| | |by apply Hpm].
      * by rewrite C.
      * intros c' q' H. apply (pair_unsuitable_after_insert _ _ _ _ _ _ U). by left.
Qed.

Lemma consistent_round uuid4 elapsed (f : form) (w w' : world) :
  consistent w -> round uuid4 elapsed f w = Ok w' -> consistent w'.
Proof.
  intros Hw E. unfold round in E.
  destruct (run_qa_tool_spec w (cursor_in_range w Hw))
    as (w1 & v & E1 & D & C & U & K & P & UJ & _ & _ & Hv).
  pose proof (consistent_run w w1 v Hw E1) as Hw1.
  rewrite E1 in E. cbn in E. destruct v as [|[[c q] a]].
  - by injection E as <-.
  - destruct Hv as (Hx & Hnm & _).
    assert (~ (q ∈ completed_questions (session w1)
               \/ pair_unsuitable (session w1) c q)) as Hn.
    { intros Hm. apply Hnm. exists c, q, a. split; [done|].
      unfold pair_unsuitable in *. by rewrite <- C, <- U. }
    apply (consistent_submit uuid4 elapsed c q a f w1 w'); tauto.
Qed.

Lemma reachable_consistent username (w : world) :
  reachable username w -> consistent w.
Proof.
  induction 1 as [raw | w w' v _ IH E | uuid4 elapsed f w w' _ IH E | raw w _ IH].
  - apply consistent_login.
  - by apply (consistent_run w w' v).
  - by apply (consistent_round uuid4 elapsed f w w').
  - by apply consistent_relogin.
Qed.

(** In every reachable state, not only at the head of the queue, a page run
    leaves the cursor on the first index of the whole queue that is not
    marked, or at its end when every index is marked. *)
Lemma cursor_first_unmarked_when_reachable username (w w' : world) v :
  reachable username w ->
  run_qa_tool w = Ok (w', v) ->
  (forall j, j < index_input (session w') -> marked (session w') j)
  /\ match v with
     | Current x =>
         data (session w') !! index_input (session w') = Some x
         /\ ~ marked (session w') (index_input (session w'))
     | EndOfQueue => index_input (session w') = length (data (session w'))
     end.
Proof.
  intros Hw E. pose proof (reachable_consistent _ _ Hw) as Hc.
  pose proof (consistent_run w w' v Hc E) as Hc'.
  split; [apply (passed_marked w' Hc')|].
  destruct (run_qa_tool_spec w (cursor_in_range w Hc))
    as (w1 & v1 & E1 & D & C & U & _ & _ & _ & _ & _ & Hv).
  rewrite E in E1. injection E1 as <- <-.
  destruct v as [|x].
  - destruct Hv as [-> _]. by rewrite D.
  - destruct Hv as (Hx & Hnm & _). rewrite D. split; [done|].
    intros Hm. by apply Hnm, (marked_ext (session w) (session w')).
Qed.

(** C8 (as amended). In every reachable state of a reviewer's profile, no
    (context, question) pair is both in the Unsuitable record and the
    (Context, Question) of a Judgement in the kept-pairs list; logging in,
    running the page and every submission, on either branch, preserve
    this. *)
Theorem no_pair_both_unsuitable_and_judged (username : string) (w : world) :
  reachable username w ->
  forall context question,
    ~ (pair_unsuitable (session w) context question
       /\ pair_judged (session w) context question).
Proof. intros Hw. apply (unsuitable_or_judged w), reachable_consistent with username, Hw. Qed.
End Invariant.

Section InvariantExamples.
Import Scenario.

Lemma no_pair_both_unsuitable_and_judged_witness :
  exists w1 w,
    round no_ids 3%Z marks_unsuitable at_login = Ok w1
    /\ round no_ids 5%Z (accepts "c2") w1 = Ok w
    /\ reachable "u" w
    /\ pair_unsuitable (session w) "c1" "q"
    /\ pair_judged (session w) "c2" "q"
    /\ forall context question,
         ~ (pair_unsuitable (session w) context question
            /\ pair_judged (session w) context question).
Proof.
  eexists _, _. split; [vm_compute; reflexivity|].
  split; [vm_compute; reflexivity|].
  assert (forall w1 w,
            round no_ids 3%Z marks_unsuitable at_login = Ok w1 ->
            round no_ids 5%Z (accepts "c2") w1 = Ok w ->
            reachable "u" w) as Hreach.
  { intros w1 w E1 E.
    apply (reach_submit "u" no_ids 5%Z (accepts "c2") w1 w); [|exact E].
    apply (reach_submit "u" no_ids 3%Z marks_unsuitable at_login w1);
      [apply reach_login | exact E1]. }
  split; [eapply Hreach; vm_compute; reflexivity|].
  split.
  { exists ["q"]. split; [vm_compute; reflexivity|].
    by apply list_elem_of_singleton. }
  split.
  { eexists. split; [apply list_elem_of_singleton; reflexivity|]. by split. }
  apply (no_pair_both_unsuitable_and_judged "u").
  eapply Hreach; vm_compute; reflexivity.
Defined.

(** C8 as the design document words it, refuted: the reviewer marks "q"
    unsuitable under context "c1", is then shown "q" under context "c2" and
    has a Judgement accepted for it. In the state reached, the string "q"
    is in the Unsuitable record and is the Question of a Judgement. *)
Lemma question_both_unsuitable_and_judged_counterexample :
  exists w,
    reachable "u" w
    /\ question_unsuitable (session w) "q"
    /\ question_judged (session w) "q".
Proof.
  eexists. split; [|split].
  - eapply (reach_submit "u" no_ids 5%Z (accepts "c2")).
    + eapply (reach_submit "u" no_ids 3%Z marks_unsuitable).
      * apply (reach_login "u" raw_data).
      * vm_compute. reflexivity.
    + vm_compute. reflexivity.
  - exists "c1", ["q"]. split; [vm_compute; reflexivity|].
    by apply list_elem_of_singleton.
  - eexists. split; [|shelve]. cbn. apply list_elem_of_singleton. reflexivity.
    Unshelve. reflexivity.
Qed.
End InvariantExamples.

(** ** Keys of insertion-ordered dictionaries *)

Section DictKeys.
Context {V : Type}.
Implicit Types (d : Dict.t V) (k : string) (v : V).

Lemma get_is_Some_keys k d : is_Some (Dict.get k d) <-> k ∈ d.*1.
Proof.
  induction d as [|[k' v'] d IH]; simpl.
  - split; [by intros [? ?] | by intros ?%elem_of_nil].
  - rewrite elem_of_cons. case_decide as Hk.
    + split; [by left | by eexists].
    + rewrite IH. split; [by right | by intros [?|?]].
Qed.

Lemma get_None_keys k d : Dict.get k d = None <-> k ∉ d.*1.
Proof. rewrite <- get_is_Some_keys, eq_None_not_Some. done. Qed.

Lemma get_Some_elem k v d : Dict.get k d = Some v -> (k, v) ∈ d.
Proof.
  induction d as [|[k' v'] d IH]; simpl; [done|].
  case_decide as Hk.
  - intros [= ->]. subst. by left.
  - intros H. right. auto.
Qed.

Lemma elem_get_NoDup k v d : NoDup d.*1 -> (k, v) ∈ d -> Dict.get k d = Some v.
Proof.
  induction d as [|[k' v'] d IH]; simpl; [by intros _ ?%elem_of_nil|].
  intros [Hk' Hd]%NoDup_cons [[= -> ->]|Hin]%elem_of_cons.
  - by rewrite decide_True.
  - rewrite decide_False; [by apply IH|].
    intros ->. apply Hk'. apply list_elem_of_fmap. by exists (k', v).
Qed.

(** Assignment keeps the keys of a present key and puts a new key last. *)
Lemma keys_set k v d :
  (Dict.set k v d).*1 = if decide (k ∈ d.*1) then d.*1 else d.*1 ++ [k].
Proof.
  induction d as [|[k' v'] d IH].
  - cbn. by destruct (decide (k ∈ [])) as [?%elem_of_nil|].
  - cbn [Dict.set]. destruct (decide (k = k')) as [->|Hk].
    + cbn. rewrite decide_True; [done | by left].
    + cbn [fmap list_fmap fst]. rewrite IH.
      destruct (decide (k ∈ d.*1)) as [Hin|Hin].
      * rewrite decide_True; [done | by right].
      * rewrite decide_False; [done|]. by intros [?|?]%elem_of_cons.
Qed.

(** A dictionary with distinct keys is its key list with the values looked
    up. *)
Lemma dict_by_keys (f : string -> V) d :
  NoDup d.*1 ->
  (forall k, k ∈ d.*1 -> Dict.get k d = Some (f k)) ->
  d = (fun k => (k, f k)) <$> d.*1.
Proof.
  induction d as [|[k v] d IH]; simpl; [done|].
  intros [Hk Hd]%NoDup_cons Hf. f_equal.
  - specialize (Hf k (list_elem_of_here _ _)). rewrite decide_True in Hf by done.
    by injection Hf as ->.
  - apply IH; [done|]. intros k' Hk'.
    specialize (Hf k' (list_elem_of_further _ _ _ Hk')).
    rewrite decide_False in Hf; [done|]. by intros ->.
Qed.
End DictKeys.

(** ** Distinct elements in order of first appearance *)

Section DistinctInOrder.
Import AggregatorModel.

Lemma elem_of_distinct_in_order x l : x ∈ distinct_in_order l <-> x ∈ l.
Proof.
  induction l as [|y l IH]; simpl; [done|].
  rewrite !elem_of_cons, list_elem_of_filter, IH.
  destruct (decide (x = y)); [by split; left | tauto].
Qed.

Lemma NoDup_distinct_in_order l : NoDup (distinct_in_order l).
Proof.
  induction l as [|y l IH]; simpl; [constructor|].
  apply NoDup_cons. split.
  - rewrite list_elem_of_filter. tauto.
  - by apply NoDup_filter.
Qed.

Lemma distinct_in_order_snoc l x :
  distinct_in_order (l ++ [x]) = seen (distinct_in_order l) x.
Proof.
  unfold seen. induction l as [|y l IH].
  - cbn. by destruct (decide (x ∈ [])) as [?%elem_of_nil|].
  - cbn [app distinct_in_order]. rewrite IH.
    destruct (decide (x ∈ y :: filter (fun z => z <> y) (distinct_in_order l)))
      as [Hin|Hin];
      destruct (decide (x ∈ distinct_in_order l)) as [Hin'|Hin']; try done.
    + apply elem_of_cons in Hin as [->|[_ ?]%list_elem_of_filter]; [|done].
      rewrite filter_app, (filter_cons _ y), decide_False, filter_nil by tauto.
      by rewrite app_nil_r.
    + exfalso. apply Hin. destruct (decide (x = y)) as [->|Hne]; [by left|].
      right. by apply list_elem_of_filter.
    + assert (x <> y) as Hne by (intros ->; apply Hin; by left).
      by rewrite filter_app, (filter_cons _ x), decide_True, filter_nil.
Qed.

Lemma distinct_in_order_app l l' :
  distinct_in_order (l ++ l') = fold_left seen l' (distinct_in_order l).
Proof.
  revert l. induction l' as [|x l' IH]; intros l; simpl.
  - by rewrite app_nil_r.
  - by rewrite (cons_middle x), app_assoc, IH, distinct_in_order_snoc.
Qed.
End DistinctInOrder.

(** ** The aggregator computes the declarative dataset *)

Section AggregatorExact.
Import Aggregator AggregatorSpec AggregatorModel.
Implicit Types (st : locals) (kp : kept_pair).

Lemma add_pairs_eq context pairs st q_a :
  Dict.get context (context_to_question_answers st) = Some q_a ->
  add_pairs context pairs st
  = Ok (Locals (unnatural st) (incorrect st)
          (Dict.set context (fold_left (store context) pairs q_a)
                    (context_to_question_answers st))
          (logged st ++ (pairs ≫= failure context))).
Proof.
  revert st q_a. induction pairs as [|[q a] pairs IH]; intros st q_a Hc.
  - cbn. rewrite (set_get_id _ _ _ Hc), app_nil_r. by destruct st.
  - cbn [add_pairs]. rewrite (add_pair_eq _ _ _ _ _ Hc). cbn [mbind result_bind].
    erewrite IH by (cbn; apply get_set_eq). cbn.
    by rewrite set_set, <- app_assoc.
Qed.

Lemma classify_eq kp u i :
  classify kp u i = (pairs_to_add kp, u ++ unnatural_of [kp], i ++ incorrect_of [kp]).
Proof.
  unfold pairs_to_add, classify, unnatural_of, incorrect_of.
  destruct kp as [c q a qn an ad ac uq ua]. cbn.
  destruct qn, an, ad, ac; cbn; rewrite ?app_nil_r, <- ?app_assoc;
    repeat (rewrite ?decide_True, ?decide_False by (try done; intros [? ?]; done));
    cbn; rewrite ?app_nil_r; done.
Qed.

(** One judgement: its context's dictionary, created if needed, takes the
    pairs one after the other. *)
Lemma step_eq kp st :
  step kp st
  = Ok (Locals (unnatural st ++ unnatural_of [kp])
          (incorrect st ++ incorrect_of [kp])
          (Dict.set (kp_Context kp)
             (fold_left (store (kp_Context kp)) (pairs_to_add kp)
                (default [] (Dict.get (kp_Context kp)
                                      (context_to_question_answers st))))
             (context_to_question_answers st))
          (logged st ++ (pairs_to_add kp ≫= failure (kp_Context kp)))).
Proof.
  unfold step. rewrite classify_eq. unfold Dict.mem.
  destruct (Dict.get (kp_Context kp) (context_to_question_answers st))
    as [q_a|] eqn:Hc.
  - by rewrite (add_pairs_eq _ _ _ q_a).
  - rewrite (add_pairs_eq _ _ _ []) by (cbn; apply get_set_eq). cbn.
    by rewrite set_set.
Qed.

Lemma loop_app kps1 kps2 st :
  loop (kps1 ++ kps2) st = loop kps1 st ≫= loop kps2.
Proof.
  revert st. induction kps1 as [|kp kps1 IH]; intros st; [done|].
  cbn. destruct (step kp st); cbn; [apply IH | done].
Qed.

Lemma context_absent_no_questions c kps :
  c ∉ contexts_of kps -> questions_under c kps = [].
Proof.
  unfold contexts_of, questions_under. rewrite elem_of_distinct_in_order.
  intros Hc. replace (kps ≫= _) with (@nil string); [done|].
  induction kps as [|kp kps IH]; [done|]. cbn.
  rewrite decide_False, <- IH; [done| |].
  - intros Hin. apply Hc. by right.
  - intros Heq. apply Hc. rewrite fmap_cons, Heq. by left.
Qed.

Lemma keys_fold_store context pairs (q_a : Dict.t (list SQuAD.answer)) :
  (fold_left (store context) pairs q_a).*1 = fold_left seen pairs.*1 q_a.*1.
Proof.
  revert q_a. induction pairs as [|qa pairs IH]; intros q_a; [done|].
  cbn. rewrite IH. unfold store. by rewrite keys_set.
Qed.

(** The state of the loop after the judgements [kps]. *)
Lemma loop_exact kps :
  exists d,
    loop kps initial
    = Ok (Locals (unnatural_of kps) (incorrect_of kps) d (failures_of kps))
    /\ d.*1 = contexts_of kps
    /\ (forall c q_a, Dict.get c d = Some q_a -> q_a.*1 = questions_under c kps).
Proof.
  induction kps as [|kp kps IH] using rev_ind.
  - exists []. by repeat split.
  - destruct IH as (d & E & K & Q).
    rewrite loop_app, E. cbn [mbind result_bind loop]. rewrite step_eq. cbn.
    eexists. split; [|split].
    + f_equal. f_equal.
      * unfold unnatural_of. by rewrite bind_app.
      * unfold incorrect_of. by rewrite filter_app, fmap_app.
      * unfold failures_of. rewrite bind_app. cbn. by rewrite app_nil_r.
    + rewrite keys_set, K. unfold contexts_of.
      rewrite fmap_app. cbn [fmap list_fmap].
      by rewrite distinct_in_order_snoc.
    + intros c q_a. destruct (decide (kp_Context kp = c)) as [<-|Hne].
      * rewrite get_set_eq. intros [= <-].
        rewrite keys_fold_store. unfold questions_under at 1.
        rewrite bind_app. cbn. rewrite decide_True, app_nil_r by done.
        rewrite distinct_in_order_app. f_equal.
        destruct (Dict.get (kp_Context kp) d) as [q_a|] eqn:Hc; cbn.
        -- by apply Q.
        -- symmetry. apply context_absent_no_questions.
           rewrite <- K. by apply get_None_keys.
      * rewrite get_set_ne by done. intros Hc. rewrite (Q c q_a Hc).
        unfold questions_under. rewrite bind_app. cbn.
        by rewrite decide_False, !app_nil_r.
Qed.
End AggregatorExact.

Section AggregatorOutput.
Import Aggregator AggregatorSpec AggregatorModel.
Variable uuid4 : nat -> string.

Lemma dataset_keys kps : (dataset kps).*1 = contexts_of kps.
Proof.
  unfold dataset. rewrite <- list_fmap_compose.
  induction (contexts_of kps) as [|c l IH]; [done|]. cbn. by rewrite IH.
Qed.

(** The loop leaves exactly the declarative dataset, the two lists and the
    log of failed lookups. *)
Lemma loop_dataset kps :
  loop kps initial
  = Ok (Locals (unnatural_of kps) (incorrect_of kps) (dataset kps) (failures_of kps)).
Proof.
  destruct (loop_exact kps) as (d & E & K & Q). rewrite E. do 2 f_equal.
  destruct (loop_spec kps initial) as (st & E' & L).
  rewrite E in E'. injection E' as <-. cbn in L.
  etrans; [|unfold dataset; by rewrite <- K].
  apply dict_by_keys.
  - rewrite K. apply NoDup_distinct_in_order.
  - intros c [q_a Hc]%get_is_Some_keys. rewrite Hc. f_equal.
    etrans; [|by rewrite <- (Q c q_a Hc)].
    apply dict_by_keys.
    + rewrite (Q c q_a Hc). apply NoDup_distinct_in_order.
    + intros q [l Hq]%get_is_Some_keys. rewrite Hq. f_equal.
      specialize (L c q). unfold lookup2 in L. rewrite Hc in L. cbn in L.
      rewrite Hq in L. unfold extend in L. cbn in L. unfold entries_under.
      destruct (pairs_under c q kps); [done|]. by injection L.
Qed.

Lemma kept_pairs_to_output_exact kps :
  kept_pairs_to_output uuid4 kps
  = Ok (to_squad uuid4 (dataset kps), unnatural_of kps, incorrect_of kps).
Proof. unfold kept_pairs_to_output. by rewrite loop_dataset. Qed.

Lemma paragraphs_of_to_squad d :
  paragraphs_of (to_squad uuid4 d) = build_paragraphs uuid4 0 d.
Proof. unfold paragraphs_of, to_squad. cbn. by rewrite app_nil_r. Qed.

Lemma build_qas_questions k (q_a : Dict.t (list SQuAD.answer)) :
  (fun e => (SQuAD.question e, SQuAD.answers e)) <$> build_qas uuid4 k q_a = q_a.
Proof.
  revert k. induction q_a as [|[q l] q_a IH]; intros k; [done|].
  cbn. by rewrite IH.
Qed.

Lemma build_qas_ids k (q_a : Dict.t (list SQuAD.answer)) :
  SQuAD.id <$> build_qas uuid4 k q_a = fresh_id uuid4 <$> seq k (length q_a).
Proof.
  revert k. induction q_a as [|[q l] q_a IH]; intros k; [done|].
  cbn. by rewrite IH.
Qed.

Lemma build_paragraphs_contexts k (d : Dict.t (Dict.t (list SQuAD.answer))) :
  SQuAD.context <$> build_paragraphs uuid4 k d = d.*1.
Proof.
  revert k. induction d as [|[c q_a] d IH]; intros k; [done|].
  cbn. by rewrite IH.
Qed.

Lemma build_paragraphs_inv k (d : Dict.t (Dict.t (list SQuAD.answer))) p :
  p ∈ build_paragraphs uuid4 k d ->
  exists q_a k',
    (SQuAD.context p, q_a) ∈ d /\ SQuAD.qas p = build_qas uuid4 k' q_a.
Proof.
  revert k. induction d as [|[c q_a] d IH]; intros k; cbn.
  - by intros ?%elem_of_nil.
  - intros [->|Hp]%elem_of_cons.
    + exists q_a, k. split; [by left | done].
    + destruct (IH _ Hp) as (q_a' & k' & Hin & Hq).
      exists q_a', k'. split; [by right | done].
Qed.

Lemma build_paragraphs_ids k (d : Dict.t (Dict.t (list SQuAD.answer))) :
  SQuAD.id <$> (build_paragraphs uuid4 k d ≫= SQuAD.qas)
  = fresh_id uuid4 <$> seq k (length (d ≫= snd)).
Proof.
  revert k. induction d as [|[c q_a] d IH]; intros k; [done|].
  cbn. rewrite fmap_app, IH, build_qas_ids, length_app, seq_app, fmap_app.
  done.
Qed.
End AggregatorOutput.

(** ** What the aggregator guarantees about its output *)

Section AggregatorGuarantees.
Import Aggregator AggregatorSpec AggregatorModel.

Lemma build_paragraphs_grouping uuid4 k (d : Dict.t (Dict.t (list SQuAD.answer))) :
  (fun p => (SQuAD.context p,
             (fun e => (SQuAD.question e, SQuAD.answers e)) <$> SQuAD.qas p))
    <$> build_paragraphs uuid4 k d = d.
Proof.
  revert k. induction d as [|[c q_a] d IH]; intros k; [done|].
  cbn. by rewrite build_qas_questions, IH.
Qed.

Lemma grouping_of_to_squad uuid4 (d : Dict.t (Dict.t (list SQuAD.answer))) :
  grouping_of (to_squad uuid4 d) = d.
Proof.
  unfold grouping_of. rewrite paragraphs_of_to_squad.
  apply build_paragraphs_grouping.
Qed.

Lemma build_paragraphs_possible uuid4 k (d : Dict.t (Dict.t (list SQuAD.answer))) p e :
  p ∈ build_paragraphs uuid4 k d -> e ∈ SQuAD.qas p ->
  SQuAD.is_impossible e = false.
Proof.
  intros (q_a & k' & _ & ->)%build_paragraphs_inv.
  revert k'. induction q_a as [|[q l] q_a IH]; intros k'; cbn.
  - by intros ?%elem_of_nil.
  - intros [->|He]%elem_of_cons; [done | by apply (IH (S k'))].
Qed.

(** X1. [kept_pairs_to_output] returns, and its SQuAD value is one article
    titled "Streamlit" of version "v2.0" that holds the judgements grouped
    by context and then by question, both in order of first appearance:
    read back paragraph by paragraph and question entry by question entry,
    it lists for every distinct context, and under it for every distinct
    question added, the entries of the added pairs whose answer was found
    in the context, in the order the pairs were added; every question entry
    is marked as possible. *)
Theorem verified_dataset_is_grouped_by_context_then_question
    (uuid4 : nat -> string) (kept_pairs : list kept_pair) :
  exists squad unnatural incorrect,
    kept_pairs_to_output uuid4 kept_pairs = Ok (squad, unnatural, incorrect)
    /\ grouping_of squad
       = (fun c => (c, (fun q => (q, entries_under c q kept_pairs))
                       <$> questions_under c kept_pairs))
           <$> contexts_of kept_pairs
    /\ SQuAD.title <$> SQuAD.data squad = ["Streamlit"]
    /\ SQuAD.version squad = "v2.0"
    /\ forall p e,
         p ∈ paragraphs_of squad -> e ∈ SQuAD.qas p ->
         SQuAD.is_impossible e = false.
Proof.
  eexists _, _, _. split; [apply kept_pairs_to_output_exact|].
  split; [apply grouping_of_to_squad|]. split; [done|]. split; [done|].
  intros p e. rewrite paragraphs_of_to_squad. apply build_paragraphs_possible.
Qed.

(** C2. For every Judgement the aggregator processes, after whatever
    Judgements came before it: [kept_pairs_to_output] returns on the history
    with it as on the history without it, and in its output the pairs the
    Judgement added are the user pair and then, if and only if the original
    question was natural and the original answer was natural and (adequate
    or correct), the original (question, answer) pair, as a second,
    independent entry under the same context; each added pair is an entry
    under the context and its question when its offset is found. Otherwise
    the unnatural list has grown by the original question when it was not
    natural, then by the original answer when it was not natural, and the
    incorrect list by the pair when the answer was neither adequate nor
    correct. *)
Theorem original_pair_in_output_iff_natural_and_adequate_or_correct
    (uuid4 : nat -> string) (before : list kept_pair) (kp : kept_pair) :
  let question := kp_Question kp in
  let answer := kp_Answer kp in
  let user_pair := (kp_User_Query kp, kp_User_Answer kp) in
  let added := if decide (original_kept kp)
               then [user_pair; (question, answer)] else [user_pair] in
  exists squad unnatural incorrect squad' unnatural' incorrect',
    kept_pairs_to_output uuid4 before = Ok (squad, unnatural, incorrect)
    /\ kept_pairs_to_output uuid4 (before ++ [kp])
       = Ok (squad', unnatural', incorrect')
    /\ (forall c q,
          lookup2 c q (grouping_of squad')
          = extend c (lookup2 c q (grouping_of squad))
                   (landing (kp_Context kp) c q added))
    /\ unnatural'
       = unnatural
         ++ (if decide (original_kept kp) then []
             else (if kp_Original_Question_Naturalness kp then [] else [question])
                  ++ (if kp_Original_Answer_Naturalness kp then [] else [answer]))
    /\ incorrect'
       = incorrect
         ++ (if decide (original_kept kp) then []
             else if kp_Original_Answer_Adequacy kp
                     || kp_Original_Answer_Correctness kp
                  then [] else [(question, answer)]).
Proof.
  cbn zeta. unfold kept_pairs_to_output.
  rewrite loop_app, (loop_dataset before). cbn [mbind result_bind loop].
  destruct (step_keeps_original_iff kp
              (Locals (unnatural_of before) (incorrect_of before)
                      (dataset before) (failures_of before)))
    as (st' & -> & Hkept & Hnot & L & U & I).
  cbn [mbind result_bind unnatural incorrect context_to_question_answers] in *.
  eexists _, _, _, _, _, _. split; [done|]. split; [done|].
  rewrite !grouping_of_to_squad. split; [|by split].
  intros c q. rewrite L. f_equal. f_equal.
  case_decide as Hk; [by apply Hkept | by apply Hnot].
Qed.

(** X2. The unnatural list holds, judgement by judgement, the original
    question when it was not marked natural and then the original answer
    when it was not marked natural; the incorrect list holds the (question,
    answer) pairs of exactly the judgements whose answer was marked neither
    adequate nor correct, in the order of the judgements. *)
Theorem unnatural_and_incorrect_lists_exact
    (uuid4 : nat -> string) (kept_pairs : list kept_pair) :
  exists squad,
    kept_pairs_to_output uuid4 kept_pairs
    = Ok (squad, unnatural_of kept_pairs, incorrect_of kept_pairs).
Proof. eexists. apply kept_pairs_to_output_exact. Qed.

(** X3. The triples logged by the handler of the [try] are exactly the
    added pairs whose answer does not occur in the context, in the order
    the loops meet them. *)
Theorem logged_failures_exact (kept_pairs : list kept_pair) :
  kept_pairs_to_output_log kept_pairs = failures_of kept_pairs.
Proof. unfold kept_pairs_to_output_log. by rewrite loop_dataset. Qed.

Lemma keys_of_pairs {V} (g : string -> V) (l : list string) :
  ((fun k => (k, g k)) <$> l).*1 = l.
Proof. induction l as [|k l IH]; [done|]. cbn. by rewrite IH. Qed.

Lemma dataset_entry c q_a q l kps :
  (c, q_a) ∈ dataset kps -> (q, l) ∈ q_a ->
  c ∈ contexts_of kps /\ q ∈ questions_under c kps /\ l = entries_under c q kps.
Proof.
  unfold dataset. intros (c' & [= -> ->] & Hc)%list_elem_of_fmap.
  intros (q' & [= -> ->] & Hq)%list_elem_of_fmap. done.
Qed.

Lemma output_entry uuid4 kps p e :
  p ∈ paragraphs_of (to_squad uuid4 (dataset kps)) -> e ∈ SQuAD.qas p ->
  SQuAD.context p ∈ contexts_of kps
  /\ SQuAD.question e ∈ questions_under (SQuAD.context p) kps
  /\ SQuAD.answers e = entries_under (SQuAD.context p) (SQuAD.question e) kps.
Proof.
  rewrite paragraphs_of_to_squad.
  intros (q_a & k' & Hc & ->)%build_paragraphs_inv He.
  apply (dataset_entry _ q_a); [done|].
  rewrite <- (build_qas_questions uuid4 k' q_a).
  apply list_elem_of_fmap. by exists e.
Qed.

(** X4. Every answer entry of the output occurs in the context of its
    paragraph at the recorded offset, and that offset is the first
    occurrence of the text. *)
Theorem answer_offsets_are_first_occurrences
    (uuid4 : nat -> string) (kept_pairs : list kept_pair) :
  exists squad unnatural incorrect,
    kept_pairs_to_output uuid4 kept_pairs = Ok (squad, unnatural, incorrect)
    /\ forall p e ans,
         p ∈ paragraphs_of squad -> e ∈ SQuAD.qas p -> ans ∈ SQuAD.answers e ->
         Str.find (SQuAD.context p) (SQuAD.text ans) = Some (SQuAD.answer_start ans)
         /\ exists pre post,
              SQuAD.context p = pre +:+ SQuAD.text ans +:+ post
              /\ String.length pre = SQuAD.answer_start ans.
Proof.
  eexists _, _, _. split; [apply kept_pairs_to_output_exact|].
  intros p e ans Hp He Hans.
  destruct (output_entry _ _ _ _ Hp He) as (_ & _ & Hl).
  rewrite Hl in Hans. unfold entries_under in Hans.
  apply list_elem_of_bind in Hans as (qa & Hans & _).
  unfold found_entry in Hans.
  destruct (Str.find (SQuAD.context p) qa.2) as [i|] eqn:Hf;
    [|by apply elem_of_nil in Hans].
  apply list_elem_of_singleton in Hans as ->. cbn.
  split; [done|]. by apply find_Some.
Qed.

(** X5. The output has one paragraph per distinct context, in the order in
    which the contexts first appear among the judgements, and each
    paragraph has one question entry per distinct question added under its
    context, in the order in which they first appear; no context and no
    question of a paragraph is repeated. *)
Theorem one_paragraph_per_context_one_entry_per_question
    (uuid4 : nat -> string) (kept_pairs : list kept_pair) :
  exists squad unnatural incorrect,
    kept_pairs_to_output uuid4 kept_pairs = Ok (squad, unnatural, incorrect)
    /\ SQuAD.context <$> paragraphs_of squad = contexts_of kept_pairs
    /\ NoDup (SQuAD.context <$> paragraphs_of squad)
    /\ forall p,
         p ∈ paragraphs_of squad ->
         SQuAD.question <$> SQuAD.qas p
         = questions_under (SQuAD.context p) kept_pairs
         /\ NoDup (SQuAD.question <$> SQuAD.qas p).
Proof.
  eexists _, _, _. split; [apply kept_pairs_to_output_exact|].
  rewrite paragraphs_of_to_squad, build_paragraphs_contexts, dataset_keys.
  split; [done|]. split; [apply NoDup_distinct_in_order|].
  intros p (q_a & k' & Hc & Hq)%build_paragraphs_inv.
  assert (SQuAD.question <$> SQuAD.qas p
          = questions_under (SQuAD.context p) kept_pairs) as ->.
  { rewrite Hq.
    transitivity (((fun e => (SQuAD.question e, SQuAD.answers e))
                     <$> build_qas uuid4 k' q_a).*1).
    { by rewrite <- list_fmap_compose. }
    rewrite build_qas_questions.
    unfold dataset in Hc. apply list_elem_of_fmap in Hc as (c & [= -> ->] & _).
    apply keys_of_pairs. }
  split; [done | apply NoDup_distinct_in_order].
Qed.
End AggregatorGuarantees.

Section AggregatorHistory.
Import Aggregator AggregatorSpec AggregatorModel.

Lemma elem_of_pairs_under c q kps qa :
  qa ∈ pairs_under c q kps
  <-> exists kp, kp ∈ kps /\ kp_Context kp = c /\ qa ∈ pairs_to_add kp /\ qa.1 = q.
Proof.
  unfold pairs_under, landing. rewrite list_elem_of_bind. split.
  - intros (kp & Hqa & Hkp). case_decide as Hc; [|by apply elem_of_nil in Hqa].
    apply list_elem_of_filter in Hqa as [Hq Hqa]. by exists kp.
  - intros (kp & Hkp & Hc & Hqa & Hq). exists kp. split; [|done].
    rewrite decide_True by done. by apply list_elem_of_filter.
Qed.

Lemma elem_of_questions_under c q kps :
  q ∈ questions_under c kps <-> exists qa, qa ∈ pairs_under c q kps.
Proof.
  unfold questions_under. rewrite elem_of_distinct_in_order, list_elem_of_bind.
  split.
  - intros (kp & Hq & Hkp). case_decide as Hc; [|by apply elem_of_nil in Hq].
    apply list_elem_of_fmap in Hq as (qa & -> & Hqa).
    exists qa. apply elem_of_pairs_under. by exists kp.
  - intros (qa & (kp & Hkp & Hc & Hqa & Hq)%elem_of_pairs_under).
    exists kp. split; [|done]. rewrite decide_True by done.
    apply list_elem_of_fmap. by exists qa.
Qed.

Lemma lookup2_dataset c q kps :
  lookup2 c q (dataset kps) = extend c None (pairs_under c q kps).
Proof.
  destruct (loop_spec kps initial) as (st & E & L).
  rewrite loop_dataset in E. injection E as <-. apply L.
Qed.

(** X6. No added pair is lost silently, and none is both stored and
    logged: for every judgement and every pair it adds, either the answer
    occurs in the context, and then the pair has an entry, with the offset
    of the first occurrence, under the judgement's context and the pair's
    question, and its triple is not handed to the logger; or the answer
    does not occur, and then the triple is handed to the logger and no
    entry under that context has the answer as its text. *)
Theorem every_added_pair_is_stored_or_logged
    (uuid4 : nat -> string) (kept_pairs : list kept_pair)
    (kp : kept_pair) (q a : string) :
  kp ∈ kept_pairs ->
  (q, a) ∈ pairs_to_add kp ->
  exists squad unnatural incorrect,
    kept_pairs_to_output uuid4 kept_pairs = Ok (squad, unnatural, incorrect)
    /\ match Str.find (kp_Context kp) a with
       | Some start =>
           (exists p e,
              p ∈ paragraphs_of squad
              /\ SQuAD.context p = kp_Context kp
              /\ e ∈ SQuAD.qas p
              /\ SQuAD.question e = q
              /\ SQuAD.Answer a start ∈ SQuAD.answers e)
           /\ (kp_Context kp, q, a) ∉ kept_pairs_to_output_log kept_pairs
       | None =>
           (kp_Context kp, q, a) ∈ kept_pairs_to_output_log kept_pairs
           /\ forall p e ans,
                p ∈ paragraphs_of squad ->
                SQuAD.context p = kp_Context kp ->
                e ∈ SQuAD.qas p ->
                ans ∈ SQuAD.answers e ->
                SQuAD.text ans <> a
       end.
Proof.
  intros Hkp Hqa. eexists _, _, _. split; [apply kept_pairs_to_output_exact|].
  assert ((q, a) ∈ pairs_under (kp_Context kp) q kept_pairs) as Hin
    by (apply elem_of_pairs_under; by exists kp).
  unfold kept_pairs_to_output_log. rewrite loop_dataset. cbn [logged].
  destruct (Str.find (kp_Context kp) a) as [start|] eqn:Hf.
  - split.
    + destruct (to_squad_elem uuid4 (dataset kept_pairs) (kp_Context kp) q
                  (entries_under (kp_Context kp) q kept_pairs))
        as (p & e & Hp & Hc & He & Hq & Hl).
      { rewrite lookup2_dataset. unfold extend, entries_under.
        by destruct (pairs_under (kp_Context kp) q kept_pairs);
          [apply elem_of_nil in Hin|]. }
      exists p, e. repeat split; try done.
      rewrite Hl. apply list_elem_of_bind. exists (q, a). split; [|done].
      unfold found_entry. cbn. rewrite Hf. by apply list_elem_of_singleton.
    + unfold failures_of.
      intros (kp' & (qa' & Ht & _)%list_elem_of_bind & _)%list_elem_of_bind.
      destruct (Str.find (kp_Context kp') qa'.2) eqn:Hf';
        [by apply elem_of_nil in Ht|].
      apply list_elem_of_singleton in Ht. injection Ht as Hc _ Ha.
      rewrite <- Hc, <- Ha in Hf'. congruence.
  - split.
    + unfold failures_of.
      apply list_elem_of_bind. exists kp. split; [|done].
      apply list_elem_of_bind. exists (q, a). split; [|done].
      cbn. rewrite Hf. by apply list_elem_of_singleton.
    + intros p e ans Hp Hc He Hans Ht.
      destruct (output_entry _ _ _ _ Hp He) as (_ & _ & Hl).
      rewrite Hl in Hans. unfold entries_under in Hans.
      apply list_elem_of_bind in Hans as (qa & Hans & _).
      unfold found_entry in Hans. rewrite Hc in Hans.
      destruct (Str.find (kp_Context kp) qa.2) as [i|] eqn:Hf';
        [|by apply elem_of_nil in Hans].
      apply list_elem_of_singleton in Hans as ->. cbn in Ht.
      rewrite Ht in Hf'. congruence.
Qed.

Lemma every_added_pair_is_stored_or_logged_witness :
  (exists squad unnatural incorrect,
     kept_pairs_to_output Scenario.no_ids [Scenario.unchanged_judgement]
     = Ok (squad, unnatural, incorrect)
     /\ match Str.find (kp_Context Scenario.unchanged_judgement) "cat" with
        | Some start =>
            (exists p e,
               p ∈ paragraphs_of squad
               /\ SQuAD.context p = kp_Context Scenario.unchanged_judgement
               /\ e ∈ SQuAD.qas p
               /\ SQuAD.question e = "Who sat?"
               /\ SQuAD.Answer "cat" start ∈ SQuAD.answers e)
            /\ (kp_Context Scenario.unchanged_judgement, "Who sat?", "cat")
               ∉ kept_pairs_to_output_log [Scenario.unchanged_judgement]
        | None =>
            (kp_Context Scenario.unchanged_judgement, "Who sat?", "cat")
            ∈ kept_pairs_to_output_log [Scenario.unchanged_judgement]
            /\ forall p e ans,
                 p ∈ paragraphs_of squad ->
                 SQuAD.context p = kp_Context Scenario.unchanged_judgement ->
                 e ∈ SQuAD.qas p ->
                 ans ∈ SQuAD.answers e ->
                 SQuAD.text ans <> "cat"
        end)
  /\ (exists squad unnatural incorrect,
        kept_pairs_to_output Scenario.no_ids Scenario.failing_judgements
        = Ok (squad, unnatural, incorrect)
        /\ match Str.find "The cat" "sat" with
           | Some start =>
               (exists p e,
                  p ∈ paragraphs_of squad
                  /\ SQuAD.context p = "The cat"
                  /\ e ∈ SQuAD.qas p
                  /\ SQuAD.question e = "Who sat?"
                  /\ SQuAD.Answer "sat" start ∈ SQuAD.answers e)
               /\ ("The cat", "Who sat?", "sat")
                  ∉ kept_pairs_to_output_log Scenario.failing_judgements
           | None =>
               ("The cat", "Who sat?", "sat")
               ∈ kept_pairs_to_output_log Scenario.failing_judgements
               /\ forall p e ans,
                    p ∈ paragraphs_of squad ->
                    SQuAD.context p = "The cat" ->
                    e ∈ SQuAD.qas p ->
                    ans ∈ SQuAD.answers e ->
                    SQuAD.text ans <> "sat"
           end).
Proof.
  split.
  - apply (every_added_pair_is_stored_or_logged
             Scenario.no_ids [Scenario.unchanged_judgement]
             Scenario.unchanged_judgement "Who sat?" "cat"); by left.
  - apply (every_added_pair_is_stored_or_logged
             Scenario.no_ids Scenario.failing_judgements
             (KeptPair "The cat" "Who sat?" "dog" true true true true
                       "Who sat?" "sat") "Who sat?" "sat").
    + right. by left.
    + by left.
Defined.

(** X7. The identifiers of the question entries, read in output order, are
    the first, second, third, ... value drawn from [uuid.uuid4()], each with
    its dashes removed: one draw per question entry, and as many question
    entries as there are distinct questions under the distinct contexts. *)
Theorem question_ids_are_the_successive_draws
    (uuid4 : nat -> string) (kept_pairs : list kept_pair) :
  exists squad unnatural incorrect,
    kept_pairs_to_output uuid4 kept_pairs = Ok (squad, unnatural, incorrect)
    /\ let entries := paragraphs_of squad ≫= SQuAD.qas in
       SQuAD.id <$> entries
       = (fun k => Str.remove "-"%char (uuid4 k)) <$> seq 0 (length entries)
       /\ length entries
          = length (c ← contexts_of kept_pairs; questions_under c kept_pairs).
Proof.
  eexists _, _, _. split; [apply kept_pairs_to_output_exact|]. cbn zeta.
  rewrite paragraphs_of_to_squad.
  pose proof (build_paragraphs_ids uuid4 0 (dataset kept_pairs)) as Hids.
  pose proof (f_equal length Hids) as Hlen.
  rewrite !length_fmap, length_seq in Hlen.
  rewrite Hlen. split; [exact Hids|].
  unfold dataset. induction (contexts_of kept_pairs) as [|c l IH]; [done|].
  cbn. rewrite !length_app, IH. by rewrite length_fmap.
Qed.

Lemma seen_prefix ks l : ks `prefix_of` fold_left seen l ks.
Proof.
  revert ks. induction l as [|x l IH]; intros ks; [done|].
  cbn. etrans; [|apply IH]. unfold seen. case_decide; [done|].
  by apply prefix_app_r.
Qed.

(** X8. Aggregation only ever extends its results when judgements are
    appended to the history: the unnatural list, the incorrect list and the
    list of paragraph contexts of the shorter history are prefixes of those
    of the longer one, and every question entry of the shorter history is
    found, under the same context and question, with a list of answers that
    extends its own. *)
Theorem aggregation_of_longer_history_extends
    (uuid4 : nat -> string) (kept_pairs more : list kept_pair) :
  exists squad1 unnatural1 incorrect1 squad2 unnatural2 incorrect2,
    kept_pairs_to_output uuid4 kept_pairs = Ok (squad1, unnatural1, incorrect1)
    /\ kept_pairs_to_output uuid4 (kept_pairs ++ more)
       = Ok (squad2, unnatural2, incorrect2)
    /\ unnatural1 `prefix_of` unnatural2
    /\ incorrect1 `prefix_of` incorrect2
    /\ (SQuAD.context <$> paragraphs_of squad1)
         `prefix_of` (SQuAD.context <$> paragraphs_of squad2)
    /\ forall p1 e1,
         p1 ∈ paragraphs_of squad1 -> e1 ∈ SQuAD.qas p1 ->
         exists p2 e2,
           p2 ∈ paragraphs_of squad2
           /\ SQuAD.context p2 = SQuAD.context p1
           /\ e2 ∈ SQuAD.qas p2
           /\ SQuAD.question e2 = SQuAD.question e1
           /\ SQuAD.answers e1 `prefix_of` SQuAD.answers e2.
Proof.
  eexists _, _, _, _, _, _.
  split; [apply kept_pairs_to_output_exact|].
  split; [apply kept_pairs_to_output_exact|].
  split; [|split; [|split]].
  - unfold unnatural_of. rewrite bind_app. by apply prefix_app_r.
  - unfold incorrect_of. rewrite filter_app, fmap_app. by apply prefix_app_r.
  - rewrite !paragraphs_of_to_squad, !build_paragraphs_contexts, !dataset_keys.
    unfold contexts_of. rewrite fmap_app, distinct_in_order_app.
    apply seen_prefix.
  - intros p1 e1 Hp He.
    destruct (output_entry _ _ _ _ Hp He) as (_ & Hq & Hl).
    apply elem_of_questions_under in Hq as [qa Hqa].
    assert (pairs_under (SQuAD.context p1) (SQuAD.question e1) (kept_pairs ++ more)
            = pairs_under (SQuAD.context p1) (SQuAD.question e1) kept_pairs
              ++ pairs_under (SQuAD.context p1) (SQuAD.question e1) more) as Happ
      by (unfold pairs_under; by rewrite bind_app).
    destruct (to_squad_elem uuid4 (dataset (kept_pairs ++ more))
                (SQuAD.context p1) (SQuAD.question e1)
                (entries_under (SQuAD.context p1) (SQuAD.question e1)
                               (kept_pairs ++ more)))
      as (p2 & e2 & Hp2 & Hc2 & He2 & Hq2 & Hl2).
    { rewrite lookup2_dataset, Happ. unfold extend, entries_under. rewrite Happ.
      by destruct (pairs_under _ _ kept_pairs); [apply elem_of_nil in Hqa|]. }
    exists p2, e2. repeat split; try done.
    rewrite Hl, Hl2. unfold entries_under. rewrite Happ, bind_app.
    by apply prefix_app_r.
Qed.
End AggregatorHistory.

(** ** The validator's acceptance criterion *)

Section ValidatorCriterion.

Section Messages.
Variables (context question answer : string) (f : form).

(** The two lists as the checks build them, one segment per rule. *)
Lemma err_question_eq :
  err_question (validate (context, question, answer) f)
  = (if Nat.eqb (String.length (Str.strip (user_question f))) 0
     then [Msg.blank_question] else [])
    ++ (if negb (String.eqb (Str.strip (user_question f)) (Str.strip question))
           && question_naturalness f
        then [Msg.natural_but_modified] else [])
    ++ (if String.eqb (Str.strip (user_question f)) (Str.strip question)
           && negb (question_naturalness f)
        then [Msg.unnatural_but_unmodified] else []).
Proof.
  unfold validate. cbn [err_question].
  by destruct (Nat.eqb _ 0), (String.eqb _ (Str.strip question)),
    (question_naturalness f).
Qed.

Lemma err_answer_eq :
  err_answer (validate (context, question, answer) f)
  = (if Nat.eqb (String.length (Str.strip (user_answer f))) 0
     then [Msg.blank_answer] else [])
    ++ (if negb (Str.contains (Str.strip (user_answer f)) context)
        then [Msg.not_in_document (Str.strip (user_answer f))] else [])
    ++ (if answer_precision f && negb (answer_adequacy f)
        then [Msg.precise_implies_adequate] else [])
    ++ (if negb (String.eqb (Str.strip (user_answer f)) (Str.strip answer))
           && (answer_precision f && answer_naturalness f)
        then [Msg.perfect_but_modified] else [])
    ++ (if String.eqb (Str.strip (user_answer f)) (Str.strip answer)
           && negb (answer_naturalness f)
        then [Msg.answer_unnatural_unmodified] else [])
    ++ (if String.eqb (Str.strip (user_answer f)) (Str.strip answer)
           && (negb (answer_precision f) && negb (answer_adequacy f))
        then [Msg.answer_incorrect_unmodified] else []).
Proof.
  unfold validate. cbn [err_answer].
  by destruct (Nat.eqb (String.length (Str.strip (user_answer f))) 0),
    (Str.contains _ context), (String.eqb _ (Str.strip answer)),
    (answer_naturalness f), (answer_adequacy f), (answer_precision f).
Qed.
End Messages.

Lemma segment_nil {A} (b : bool) (m : A) :
  (if b then [m] else []) = [] <-> b = false.
Proof. by destruct b. Qed.

Lemma elem_of_segment {A} (b : bool) (m x : A) :
  x ∈ (if b then [m] else []) <-> b = true /\ x = m.
Proof.
  destruct b.
  - rewrite list_elem_of_singleton. tauto.
  - split; [by intros ?%elem_of_nil | by intros [? _]].
Qed.

Lemma all_empty_nil (e : errors) :
  all_empty e = true <-> err_question e = [] /\ err_answer e = [].
Proof.
  unfold all_empty. destruct e as [[|m ms] [|m' ms']]; cbn;
    (split; [intros H | intros [H1 H2]]); done.
Qed.

Lemma validate_accepts_iff (current : item) (f : form) :
  all_empty (validate current f) = true <-> acceptable current f.
Proof.
  destruct current as [[context question] answer].
  rewrite all_empty_nil, err_question_eq, err_answer_eq.
  rewrite !app_nil, !segment_nil. unfold acceptable.
  pose proof (length_zero_iff (Str.strip (user_question f))) as Hq.
  pose proof (length_zero_iff (Str.strip (user_answer f))) as Ha.
  destruct (Nat.eqb (String.length (Str.strip (user_question f))) 0);
    destruct (Nat.eqb (String.length (Str.strip (user_answer f))) 0).
  1-3: split; [intros [H1 H2]; intuition discriminate
              | intros (? & ? & _); exfalso; intuition congruence].
  assert (Str.strip (user_question f) <> EmptyString) as Nq
    by (intros E; apply Hq in E; discriminate).
  assert (Str.strip (user_answer f) <> EmptyString) as Na
    by (intros E; apply Ha in E; discriminate).
  clear Hq Ha.
  split.
  - intros [(_ & Q1 & Q2) (_ & A1 & A2 & A3 & A4 & A5)].
    split; [done|]. split; [done|]. split; [|split; [|split; [|split]]].
    + destruct (String.eqb_spec (Str.strip (user_question f)) (Str.strip question));
        destruct (question_naturalness f); cbn in *; intuition congruence.
    + by destruct (Str.contains _ context).
    + destruct (answer_precision f), (answer_adequacy f); cbn in *; congruence.
    + destruct (String.eqb_spec (Str.strip (user_answer f)) (Str.strip answer));
        [|done].
      destruct (answer_naturalness f), (answer_adequacy f), (answer_precision f);
        cbn in *; intuition congruence.
    + destruct (String.eqb_spec (Str.strip (user_answer f)) (Str.strip answer));
        [done|].
      destruct (answer_naturalness f), (answer_precision f);
        cbn in *; intuition congruence.
  - intros (_ & _ & Q & A1 & A2 & A3 & A4).
    split; (split; [done|]).
    + destruct (String.eqb_spec (Str.strip (user_question f)) (Str.strip question));
        destruct (question_naturalness f); cbn; intuition congruence.
    + rewrite A1.
      destruct (String.eqb_spec (Str.strip (user_answer f)) (Str.strip answer));
        destruct (answer_naturalness f), (answer_adequacy f), (answer_precision f);
        cbn; intuition congruence.
Qed.

(** X9. A candidate on a suitable question is accepted exactly when, on the
    trimmed texts: question and answer are non-blank; the question is
    marked natural exactly when it was left as it was; the answer occurs in
    the context; precise is marked only with adequate; an answer left as it
    was is marked natural and adequate or precise; and an edited answer is
    not marked both precise and natural. *)
Theorem validator_accepts_exactly_the_consistent_candidates
    (current : item) (f : form) :
  validate current f = no_errors <-> acceptable current f.
Proof.
  rewrite <- validate_accepts_iff. unfold all_empty, no_errors.
  destruct (validate current f) as [[|m ms] [|m' ms']]; cbn; split; done.
Qed.
Ltac msg_from H :=
  repeat (destruct H as [H|H]);
  destruct H as [? H];
  first [ discriminate H | clear H; tauto ].

Ltac msg_pick :=
  first [ solve [split; [assumption | reflexivity]]
        | solve [left; split; [assumption | reflexivity]]
        | right; msg_pick ].

(** X10. The checks do not short-circuit: each message is in the list
    shown to the reviewer exactly when its own rule is violated, whatever
    the other rules find. *)
Theorem every_violated_rule_is_reported
    (context question answer : string) (f : form) :
  let e := validate (context, question, answer) f in
  let sq := Str.strip (user_question f) in
  let sa := Str.strip (user_answer f) in
  (Msg.blank_question ∈ err_question e <-> sq = EmptyString)
  /\ (Msg.natural_but_modified ∈ err_question e
      <-> sq <> Str.strip question /\ question_naturalness f = true)
  /\ (Msg.unnatural_but_unmodified ∈ err_question e
      <-> sq = Str.strip question /\ question_naturalness f = false)
  /\ (Msg.blank_answer ∈ err_answer e <-> sa = EmptyString)
  /\ (Msg.not_in_document sa ∈ err_answer e <-> Str.contains sa context = false)
  /\ (Msg.precise_implies_adequate ∈ err_answer e
      <-> answer_precision f = true /\ answer_adequacy f = false)
  /\ (Msg.perfect_but_modified ∈ err_answer e
      <-> sa <> Str.strip answer
          /\ answer_precision f = true /\ answer_naturalness f = true)
  /\ (Msg.answer_unnatural_unmodified ∈ err_answer e
      <-> sa = Str.strip answer /\ answer_naturalness f = false)
  /\ (Msg.answer_incorrect_unmodified ∈ err_answer e
      <-> sa = Str.strip answer
          /\ answer_precision f = false /\ answer_adequacy f = false).
Proof.
  cbn zeta. rewrite err_question_eq, err_answer_eq.
  rewrite !elem_of_app, !elem_of_segment.
  rewrite !andb_true_iff, !negb_true_iff, !String.eqb_eq, !String.eqb_neq,
    !length_zero_iff.
  repeat match goal with |- _ /\ _ => split end;
    (split; [intros H; msg_from H | intros H; msg_pick]).
Qed.
End ValidatorCriterion.

(** ** Trimming *)

Section Trimming.

Lemma rstrip_cons c s :
  Str.rstrip (String c s)
  = match Str.rstrip s with
    | EmptyString => if Str.isspace c then EmptyString else String c EmptyString
    | r => String c r
    end.
Proof. done. Qed.

Lemma rstrip_idempotent s : Str.rstrip (Str.rstrip s) = Str.rstrip s.
Proof.
  induction s as [|c s IH]; [done|]. rewrite rstrip_cons.
  destruct (Str.rstrip s) as [|c' r] eqn:Hr.
  - destruct (Str.isspace c) eqn:Hc; [done|]. cbn. by rewrite Hc.
  - by rewrite rstrip_cons, IH.
Qed.

Lemma lstrip_trimmed_left s : trimmed_left (Str.lstrip s).
Proof.
  induction s as [|c s IH]; [done|]. cbn.
  by destruct (Str.isspace c) eqn:Hc.
Qed.

Lemma lstrip_of_trimmed_left s : trimmed_left s -> Str.lstrip s = s.
Proof. destruct s as [|c s]; [done|]. cbn. by intros ->. Qed.

Lemma rstrip_trimmed_left s : trimmed_left s -> trimmed_left (Str.rstrip s).
Proof.
  destruct s as [|c s]; [done|]. rewrite rstrip_cons. cbn. intros Hc.
  destruct (Str.rstrip s); [by rewrite Hc|done].
Qed.

(** Trimming twice is trimming once. *)
Lemma strip_idempotent s : Str.strip (Str.strip s) = Str.strip s.
Proof.
  unfold Str.strip.
  rewrite (lstrip_of_trimmed_left (Str.rstrip (Str.lstrip s)))
    by apply rstrip_trimmed_left, lstrip_trimmed_left.
  apply rstrip_idempotent.
Qed.

(** X11. Validation looks at the trimmed texts only: white space around
    the submitted question and answer, or around the original question and
    answer, changes none of the messages. *)
Theorem validation_ignores_surrounding_white_space
    (context question answer : string) (f : form) :
  validate (context, question, answer) f
  = validate (context, Str.strip question, Str.strip answer)
      (Form (question_suitable f) (question_naturalness f)
            (question_explanation f) (Str.strip (user_question f))
            (answer_naturalness f) (answer_adequacy f) (answer_precision f)
            (answer_explanation f) (Str.strip (user_answer f))).
Proof.
  unfold validate.
  cbn [user_question user_answer question_naturalness answer_naturalness
       answer_adequacy answer_precision].
  by rewrite !strip_idempotent.
Qed.
End Trimming.

(** ** What every stored Judgement has passed *)

Section CheckedHistory.

Lemma validate_form_of c q a (f : form) :
  validate (c, q, a) f
  = validate (c, q, a)
      (form_of (KeptPair c q a (question_naturalness f) (answer_naturalness f)
                         (answer_adequacy f) (answer_precision f)
                         (user_question f) (user_answer f))).
Proof. done. Qed.

(** Whatever holds of each row at the moment it is accepted holds of the
    whole kept-pairs list in every reachable state. *)
Lemma reachable_kept_pairs_Forall (P : kept_pair -> Prop) username (w : world) :
  (forall c q a f,
     all_empty (validate (c, q, a) f) = true ->
     P (KeptPair c q a (question_naturalness f) (answer_naturalness f)
                 (answer_adequacy f) (answer_precision f)
                 (user_question f) (user_answer f))) ->
  reachable username w ->
  Forall P (kept_pairs (session w)).
Proof.
  intros HP Hw.
  induction Hw as [raw | w w' v Hw IH E | uuid4 elapsed f w w' Hw IH E | raw w Hw IH].
  - constructor.
  - pose proof (reachable_consistent _ _ Hw) as Hc.
    destruct (run_qa_tool_spec w (cursor_in_range w Hc))
      as (w1 & v1 & E1 & _ & _ & _ & K & _).
    rewrite E in E1. injection E1 as <- <-. by rewrite K.
  - pose proof (reachable_consistent _ _ Hw) as Hc.
    unfold round in E.
    destruct (run_qa_tool_spec w (cursor_in_range w Hc))
      as (w1 & v & E1 & _ & _ & _ & K & _).
    rewrite E1 in E. cbn in E. destruct v as [|[[c q] a]].
    + injection E as <-. by rewrite K.
    + destruct (question_suitable f) eqn:Hf.
      * destruct (all_empty (validate (c, q, a) f)) eqn:Hv.
        -- destruct (submit_qa_accepted uuid4 elapsed c q a f w1 Hf Hv)
             as (w2 & E2 & _ & _ & K2 & _).
           rewrite E in E2. injection E2 as <-. rewrite K2, K.
           apply Forall_app. split; [done|]. constructor; [|constructor].
           by apply HP.
        -- destruct (submit_qa_rejected uuid4 elapsed c q a f w1 Hf Hv)
             as (s' & E2 & _ & _ & K2 & _).
           rewrite E in E2. injection E2 as ->. cbn. by rewrite K2, K.
      * destruct (submit_qa_unsuitable uuid4 elapsed c q a f w1 Hf)
          as (w2 & E2 & _ & _ & K2 & _).
        rewrite E in E2. injection E2 as <-. by rewrite K2, K.
  - pose proof (reachable_consistent _ _ Hw) as Hc. cbn.
    by rewrite (profile_on_disk w Hc).
Qed.

Lemma reachable_kept_pairs_acceptable username (w : world) :
  reachable username w ->
  Forall (fun kp => acceptable (item_of kp) (form_of kp)) (kept_pairs (session w)).
Proof.
  apply reachable_kept_pairs_Forall. intros c q a f Hv.
  apply validate_accepts_iff. unfold item_of. cbn [kp_Context kp_Question kp_Answer].
  by rewrite <- validate_form_of.
Qed.

(** X12. Every Judgement of every reachable profile state has passed the
    checks: on the trimmed texts, its User Query and User Answer are
    non-blank, the question is marked natural exactly when the User Query is
    the original question, the User Answer occurs in the context, a correct
    answer is also adequate, an answer left as it was is natural and
    adequate or correct, and an edited answer is not both correct and
    natural. *)
Theorem stored_judgements_passed_the_checks (username : string) (w : world) :
  reachable username w ->
  forall kp, kp ∈ kept_pairs (session w) -> acceptable (item_of kp) (form_of kp).
Proof.
  intros Hw. apply Forall_forall.
  by apply (reachable_kept_pairs_acceptable username).
Qed.

Lemma stored_judgements_passed_the_checks_witness :
  exists w,
    round Scenario.no_ids 5%Z (Scenario.accepts "c1") Scenario.at_login = Ok w
    /\ kept_pairs (session w) <> []
    /\ reachable "u" w
    /\ forall kp, kp ∈ kept_pairs (session w) ->
                  acceptable (item_of kp) (form_of kp).
Proof.
  eexists. split; [vm_compute; reflexivity|]. split; [discriminate|].
  assert (forall w, round Scenario.no_ids 5%Z (Scenario.accepts "c1")
                          Scenario.at_login = Ok w -> reachable "u" w) as Hreach.
  { intros w E.
    apply (reach_submit "u" Scenario.no_ids 5%Z (Scenario.accepts "c1")
             Scenario.at_login w); [apply reach_login | exact E]. }
  split; [apply Hreach; vm_compute; reflexivity|].
  apply (stored_judgements_passed_the_checks "u").
  apply Hreach. vm_compute. reflexivity.
Defined.
End CheckedHistory.

(** ** Consequences for the derived lists and files *)

Section DerivedOutputs.
Import Aggregator AggregatorSpec AggregatorModel.

(** X13. In every reachable state the reviewer has replaced what was
    reported as a problem. Per stored Judgement: when the original question
    is marked not natural, the trimmed User Query differs from the trimmed
    original question; when the original answer is marked not natural, or
    neither adequate nor correct, the trimmed User Answer differs from the
    trimmed original answer. So each pair of the aggregated incorrect list
    and each text of the aggregated unnatural list is the original of a
    Judgement that replaced it. *)
Theorem reported_problems_were_replaced
    (uuid4 : nat -> string) (username : string) (w : world) :
  reachable username w ->
  (forall kp,
     kp ∈ kept_pairs (session w) ->
     (kp_Original_Question_Naturalness kp = false ->
      Str.strip (kp_User_Query kp) <> Str.strip (kp_Question kp))
     /\ (kp_Original_Answer_Naturalness kp = false ->
         Str.strip (kp_User_Answer kp) <> Str.strip (kp_Answer kp))
     /\ (kp_Original_Answer_Adequacy kp = false ->
         kp_Original_Answer_Correctness kp = false ->
         Str.strip (kp_User_Answer kp) <> Str.strip (kp_Answer kp)))
  /\ exists squad unnatural incorrect,
       kept_pairs_to_output uuid4 (kept_pairs (session w))
       = Ok (squad, unnatural, incorrect)
       /\ (forall q a,
             (q, a) ∈ incorrect ->
             exists kp,
               kp ∈ kept_pairs (session w)
               /\ kp_Question kp = q /\ kp_Answer kp = a
               /\ Str.strip (kp_User_Answer kp) <> Str.strip a)
       /\ (forall t,
             t ∈ unnatural ->
             exists kp,
               kp ∈ kept_pairs (session w)
               /\ ((kp_Question kp = t
                    /\ Str.strip (kp_User_Query kp) <> Str.strip t)
                   \/ (kp_Answer kp = t
                       /\ Str.strip (kp_User_Answer kp) <> Str.strip t))).
Proof.
  intros Hw.
  pose proof (reachable_kept_pairs_acceptable _ _ Hw) as Hacc.
  rewrite Forall_forall in Hacc.
  assert (forall kp,
            kp ∈ kept_pairs (session w) ->
            (kp_Original_Question_Naturalness kp = false ->
             Str.strip (kp_User_Query kp) <> Str.strip (kp_Question kp))
            /\ (kp_Original_Answer_Naturalness kp = false ->
                Str.strip (kp_User_Answer kp) <> Str.strip (kp_Answer kp))
            /\ (kp_Original_Answer_Adequacy kp = false ->
                kp_Original_Answer_Correctness kp = false ->
                Str.strip (kp_User_Answer kp) <> Str.strip (kp_Answer kp)))
    as Hper.
  { intros kp Hkp.
    destruct (Hacc kp Hkp) as (_ & _ & Hq & _ & _ & Hsame & _).
    cbn in Hq, Hsame. split; [|split].
    - intros Hqn Heq. apply Hq in Heq. congruence.
    - intros Han Heq. destruct (Hsame Heq) as [H _]. congruence.
    - intros Had Hac Heq. destruct (Hsame Heq) as [_ [H|H]]; congruence. }
  split; [exact Hper|].
  eexists _, _, _. split; [apply kept_pairs_to_output_exact|]. split.
  - intros q a (kp & [= -> ->] & [[Had Hac] Hkp]%list_elem_of_filter)%list_elem_of_fmap.
    exists kp. repeat split; try done.
    destruct (Hper kp Hkp) as (_ & _ & Hi). by apply Hi.
  - intros t (kp & Ht & Hkp)%list_elem_of_bind. exists kp. split; [done|].
    destruct (Hper kp Hkp) as (Hq & Ha & _).
    apply elem_of_app in Ht as [Ht|Ht].
    + left. destruct (kp_Original_Question_Naturalness kp) eqn:Hqn;
        [by apply elem_of_nil in Ht|].
      apply list_elem_of_singleton in Ht as ->. split; [done|].
      by apply Hq.
    + right. destruct (kp_Original_Answer_Naturalness kp) eqn:Han;
        [by apply elem_of_nil in Ht|].
      apply list_elem_of_singleton in Ht as ->. split; [done|].
      by apply Ha.
Qed.

Lemma reported_problems_were_replaced_witness :
  exists w kp,
    round Scenario.no_ids 5%Z (Scenario.accepts "c1") Scenario.at_login = Ok w
    /\ reachable "u" w
    /\ kp ∈ kept_pairs (session w)
    /\ kp_Original_Answer_Naturalness kp = false
    /\ Str.strip (kp_User_Answer kp) <> Str.strip (kp_Answer kp).
Proof.
  eexists _, _. split; [vm_compute; reflexivity|].
  assert (forall w, round Scenario.no_ids 5%Z (Scenario.accepts "c1")
                          Scenario.at_login = Ok w -> reachable "u" w) as Hreach.
  { intros w E.
    apply (reach_submit "u" Scenario.no_ids 5%Z (Scenario.accepts "c1")
             Scenario.at_login w); [apply reach_login | exact E]. }
  split; [apply Hreach; vm_compute; reflexivity|].
  split; [apply list_elem_of_singleton; reflexivity|].
  split; [reflexivity|].
  edestruct (reported_problems_were_replaced Scenario.no_ids "u") as [Hper _];
    [apply Hreach; vm_compute; reflexivity|].
  edestruct Hper as (_ & Ha & _); [apply list_elem_of_singleton; reflexivity|].
  by apply Ha.
Defined.
End DerivedOutputs.

(** ** The completed-question set and the completion marker *)

Section Completion.

(** What a page run leaves alone. *)
Lemma run_qa_tool_frame (w w' : world) v :
  run_qa_tool w = Ok (w', v) ->
  data (session w') = data (session w)
  /\ completed_questions (session w') = completed_questions (session w)
  /\ unsuitable_questions (session w') = unsuitable_questions (session w)
  /\ kept_pairs (session w') = kept_pairs (session w)
  /\ notes (session w') = notes (session w)
  /\ profile_json (disk w') = profile_json (disk w)
  /\ profile_squad (disk w') = profile_squad (disk w)
  /\ unnatural_texts_json (disk w') = unnatural_texts_json (disk w)
  /\ unsuitable_questions_json (disk w') = unsuitable_questions_json (disk w)
  /\ incorrect_json (disk w') = incorrect_json (disk w)
  /\ notes_json (disk w') = notes_json (disk w)
  /\ (complete (disk w) = true -> complete (disk w') = true)
  /\ (complete (disk w') = true ->
      complete (disk w) = true
      \/ index_input (session w') = length (data (session w'))).
Proof.
  unfold run_qa_tool, advance_cursor.
  destruct (skip_loop _ _ _ _) as [r np]. cbn.
  destruct (Nat.eqb_spec r (length (data (session w)))) as [->|Hne].
  - intros [= <- <-]. cbn. repeat split; try done. by right.
  - destruct (data (session w) !! r); [|done].
    intros [= <- <-]. cbn. repeat split; try done. by left.
Qed.

(** X14. In every reachable state the completed-question set is exactly
    the set of question strings that have a Judgement. *)
Theorem completed_questions_are_the_judged_questions
    (username : string) (w : world) :
  reachable username w ->
  forall question,
    question ∈ completed_questions (session w)
    <-> question_judged (session w) question.
Proof.
  intros Hw question. split; [|intros (kp & Hkp & <-);
    by apply (judged_completed w (reachable_consistent _ _ Hw))].
  revert question.
  induction Hw as [raw | w w' v Hw IH E | uuid4 elapsed f w w' Hw IH E | raw w Hw IH];
    intros question.
  - cbn. by intros ?%elem_of_empty.
  - destruct (run_qa_tool_frame _ _ _ E) as (_ & C & _ & K & _).
    unfold question_judged. rewrite C, K. apply IH.
  - unfold round in E. destruct (run_qa_tool w) as [[w1 v]|] eqn:E1; [|done].
    destruct (run_qa_tool_frame _ _ _ E1) as (_ & C & _ & K & _).
    cbn in E. unfold question_judged. destruct v as [|[[c q] a]].
    + injection E as <-. rewrite C, K. apply IH.
    + destruct (question_suitable f) eqn:Hf.
      * destruct (all_empty (validate (c, q, a) f)) eqn:Hv.
        -- destruct (submit_qa_accepted uuid4 elapsed c q a f w1 Hf Hv)
             as (w2 & E2 & _ & _ & K2 & C2 & _).
           rewrite E in E2. injection E2 as <-. rewrite K2, C2, C, K.
           intros [Hq|Hq]%elem_of_union.
           ++ destruct (IH _ Hq) as (kp & Hkp & Hkq).
              exists kp. split; [|done]. apply elem_of_app. by left.
           ++ apply elem_of_singleton in Hq as ->. eexists. split.
              ** apply elem_of_app. right. by apply list_elem_of_singleton.
              ** done.
        -- destruct (submit_qa_rejected uuid4 elapsed c q a f w1 Hf Hv)
             as (s' & E2 & _ & _ & K2 & C2 & _).
           rewrite E in E2. injection E2 as ->. cbn. rewrite K2, C2, C, K. apply IH.
      * destruct (submit_qa_unsuitable uuid4 elapsed c q a f w1 Hf)
          as (w2 & E2 & _ & _ & K2 & C2 & _).
        rewrite E in E2. injection E2 as <-. rewrite K2, C2, C, K. apply IH.
  - cbn. intros (kp & -> & Hkp)%elem_of_list_to_set%list_elem_of_fmap.
    by exists kp.
Qed.

Lemma completed_questions_are_the_judged_questions_witness :
  exists w,
    round Scenario.no_ids 5%Z (Scenario.accepts "c1") Scenario.at_login = Ok w
    /\ reachable "u" w
    /\ "q" ∈ completed_questions (session w)
    /\ forall question,
         question ∈ completed_questions (session w)
         <-> question_judged (session w) question.
Proof.
  eexists. split; [vm_compute; reflexivity|].
  assert (forall w, round Scenario.no_ids 5%Z (Scenario.accepts "c1")
                          Scenario.at_login = Ok w -> reachable "u" w) as Hreach.
  { intros w E.
    apply (reach_submit "u" Scenario.no_ids 5%Z (Scenario.accepts "c1")
             Scenario.at_login w); [apply reach_login | exact E]. }
  split; [apply Hreach; vm_compute; reflexivity|].
  split; [apply (bool_decide_unpack _); by vm_compute|].
  apply (completed_questions_are_the_judged_questions "u").
  apply Hreach. vm_compute. reflexivity.
Defined.
End Completion.

(** ** The cursor across page runs and submissions *)

Section CursorProgress.

(** The entry shown is the one under the cursor. *)
Lemma shown_entry_is_under_cursor (w w1 : world) (v : view) :
  run_qa_tool w = Ok (w1, v) ->
  match v with
  | Current x => data (session w1) !! index_input (session w1) = Some x
  | EndOfQueue => index_input (session w1) = length (data (session w1))
  end.
Proof.
  unfold run_qa_tool, advance_cursor.
  destruct (skip_loop _ _ _ _) as [r np]. cbn.
  destruct (Nat.eqb_spec r (length (data (session w)))) as [Hr|Hne].
  - by intros [= <- <-].
  - destruct (data (session w) !! r) as [x|] eqn:Hx; [|done].
    by intros [= <- <-].
Qed.

(** X15. A page run is idempotent: running the page again, with nothing
    submitted in between, leaves the state as it is and shows the same
    thing, so the reruns that every interaction with the page triggers do
    not move the cursor. *)
Theorem rerun_changes_nothing (w w1 : world) (v : view) :
  run_qa_tool w = Ok (w1, v) ->
  run_qa_tool w1 = Ok (w1, v).
Proof.
  unfold run_qa_tool, advance_cursor.
  pose proof (skip_loop_spec (data (session w))
                (resolved (completed_questions (session w))
                          (unsuitable_questions (session w)))
                (index_input (session w)) false) as (_ & _ & _ & Hstop).
  cbn zeta in Hstop.
  destruct (skip_loop _ _ (index_input (session w)) false) as [r np]. cbn in *.
  destruct (Nat.eqb_spec r (length (data (session w)))) as [Hr|Hne].
  - intros [= <- <-]. cbn.
    pose proof (skip_loop_spec (data (session w))
                  (resolved (completed_questions (session w))
                            (unsuitable_questions (session w)))
                  r false) as (Hge & Hle & _).
    cbn zeta in Hge, Hle.
    destruct (skip_loop _ _ r false) as [r' np'] eqn:Hloop. cbn in *.
    assert (r' = r) as -> by lia.
    rewrite Hr, Nat.eqb_refl. by rewrite <- Hr.
  - destruct (data (session w) !! r) as [x|] eqn:Hx; [|done].
    intros [= <- <-]. cbn.
    pose proof (skip_loop_stays (data (session w))
                  (resolved (completed_questions (session w))
                            (unsuitable_questions (session w)))
                  r false x Hx (Hstop x eq_refl)) as Hstay.
    destruct (skip_loop _ _ r false) as [r' np'] eqn:Hloop. cbn in *. subst r'.
    destruct (Nat.eqb_spec r (length (data (session w)))); [done|].
    rewrite Hx. by destruct w as [s fs].
Qed.

Lemma rerun_changes_nothing_witness :
  exists w1 v,
    run_qa_tool Scenario.two_marked = Ok (w1, v)
    /\ index_input (session w1) = 2
    /\ run_qa_tool w1 = Ok (w1, v).
Proof.
  eexists _, _. split; [vm_compute; reflexivity|]. split; [reflexivity|].
  apply (rerun_changes_nothing Scenario.two_marked).
  vm_compute. reflexivity.
Defined.

(** A submission that is accepted, on either branch, marks its entry. *)
Lemma accepted_submission_marks uuid4 elapsed c q a (f : form) (w w' : world) j :
  question_suitable f = false \/ all_empty (validate (c, q, a) f) = true ->
  submit_qa uuid4 elapsed (c, q, a) f w = Ok w' ->
  data (session w) !! j = Some (c, q, a) ->
  data (session w') = data (session w)
  /\ index_input (session w') = index_input (session w)
  /\ marked (session w') j.
Proof.
  intros Hacc E Hj. destruct (question_suitable f) eqn:Hf.
  - destruct Hacc as [?|Hv]; [done|].
    destruct (submit_qa_accepted uuid4 elapsed c q a f w Hf Hv)
      as (w2 & E2 & D & I & _ & C & _).
    rewrite E in E2. injection E2 as <-. repeat split; try done.
    exists c, q, a. rewrite D. split; [done|]. left. rewrite C.
    apply elem_of_union. right. by apply elem_of_singleton.
  - destruct (submit_qa_unsuitable uuid4 elapsed c q a f w Hf)
      as (w2 & E2 & D & I & _ & _ & U & _).
    rewrite E in E2. injection E2 as <-. repeat split; try done.
    exists c, q, a. rewrite D. split; [done|]. right.
    apply (pair_unsuitable_after_insert _ _ _ _ _ _ U). by right.
Qed.

(** X16. An accepted submission, be it a Judgement or a question marked
    unsuitable, marks the entry that was shown and so always moves the
    cursor forward: the callback returns, the entry under the cursor is
    marked in the state it leaves, the next page run returns, and its
    cursor is beyond that entry. *)
Theorem accepted_submission_advances_the_cursor
    (uuid4 : nat -> string) (elapsed : seconds)
    (f : form) (w w1 : world) (current : item) :
  run_qa_tool w = Ok (w1, Current current) ->
  question_suitable f = false \/ validate current f = no_errors ->
  exists w2 w3 v,
    submit_qa uuid4 elapsed current f w1 = Ok w2
    /\ data (session w2) !! index_input (session w1) = Some current
    /\ marked (session w2) (index_input (session w1))
    /\ run_qa_tool w2 = Ok (w3, v)
    /\ index_input (session w1) < index_input (session w3).
Proof.
  intros Erun Hacc. destruct current as [[c q] a].
  assert (data (session w1) !! index_input (session w1) = Some (c, q, a)
          /\ index_input (session w1) < length (data (session w1))) as [Hcur Hlt].
  { pose proof (shown_entry_is_under_cursor w w1 (Current (c, q, a)) Erun) as H.
    split; [done|]. by apply lookup_lt_Some in H. }
  assert (question_suitable f = false \/ all_empty (validate (c, q, a) f) = true)
    as Hacc'.
  { destruct Hacc as [?|Hno]; [by left | right; by rewrite Hno]. }
  assert (exists w2, submit_qa uuid4 elapsed (c, q, a) f w1 = Ok w2) as [w2 E2].
  { destruct (question_suitable f) eqn:Hf.
    - destruct Hacc' as [?|Hv]; [done|].
      destruct (submit_qa_accepted uuid4 elapsed c q a f w1 Hf Hv) as (w2 & ? & _).
      by exists w2.
    - destruct (submit_qa_unsuitable uuid4 elapsed c q a f w1 Hf) as (w2 & ? & _).
      by exists w2. }
  destruct (accepted_submission_marks uuid4 elapsed c q a f w1 w2
              (index_input (session w1)) Hacc' E2 Hcur) as (D & I & Hm).
  destruct (run_qa_tool_spec w2) as (w3 & v & E3 & _ & _ & _ & _ & _ & _ & Hge & _ & Hv).
  { rewrite D, I. lia. }
  exists w2, w3, v. split; [done|]. split; [by rewrite D|].
  split; [done|]. split; [done|].
  rewrite I in Hge. destruct (decide (index_input (session w3) = index_input (session w1)))
    as [Heq|Hne]; [|lia].
  exfalso. destruct v as [|x].
  - destruct Hv as [Hend _]. rewrite D in Hend. lia.
  - destruct Hv as (_ & Hnm & _). rewrite Heq in Hnm. by apply Hnm.
Qed.

Lemma accepted_submission_advances_the_cursor_witness :
  exists w1,
    run_qa_tool Scenario.at_login = Ok (w1, Current ("c1", "q", "a1"))
    /\ validate ("c1", "q", "a1") (Scenario.accepts "c1") = no_errors
    /\ exists w2 w3 v,
         submit_qa Scenario.no_ids 4%Z ("c1", "q", "a1") (Scenario.accepts "c1") w1
         = Ok w2
         /\ data (session w2) !! index_input (session w1)
            = Some ("c1", "q", "a1")
         /\ marked (session w2) (index_input (session w1))
         /\ run_qa_tool w2 = Ok (w3, v)
         /\ index_input (session w1) < index_input (session w3).
Proof.
  eexists. split; [vm_compute; reflexivity|]. split; [vm_compute; reflexivity|].
  apply (accepted_submission_advances_the_cursor
           Scenario.no_ids 4%Z (Scenario.accepts "c1") Scenario.at_login).
  - vm_compute. reflexivity.
  - right. vm_compute. reflexivity.
Defined.

(** A submission leaves the completion marker as it was. *)
Lemma submit_qa_keeps_marker uuid4 elapsed (current : item) (f : form) (w w' : world) :
  submit_qa uuid4 elapsed current f w = Ok w' ->
  complete (disk w') = complete (disk w).
Proof.
  destruct current as [[c q] a]. intros E.
  destruct (question_suitable f) eqn:Hf.
  - destruct (all_empty (validate (c, q, a) f)) eqn:Hv.
    + destruct (submit_qa_accepted uuid4 elapsed c q a f w Hf Hv)
        as (w2 & E2 & _ & _ & _ & _ & _ & _ & _ & C).
      rewrite E in E2. by injection E2 as <-.
    + destruct (submit_qa_rejected uuid4 elapsed c q a f w Hf Hv)
        as (s' & E2 & _).
      rewrite E in E2. by injection E2 as ->.
  - destruct (submit_qa_unsuitable uuid4 elapsed c q a f w Hf)
      as (w2 & E2 & _ & _ & _ & _ & _ & _ & _ & C).
    rewrite E in E2. by injection E2 as <-.
Qed.

(** X17. The completion marker is written only by a page run that finds
    the whole queue done. From every reachable state the page run returns;
    it ends at the end of the queue exactly when its cursor reaches the
    length of the queue, it then writes the marker, and every entry of the
    queue is marked, that is judged under its question or recorded as
    unsuitable under its context; a page run that shows an entry leaves the
    marker as it was, and so does every submission. *)
Theorem completion_marker_written_only_at_queue_end
    (username : string) (w : world) :
  reachable username w ->
  (exists w' v, run_qa_tool w = Ok (w', v))
  /\ (forall w' v,
     run_qa_tool w = Ok (w', v) ->
     (v = EndOfQueue
      <-> index_input (session w') = length (data (session w')))
     /\ (v = EndOfQueue ->
         complete (disk w') = true
         /\ forall j, j < length (data (session w')) -> marked (session w') j)
     /\ (v <> EndOfQueue -> complete (disk w') = complete (disk w)))
  /\ (forall uuid4 elapsed current f w',
        submit_qa uuid4 elapsed current f w = Ok w' ->
        complete (disk w') = complete (disk w)).
Proof.
  intros Hw. pose proof (reachable_consistent _ _ Hw) as Hc.
  split.
  { destruct (run_qa_tool_spec w (cursor_in_range w Hc)) as (w' & v & E & _).
    by exists w', v. }
  split; [|intros uuid4 elapsed current f w'; apply submit_qa_keeps_marker].
  intros w' v E.
  pose proof (consistent_run w w' v Hc E) as Hc'.
  destruct (run_qa_tool_spec w (cursor_in_range w Hc))
    as (w1 & v1 & E1 & D & _ & _ & _ & _ & _ & _ & _ & Hv).
  rewrite E in E1. injection E1 as <- <-.
  destruct v as [|x].
  - destruct Hv as [Hend Hmarker]. rewrite <- D in Hend.
    split; [done|]. split; [|done]. intros _. split; [done|].
    intros j Hj. apply (passed_marked w' Hc'). lia.
  - destruct Hv as (Hx & _ & Hdisk). rewrite <- D in Hx.
    apply lookup_lt_Some in Hx.
    split; [split; [done | lia]|]. split; [done|].
    intros _. by rewrite Hdisk.
Qed.

Lemma completion_marker_written_only_at_queue_end_witness :
  exists w1 w2,
    round Scenario.no_ids 4%Z (Scenario.accepts "c1") Scenario.at_login = Ok w1
    /\ reachable "u" w1
    /\ complete (disk w1) = false
    /\ run_qa_tool w1 = Ok (w2, EndOfQueue)
    /\ complete (disk w2) = true
    /\ forall j, j < length (data (session w2)) -> marked (session w2) j.
Proof.
  eexists _, _. split; [vm_compute; reflexivity|].
  assert (forall w1,
            round Scenario.no_ids 4%Z (Scenario.accepts "c1") Scenario.at_login
            = Ok w1 -> reachable "u" w1) as Hreach.
  { intros w1 E1.
    apply (reach_submit "u" Scenario.no_ids 4%Z (Scenario.accepts "c1")
             Scenario.at_login w1); [apply reach_login | exact E1]. }
  split; [apply Hreach; vm_compute; reflexivity|].
  split; [reflexivity|].
  split; [vm_compute; reflexivity|].
  edestruct (completion_marker_written_only_at_queue_end "u") as (_ & Hrun & _);
    [apply Hreach; vm_compute; reflexivity|].
  edestruct Hrun as (_ & Hend & _); [vm_compute; reflexivity|].
  by apply Hend.
Defined.
End CursorProgress.

(** ** Persistence *)

Section Persistence.
Import AggregatorModel.

Lemma export_data_exact uuid4 (s : session_state) (fs : files) :
  export_data uuid4 s fs
  = Ok (Files (kept_pairs s)
              (Some (Aggregator.to_squad uuid4 (dataset (kept_pairs s))))
              (Some (unnatural_of (kept_pairs s)))
              (Some (unsuitable_questions s))
              (Some (incorrect_of (kept_pairs s)))
              (Some (session_times s))
              (Some (notes s))
              (complete fs)).
Proof. unfold export_data. by rewrite kept_pairs_to_output_exact. Qed.

(** An accepted submission ends by exporting the session it leaves. *)
Lemma submit_qa_exports uuid4 elapsed (current : item) (f : form) (w : world) :
  question_suitable f = false \/ all_empty (validate current f) = true ->
  exists w',
    submit_qa uuid4 elapsed current f w = Ok w'
    /\ export_data uuid4 (session w') (disk w) = Ok (disk w').
Proof.
  intros Hacc. destruct current as [[c q] a]. unfold submit_qa.
  destruct (question_suitable f) eqn:Hf; cbn [negb]; lazy zeta.
  - destruct Hacc as [?|Hv]; [done|]. rewrite Hv.
    eexists. split; [rewrite export_data_exact; cbn; reflexivity|].
    by rewrite export_data_exact.
  - eexists. split; [rewrite export_data_exact; cbn; reflexivity|].
    by rewrite export_data_exact.
Qed.




(** X19. Export followed by a fresh load restores the progress: the
    kept-pairs list, the Unsuitable record and the notes of the loaded
    session are those of the exported one, the cursor restarts at the head
    of the queue, and the completed-question set is rebuilt as the set of
    judged questions. *)
Theorem export_then_load_restores_progress
    (uuid4 : nat -> string) (username : string)
    (raw_data : option (Dict.t (Dict.t string)))
    (s : session_state) (fs fs' : files) :
  export_data uuid4 s fs = Ok fs' ->
  let s' := load_user_profile_and_dataset username raw_data fs' in
  kept_pairs s' = kept_pairs s
  /\ unsuitable_questions s' = unsuitable_questions s
  /\ notes s' = notes s
  /\ index_input s' = 0
  /\ forall question,
       question ∈ completed_questions s' <-> question_judged s question.
Proof.
  rewrite export_data_exact. intros [= <-]. cbn.
  repeat split; try done.
  - unfold update. apply (right_id_L ∅ (∪)).
  - unfold update. apply (right_id_L ∅ (∪)).
  - intros (kp & -> & Hkp)%elem_of_list_to_set%list_elem_of_fmap. by exists kp.
  - intros (kp & Hkp & <-). apply elem_of_list_to_set, list_elem_of_fmap.
    by exists kp.
Qed.

Lemma export_then_load_restores_progress_witness :
  exists fs',
    export_data Scenario.no_ids (session Scenario.two_marked) init_user = Ok fs'
    /\ unsuitable_questions
         (load_user_profile_and_dataset "u" Scenario.raw_data fs')
       = unsuitable_questions (session Scenario.two_marked)
    /\ kept_pairs (load_user_profile_and_dataset "u" Scenario.raw_data fs')
       = kept_pairs (session Scenario.two_marked).
Proof.
  eexists. split; [vm_compute; reflexivity|].
  edestruct (export_then_load_restores_progress
               Scenario.no_ids "u" Scenario.raw_data
               (session Scenario.two_marked) init_user)
    as (K & U & _); [vm_compute; reflexivity|].
  split; [exact U | exact K].
Defined.
End Persistence.

(** ** What a round keeps *)

Section RoundHistory.

Lemma run_qa_tool_cursor_le (w w' : world) v :
  run_qa_tool w = Ok (w', v) ->
  index_input (session w) <= index_input (session w').
Proof.
  unfold run_qa_tool, advance_cursor.
  pose proof (skip_loop_spec (data (session w))
                (resolved (completed_questions (session w))
                          (unsuitable_questions (session w)))
                (index_input (session w)) false) as (Hle & _).
  cbn zeta in Hle.
  destruct (skip_loop _ _ _ _) as [r np]. cbn in *.
  destruct (Nat.eqb r (length (data (session w)))).
  - by intros [= <- <-].
  - destruct (data (session w) !! r); [|done]. by intros [= <- <-].
Qed.

Lemma unsuitable_under_insert (s s' : session_state) c q context :
  unsuitable_questions s'
  = <[c := default [] (unsuitable_questions s !! c) ++ [q]]> (unsuitable_questions s) ->
  unsuitable_under s context `prefix_of` unsuitable_under s' context.
Proof.
  intros H. unfold unsuitable_under. rewrite H.
  destruct (decide (context = c)) as [->|Hne].
  - rewrite lookup_insert_eq. cbn. by apply prefix_app_r.
  - by rewrite lookup_insert_ne.
Qed.

(** X20. A round never removes recorded work: whatever the reviewer
    submits, the kept pairs of the session before are a prefix of those
    after, the completed-question set only grows, under every context the
    Unsuitable list before is a prefix of the one after, the queue is the
    same and the cursor does not move back. *)
Theorem round_never_removes_recorded_work
    (uuid4 : nat -> string) (elapsed : seconds) (f : form) (w w' : world) :
  round uuid4 elapsed f w = Ok w' ->
  kept_pairs (session w) `prefix_of` kept_pairs (session w')
  /\ completed_questions (session w) ⊆ completed_questions (session w')
  /\ (forall context,
        unsuitable_under (session w) context
        `prefix_of` unsuitable_under (session w') context)
  /\ data (session w') = data (session w)
  /\ index_input (session w) <= index_input (session w').
Proof.
  unfold round. destruct (run_qa_tool w) as [[w1 v]|] eqn:E1; [|done]. cbn.
  pose proof (run_qa_tool_cursor_le _ _ _ E1) as Hle.
  destruct (run_qa_tool_frame _ _ _ E1) as (D & C & U & K & _).
  unfold unsuitable_under. rewrite <- K, <- C, <- U, <- D.
  destruct v as [|[[c q] a]].
  { intros [= <-]. by repeat split. }
  destruct (question_suitable f) eqn:Hf.
  - destruct (all_empty (validate (c, q, a) f)) eqn:Hv.
    + destruct (submit_qa_accepted uuid4 elapsed c q a f w1 Hf Hv)
        as (w2 & -> & D2 & I2 & K2 & C2 & U2 & _).
      intros [= <-]. rewrite K2, C2, U2, D2, I2.
      repeat split; [by apply prefix_app_r | | done | done].
      intros x Hx. apply elem_of_union. by left.
    + destruct (submit_qa_rejected uuid4 elapsed c q a f w1 Hf Hv)
        as (s2 & -> & D2 & I2 & K2 & C2 & U2 & _).
      intros [= <-]. cbn. rewrite K2, C2, U2, D2, I2. by repeat split.
  - destruct (submit_qa_unsuitable uuid4 elapsed c q a f w1 Hf)
      as (w2 & -> & D2 & I2 & K2 & C2 & U2 & _).
    intros [= <-]. rewrite K2, C2, D2, I2.
    repeat split; [done | done | | done].
    intros context. by apply (unsuitable_under_insert _ _ c q).
Qed.

Lemma round_never_removes_recorded_work_witness :
  exists w,
    round Scenario.no_ids 5%Z (Scenario.accepts "c1") Scenario.at_login = Ok w
    /\ kept_pairs (session Scenario.at_login) `prefix_of` kept_pairs (session w)
    /\ data (session w) = data (session Scenario.at_login).
Proof.
  eexists. split; [vm_compute; reflexivity|].
  edestruct (round_never_removes_recorded_work Scenario.no_ids 5%Z
               (Scenario.accepts "c1") Scenario.at_login)
    as (K & _ & _ & D & _); [vm_compute; reflexivity|].
  split; [exact K | exact D].
Defined.

(** X21. Marking the question unsuitable skips every check: the submission
    is accepted whatever the other widgets hold, the error lists are
    cleared, and the world it leaves depends on the page only through the
    two explanation boxes. *)
Theorem unsuitable_submission_skips_the_checks
    (uuid4 : nat -> string) (elapsed : seconds)
    (current : item) (f f' : form) (w : world) :
  question_suitable f = false ->
  question_suitable f' = false ->
  question_explanation f' = question_explanation f ->
  answer_explanation f' = answer_explanation f ->
  submit_qa uuid4 elapsed current f' w = submit_qa uuid4 elapsed current f w
  /\ exists w',
       submit_qa uuid4 elapsed current f w = Ok w'
       /\ session_errors (session w') = no_errors
       /\ kept_pairs (session w') = kept_pairs (session w)
       /\ unsuitable_questions_json (disk w')
          = Some (unsuitable_questions (session w')).
Proof.
  intros Hf Hf' Hq Ha. destruct current as [[c q] a]. split.
  - unfold submit_qa, add_notes. by rewrite Hf, Hf', Hq, Ha.
  - unfold submit_qa. rewrite Hf. cbn [negb]. lazy zeta.
    eexists. split; [rewrite export_data_exact; cbn; reflexivity|]. done.
Qed.

Lemma unsuitable_submission_skips_the_checks_witness :
  submit_qa Scenario.no_ids 5%Z ("c1", "q", "a1")
            (Form false true "" "" true true true None "x") Scenario.at_login
  = submit_qa Scenario.no_ids 5%Z ("c1", "q", "a1")
              Scenario.marks_unsuitable Scenario.at_login.
Proof.
  apply (unsuitable_submission_skips_the_checks Scenario.no_ids 5%Z
           ("c1", "q", "a1") Scenario.marks_unsuitable
           (Form false true "" "" true true true None "x")
           Scenario.at_login); reflexivity.
Defined.
End RoundHistory.

(** ** Notes *)

Section Notes.

(** X22. Recording a note touches one entry: the note of every other
    (context, question) pair is the one it was. *)
Theorem add_notes_touches_one_entry
    (f : form) (context question answer : string)
    (ns : gmap string (gmap string note)) (context' question' : string) :
  (context', question') <> (context, question) ->
  note_at (add_notes f context question answer ns) context' question'
  = note_at ns context' question'.
Proof.
  intros Hne. unfold add_notes, note_at.
  destruct (_ || _); [|done].
  destruct (decide (context' = context)) as [->|Hc].
  - rewrite lookup_insert_eq. cbn.
    assert (question' <> question) as Hq by congruence.
    rewrite lookup_insert_ne by done.
    destruct (ns !! context); [done|]. cbn. apply lookup_empty.
  - by rewrite lookup_insert_ne.
Qed.

Lemma add_notes_touches_one_entry_witness :
  note_at (add_notes (Form true true "why" "q" true true true None "a")
                     "c1" "q" "a" {[ "c1" := {[ "p" := Note ("b", None) (Some "old") ]} ]})
          "c1" "p"
  = Some (Note ("b", None) (Some "old")).
Proof.
  rewrite (add_notes_touches_one_entry _ "c1" "q" "a" _ "c1" "p");
    [reflexivity | discriminate].
Defined.

Lemma add_notes_blank (f : form) (context question answer : string)
    (ns : gmap string (gmap string note)) :
  Str.strip (question_explanation f) = EmptyString ->
  match answer_explanation f with
  | Some e => Str.strip e = EmptyString
  | None => True
  end ->
  add_notes f context question answer ns = ns.
Proof.
  intros Hq Ha. unfold add_notes. rewrite Hq.
  destruct (answer_explanation f); [rewrite Ha|]; done.
Qed.

Lemma submit_qa_notes uuid4 elapsed context question answer (f : form) (w w' : world) :
  submit_qa uuid4 elapsed (context, question, answer) f w = Ok w' ->
  notes (session w') = add_notes f context question answer (notes (session w))
  /\ (question_suitable f = false
      \/ all_empty (validate (context, question, answer) f) = true ->
      notes_json (disk w') = Some (notes (session w')))
  /\ (question_suitable f = true ->
      all_empty (validate (context, question, answer) f) = false ->
      disk w' = disk w).
Proof.
  unfold submit_qa.
  destruct (question_suitable f); cbn [negb]; lazy zeta;
    [destruct (all_empty _)|]; rewrite ?export_data_exact; cbn;
    intros [= <-]; cbn; intuition congruence.
Qed.

Lemma add_notes_question_note (f : form) (context question answer : string)
    (ns : gmap string (gmap string note)) :
  Str.strip (question_explanation f) <> EmptyString ->
  exists answer_note,
    note_at (add_notes f context question answer ns) context question
    = Some (Note (answer, answer_note) (Some (Str.strip (question_explanation f)))).
Proof.
  intros Hq. unfold add_notes, note_at.
  destruct (Str.strip (question_explanation f)) as [|ch rest] eqn:E; [done|].
  cbn. rewrite lookup_insert_eq. cbn. rewrite lookup_insert_eq. by eexists.
Qed.

(** X23. The note typed with a rejected submission outlives it: the
    rejected submission stores the note in the session and writes no file,
    and when the reviewer then empties the explanation boxes and submits
    the same entry in a way that is accepted, the notes file written holds
    the note of the rejected attempt. *)
Theorem note_of_rejected_attempt_is_exported
    (uuid4 : nat -> string) (elapsed elapsed' : seconds)
    (context question answer : string) (f f' : form) (w : world) :
  question_suitable f = true ->
  all_empty (validate (context, question, answer) f) = false ->
  Str.strip (question_explanation f) <> EmptyString ->
  question_suitable f' = false
  \/ all_empty (validate (context, question, answer) f') = true ->
  Str.strip (question_explanation f') = EmptyString ->
  match answer_explanation f' with
  | Some e => Str.strip e = EmptyString
  | None => True
  end ->
  exists w1 w2 ns answer_note,
    submit_qa uuid4 elapsed (context, question, answer) f w = Ok w1
    /\ disk w1 = disk w
    /\ submit_qa uuid4 elapsed' (context, question, answer) f' w1 = Ok w2
    /\ notes_json (disk w2) = Some ns
    /\ note_at ns context question
       = Some (Note (answer, answer_note)
                    (Some (Str.strip (question_explanation f)))).
Proof.
  intros Hf Hv Hnote Hacc Hq' Ha'.
  destruct (submit_qa_rejected uuid4 elapsed context question answer f w Hf Hv)
    as (s1 & E1 & _).
  destruct (submit_qa_notes _ _ _ _ _ _ _ _ E1) as (N1 & _ & _).
  destruct (submit_qa_exports uuid4 elapsed' (context, question, answer) f'
              (World s1 (disk w)) Hacc) as (w2 & E2 & _).
  destruct (submit_qa_notes _ _ _ _ _ _ _ _ E2) as (N2 & J2 & _).
  destruct (add_notes_question_note f context question answer
              (notes (session w)) Hnote) as (answer_note & Hat).
  exists (World s1 (disk w)), w2, (notes (session w2)), answer_note.
  split; [done|]. split; [done|]. split; [done|]. split; [by apply J2|].
  rewrite N2, add_notes_blank by done. by rewrite N1.
Qed.

Lemma note_of_rejected_attempt_is_exported_witness :
  exists w1 w2 ns answer_note,
    submit_qa Scenario.no_ids 5%Z Scenario.cat_sat
      (Form true true "odd wording" "Who sat?" true false true (Some "") "cat")
      Scenario.cat_sat_login = Ok w1
    /\ disk w1 = disk Scenario.cat_sat_login
    /\ submit_qa Scenario.no_ids 7%Z Scenario.cat_sat
         (Form true true "" "Who sat?" true true true (Some " ") "cat") w1 = Ok w2
    /\ notes_json (disk w2) = Some ns
    /\ note_at ns "The cat sat." "Who sat?"
       = Some (Note ("cat", answer_note) (Some "odd wording")).
Proof.
  apply (note_of_rejected_attempt_is_exported Scenario.no_ids 5%Z 7%Z
           "The cat sat." "Who sat?" "cat"
           (Form true true "odd wording" "Who sat?" true false true (Some "") "cat")
           (Form true true "" "Who sat?" true true true (Some " ") "cat")
           Scenario.cat_sat_login);
    first [by vm_compute | right; by vm_compute].
Defined.
End Notes.

(** ** The queue built at login *)

Section Loader.

Lemma flatten_raw_data_cons c (qa : Dict.t string) (raw : Dict.t (Dict.t string)) :
  flatten_raw_data ((c, qa) :: raw)
  = ((fun p : string * string => (c, p.1, p.2)) <$> qa) ++ flatten_raw_data raw.
Proof.
  unfold flatten_raw_data, Dict.items. cbn. f_equal.
  induction qa as [|[q a] qa IH]; [done|]. cbn. by rewrite IH.
Qed.

Lemma elem_of_flatten_raw_data (raw : Dict.t (Dict.t string)) c q a :
  (c, q, a) ∈ flatten_raw_data raw
  <-> exists qa, (c, qa) ∈ raw /\ (q, a) ∈ qa.
Proof.
  induction raw as [|[c' qa'] raw IH].
  - split; [by intros ?%elem_of_nil | by intros (? & ?%elem_of_nil & _)].
  - rewrite flatten_raw_data_cons, elem_of_app, IH, list_elem_of_fmap. split.
    + intros [([q' a'] & [= -> -> ->] & Hin) | (qa & Hin & Hqa)].
      * exists qa'. split; [by left | done].
      * exists qa. split; [by right | done].
    + intros (qa & [[= -> ->]|Hin]%elem_of_cons & Hqa).
      * left. by exists (q, a).
      * right. by exists qa.
Qed.

Lemma flatten_raw_data_contiguous (raw : Dict.t (Dict.t string)) :
  NoDup raw.*1 -> contexts_contiguous (flatten_raw_data raw).
Proof.
  induction raw as [|[c qa] raw IH]; intros Hnd.
  - intros i j k x y z _ _ Hx. by destruct i.
  - apply NoDup_cons in Hnd as [Hc Hnd]. cbn in Hc.
    rewrite flatten_raw_data_cons.
    set (block := ((fun p : string * string => (c, p.1, p.2)) <$> qa) : list item).
    assert (forall n x, block !! n = Some x -> context_of x = c) as Hblock.
    { intros n x Hx%list_elem_of_lookup_2. unfold block in Hx.
      by apply list_elem_of_fmap in Hx as (p & -> & _). }
    assert (forall n x, flatten_raw_data raw !! n = Some x -> context_of x <> c)
      as Hrest.
    { intros n [[c' q'] a'] Hx%list_elem_of_lookup_2 Hcc.
      cbn in Hcc. subst c'.
      apply elem_of_flatten_raw_data in Hx as (qa' & Hin & _).
      apply Hc, list_elem_of_fmap. by exists (c, qa'). }
    intros i j k x y z Hij Hjk Hx Hy Hz Hxz.
    destruct (decide (i < length block)) as [Hi|Hi].
    + rewrite lookup_app_l in Hx by done.
      destruct (decide (k < length block)) as [Hk|Hk].
      * rewrite lookup_app_l in Hy by lia.
        by rewrite (Hblock _ _ Hy), (Hblock _ _ Hx).
      * rewrite lookup_app_r in Hz by lia.
        apply Hrest in Hz. rewrite <- Hxz, (Hblock _ _ Hx) in Hz. done.
    + rewrite lookup_app_r in Hx, Hy, Hz by lia.
      apply (IH Hnd (i - length block) (j - length block) (k - length block) x y z);
        [lia | lia | done..].
Qed.

Lemma flatten_raw_data_NoDup (raw : Dict.t (Dict.t string)) :
  NoDup raw.*1 ->
  Forall (fun entry => NoDup entry.2.*1) raw ->
  NoDup ((fun x : item => (x.1.1, x.1.2)) <$> flatten_raw_data raw).
Proof.
  induction raw as [|[c qa] raw IH]; intros Hnd Hqa; [constructor|].
  apply NoDup_cons in Hnd as [Hc Hnd]. apply Forall_cons in Hqa as [Hq Hqa].
  cbn in Hc, Hq. rewrite flatten_raw_data_cons, fmap_app. apply NoDup_app.
  split; [|split; [|by apply IH]].
  - rewrite <- list_fmap_compose.
    assert (((fun x : item => (x.1.1, x.1.2))
             ∘ (fun p : string * string => (c, p.1, p.2)) <$> qa)
            = (fun q => (c, q)) <$> qa.*1) as ->.
    { rewrite <- list_fmap_compose. by apply list_fmap_ext. }
    apply NoDup_fmap_2; [by intros ? ? [= ->] | done].
  - intros [c' q'] (x & [= -> ->] & Hx)%list_elem_of_fmap
                   ([[c'' q''] a''] & [= Hc' Hq'] & Hy)%list_elem_of_fmap.
    apply list_elem_of_fmap in Hx as ([q0 a0] & -> & _). cbn in Hc'. subst c''.
    apply elem_of_flatten_raw_data in Hy as (qa' & Hin & _).
    apply Hc, list_elem_of_fmap. by exists (c, qa').
Qed.

(** X24. The queue a login builds from the dataset file is grouped by
    context and holds every (context, question) pair of the file once:
    when the file's top-level keys and the question keys under each
    context are distinct, as in a parsed JSON object, the entries of one
    context are contiguous, no (context, question) pair occurs twice, and
    an entry is in the queue exactly when the file maps its context and
    question to its answer. *)
Theorem loaded_queue_is_grouped_and_without_repeats
    (username : string) (raw_data : Dict.t (Dict.t string)) (fs : files) :
  NoDup raw_data.*1 ->
  Forall (fun entry => NoDup entry.2.*1) raw_data ->
  let queue := data (load_user_profile_and_dataset username (Some raw_data) fs) in
  contexts_contiguous queue
  /\ NoDup ((fun x : item => (x.1.1, x.1.2)) <$> queue)
  /\ forall context question answer,
       (context, question, answer) ∈ queue
       <-> Dict.get context raw_data ≫= Dict.get question = Some answer.
Proof.
  intros Hnd Hqa. cbn. unfold shuffle_qa_data.
  split; [by apply flatten_raw_data_contiguous|].
  split; [by apply flatten_raw_data_NoDup|].
  intros c q a. rewrite elem_of_flatten_raw_data. split.
  - intros (qa & Hin & Hq).
    rewrite (elem_get_NoDup _ _ _ Hnd Hin). cbn.
    apply elem_get_NoDup; [|done].
    rewrite Forall_forall in Hqa. apply (Hqa _ Hin).
  - destruct (Dict.get c raw_data) as [qa|] eqn:E; [|done]. cbn.
    intros Hq. exists qa. split; by apply get_Some_elem.
Qed.

Lemma loaded_queue_is_grouped_and_without_repeats_witness :
  data (load_user_profile_and_dataset "u" (Some Scenario.two_by_two) init_user)
  = Scenario.grouped
  /\ contexts_contiguous
       (data (load_user_profile_and_dataset "u" (Some Scenario.two_by_two) init_user))
  /\ NoDup ((fun x : item => (x.1.1, x.1.2))
              <$> data (load_user_profile_and_dataset
                          "u" (Some Scenario.two_by_two) init_user))
  /\ forall context question answer,
       (context, question, answer)
         ∈ data (load_user_profile_and_dataset
                   "u" (Some Scenario.two_by_two) init_user)
       <-> Dict.get context Scenario.two_by_two ≫= Dict.get question = Some answer.
Proof.
  split; [reflexivity|].
  apply (loaded_queue_is_grouped_and_without_repeats "u" Scenario.two_by_two init_user).
  - apply (bool_decide_unpack _). by vm_compute.
  - apply (bool_decide_unpack _). by vm_compute.
Defined.
End Loader.

(** ** Paths and the login gate *)

Section PathFacts.
Import Path.

Lemma string_app_cons c (a b : string) : String c a +:+ b = String c (a +:+ b).
Proof. done. Qed.

Lemma string_app_nil_l (b : string) : EmptyString +:+ b = b.
Proof. done. Qed.

Ltac string_app := rewrite ?string_app_cons, ?string_app_nil_l.

Lemma string_app_assoc (a b c : string) : (a +:+ b) +:+ c = a +:+ b +:+ c.
Proof. induction a as [|x a IH]; string_app; [done | by f_equal]. Qed.

Lemma string_app_nil_r (a : string) : a +:+ EmptyString = a.
Proof. induction a as [|x a IH]; string_app; [done | by f_equal]. Qed.

Lemma string_app_nil (a b : string) :
  a +:+ b = EmptyString -> a = EmptyString /\ b = EmptyString.
Proof. destruct a; string_app; [by intros -> | done]. Qed.

Lemma startswith_sep_app (a b : string) :
  a <> EmptyString -> startswith_sep (a +:+ b) = startswith_sep a.
Proof. destruct a; string_app; done. Qed.

Lemma endswith_sep_cons c (s : string) :
  s <> EmptyString -> endswith_sep (String c s) = endswith_sep s.
Proof. by destruct s. Qed.

Lemma endswith_sep_app (a b : string) :
  b <> EmptyString -> endswith_sep (a +:+ b) = endswith_sep b.
Proof.
  intros Hb. induction a as [|c a IH]; [done|].
  string_app. rewrite endswith_sep_cons; [done|].
  by intros [_ ?]%string_app_nil.
Qed.

Lemma endswith_sep_snoc (a : string) : endswith_sep (a +:+ String sep EmptyString) = true.
Proof. by rewrite endswith_sep_app. Qed.

Lemma endswith_sep_inv (p : string) :
  endswith_sep p = true -> exists p', p = p' +:+ String sep EmptyString.
Proof.
  induction p as [|c p IH]; [done|].
  destruct p as [|c' p].
  - cbn. intros ->%bool_decide_eq_true. by exists EmptyString.
  - rewrite endswith_sep_cons by done. intros [p' Hp']%IH. rewrite Hp'.
    by exists (String c p').
Qed.

Lemma string_length_app (a b : string) :
  String.length (a +:+ b) = String.length a + String.length b.
Proof. induction a as [|c a IH]; string_app; cbn; [done | by rewrite IH]. Qed.

Lemma string_app_inv_r (a b r : string) : a +:+ r = b +:+ r -> a = b.
Proof.
  revert b. induction a as [|c a IH]; intros [|c' b]; string_app.
  - done.
  - intros H%(f_equal String.length). cbn in H.
    rewrite string_length_app in H. lia.
  - intros H%(f_equal String.length). cbn in H.
    rewrite string_length_app in H. lia.
  - intros [= -> H]. f_equal. by apply IH.
Qed.

(** *** [os.path.join] *)

Lemma join_absolute (a b : string) : startswith_sep b = true -> join a b = b.
Proof. unfold join. by intros ->. Qed.

(** Joining relative names to a directory puts one prefix before them. *)
Lemma join_prefix (d : string) :
  exists P,
    (exists rest, P = d +:+ rest)
    /\ forall b, startswith_sep b = false -> join d b = P +:+ b.
Proof.
  destruct (bool_decide (d = EmptyString) || endswith_sep d) eqn:E.
  - exists d. split; [exists EmptyString; by rewrite string_app_nil_r|].
    intros b Hb. unfold join. by rewrite Hb, E.
  - exists (d +:+ String sep EmptyString). split; [by eexists|].
    intros b Hb. unfold join. by rewrite Hb, E, string_app_assoc.
Qed.

Lemma join_trailing (a u : string) :
  u <> EmptyString ->
  join a (u +:+ String sep EmptyString) = join a u +:+ String sep EmptyString.
Proof.
  intros Hu. unfold join. rewrite startswith_sep_app by done.
  destruct (startswith_sep u); [done|].
  destruct (_ || _); by rewrite ?string_app_assoc.
Qed.

Lemma join_nonempty (a u : string) : u <> EmptyString -> join a u <> EmptyString.
Proof.
  intros Hu. unfold join. destruct (startswith_sep u); [done|].
  destruct (_ || _); by intros [_ ?]%string_app_nil.
Qed.

Lemma join_endswith (a u : string) :
  u <> EmptyString -> endswith_sep (join a u) = endswith_sep u.
Proof.
  intros Hu. unfold join. destruct (startswith_sep u); [done|].
  destruct (_ || _).
  - by rewrite endswith_sep_app.
  - rewrite endswith_sep_app by done. by apply endswith_sep_cons.
Qed.

Lemma join_dir_trailing (d name : string) :
  d <> EmptyString -> endswith_sep d = false -> startswith_sep name = false ->
  join (d +:+ String sep EmptyString) name = join d name.
Proof.
  intros Hd He Hn. unfold join. rewrite Hn, He, endswith_sep_snoc, orb_true_r.
  rewrite bool_decide_eq_false_2 by done. by rewrite string_app_assoc.
Qed.

(** The last component survives a join: a name put after a prefix that is
    empty or ends with a separator stays after such a prefix. *)
Lemma join_keeps_last (a Q u : string) :
  Q = EmptyString \/ endswith_sep Q = true ->
  exists P,
    (P = EmptyString \/ endswith_sep P = true)
    /\ join a (Q +:+ u) = P +:+ u.
Proof.
  intros HQ. unfold join. destruct (startswith_sep (Q +:+ u)).
  { by exists Q. }
  destruct (bool_decide (a = EmptyString) || endswith_sep a) eqn:E.
  - exists (a +:+ Q). split; [|by rewrite string_app_assoc].
    destruct HQ as [->|HQ].
    + rewrite string_app_nil_r.
      apply orb_true_iff in E as [E%bool_decide_eq_true|E]; auto.
    + right. rewrite endswith_sep_app; [done|]. by intros ->.
  - exists (a +:+ String sep Q). split.
    + right. rewrite endswith_sep_app by done.
      destruct HQ as [->|HQ]; [by cbn; rewrite bool_decide_eq_true_2|].
      rewrite endswith_sep_cons; [done|]. by intros ->.
    + by rewrite string_app_assoc.
Qed.

(** *** Names without a separator *)

Lemma contains_sep_cons c (s : string) :
  Str.contains "/" (String c s) = bool_decide (c = sep) || Str.contains "/" s.
Proof.
  unfold Str.contains. rewrite find_unfold. cbn [String.prefix].
  destruct (ascii_dec "/" c) as [<-|Hne].
  - by destruct s.
  - rewrite bool_decide_eq_false_2 by (unfold sep; congruence). cbn.
    by destruct (Str.find s "/").
Qed.

Lemma contains_sep_nil : Str.contains "/" EmptyString = false.
Proof. done. Qed.

Lemma no_sep_cons c (s : string) :
  Str.contains "/" (String c s) = false -> c <> sep /\ Str.contains "/" s = false.
Proof.
  rewrite contains_sep_cons. intros [Hc Hs]%orb_false_iff.
  by apply bool_decide_eq_false in Hc.
Qed.

Lemma no_sep_startswith (u : string) :
  Str.contains "/" u = false -> startswith_sep u = false.
Proof.
  destruct u as [|c u]; [done|]. intros [Hc _]%no_sep_cons.
  by apply bool_decide_eq_false_2.
Qed.

Lemma no_sep_endswith (u : string) :
  Str.contains "/" u = false -> endswith_sep u = false.
Proof.
  induction u as [|c u IH]; [done|]. intros [Hc Hu]%no_sep_cons.
  destruct u as [|c' u]; [by apply bool_decide_eq_false_2|].
  rewrite endswith_sep_cons by done. auto.
Qed.

Lemma no_sep_all_sep (u : string) :
  u <> EmptyString -> Str.contains "/" u = false -> all_sep u = false.
Proof.
  destruct u as [|c u]; [done|]. intros _ [Hc _]%no_sep_cons.
  cbn. by rewrite bool_decide_eq_false_2.
Qed.

Lemma all_sep_app (a b : string) : all_sep (a +:+ b) = all_sep a && all_sep b.
Proof.
  induction a as [|c a IH]; [done|]. string_app. cbn. rewrite IH.
  by rewrite andb_assoc.
Qed.

(** *** [os.path.dirname] and [str.split] *)

Lemma upto_last_sep_no_sep (n : string) :
  Str.contains "/" n = false -> upto_last_sep n = EmptyString.
Proof.
  induction n as [|c n IH]; [done|]. intros [Hc Hn]%no_sep_cons.
  cbn. rewrite IH by done. by rewrite decide_False.
Qed.

Lemma upto_last_sep_app (X n : string) :
  Str.contains "/" n = false ->
  upto_last_sep (X +:+ String sep n) = X +:+ String sep EmptyString.
Proof.
  intros Hn. induction X as [|c X IH].
  - string_app. cbn. rewrite upto_last_sep_no_sep by done. by rewrite decide_True.
  - string_app. cbn [upto_last_sep]. rewrite IH.
    destruct X; by string_app.
Qed.

Lemma rstrip_sep_snoc (X : string) :
  rstrip_sep (X +:+ String sep EmptyString) = rstrip_sep X.
Proof.
  induction X as [|c X IH].
  - string_app. cbn. by rewrite decide_True.
  - string_app. cbn [rstrip_sep]. by rewrite IH.
Qed.

Lemma rstrip_sep_id (X : string) : endswith_sep X = false -> rstrip_sep X = X.
Proof.
  induction X as [|c X IH]; [done|].
  destruct X as [|c' X].
  - cbn. intros Hc%bool_decide_eq_false. by rewrite decide_False.
  - rewrite endswith_sep_cons by done. intros HX.
    cbn [rstrip_sep] in *. by rewrite (IH HX).
Qed.

Lemma dirname_file (X n : string) :
  X <> EmptyString -> endswith_sep X = false -> all_sep X = false ->
  Str.contains "/" n = false ->
  dirname (X +:+ String sep n) = X.
Proof.
  intros HX He Ha Hn. unfold dirname. rewrite upto_last_sep_app by done.
  rewrite all_sep_app, Ha. cbn [andb negb].
  rewrite bool_decide_eq_false_2 by (by intros [? _]%string_app_nil).
  cbn [andb negb]. by rewrite rstrip_sep_snoc, rstrip_sep_id.
Qed.

Lemma split_nonempty (s : string) : split s <> [].
Proof.
  induction s as [|c s IH]; [done|]. cbn.
  destruct (decide (c = sep)); [done|]. by destruct (split s).
Qed.

Lemma split_no_sep (n : string) : Str.contains "/" n = false -> split n = [n].
Proof.
  induction n as [|c n IH]; [done|]. intros [Hc Hn]%no_sep_cons.
  cbn. rewrite decide_False by done. by rewrite IH.
Qed.

Lemma split_app (a b : string) : split (a +:+ String sep b) = split a ++ split b.
Proof.
  induction a as [|c a IH].
  - string_app. cbn. by rewrite decide_True.
  - string_app. cbn [split]. rewrite IH.
    destruct (decide (c = sep)); [done|].
    pose proof (split_nonempty a). by destruct (split a).
Qed.

Lemma split_parts_no_sep (s x : string) : x ∈ split s -> Str.contains "/" x = false.
Proof.
  revert x. induction s as [|c s IH]; intros x.
  - cbn. by intros ->%list_elem_of_singleton.
  - cbn. destruct (decide (c = sep)) as [->|Hc].
    + intros [->|Hx]%elem_of_cons; [done | by apply IH].
    + pose proof (split_nonempty s). destruct (split s) as [|part parts]; [done|].
      intros [->|Hx]%elem_of_cons.
      * rewrite contains_sep_cons, bool_decide_eq_false_2 by done.
        apply IH. by left.
      * apply IH. by right.
Qed.

Lemma last_split_after_prefix (P u : string) :
  P = EmptyString \/ endswith_sep P = true ->
  Str.contains "/" u = false ->
  last (split (P +:+ u)) = Some u.
Proof.
  intros [->|[P' ->]%endswith_sep_inv] Hu.
  - string_app. by rewrite split_no_sep.
  - rewrite string_app_assoc. string_app.
    by rewrite split_app, (split_no_sep u), last_snoc.
Qed.

(** *** [str(subset_index)] *)

Lemma pretty_N_char_not_sep (x : N) : pretty_N_char x <> sep.
Proof. unfold pretty_N_char, sep. by repeat case_match. Qed.

Lemma pretty_N_go_relative (x : N) (s : string) :
  s <> EmptyString -> startswith_sep s = false ->
  pretty_N_go x s <> EmptyString /\ startswith_sep (pretty_N_go x s) = false.
Proof.
  revert s. induction (N.lt_wf_0 x) as [x _ IH]; intros s Hs Hrel.
  destruct (decide (x = 0%N)) as [->|Hx].
  - by rewrite pretty_N_go_0.
  - rewrite pretty_N_go_step by lia. apply IH.
    + apply N.div_lt; lia.
    + done.
    + cbn. apply bool_decide_eq_false_2, pretty_N_char_not_sep.
Qed.

Lemma pretty_positive_relative (x : positive) :
  pretty x <> EmptyString /\ startswith_sep (pretty x) = false.
Proof.
  unfold pretty, pretty_positive, pretty, pretty_N.
  rewrite decide_False by done. rewrite pretty_N_go_step by lia.
  apply pretty_N_go_relative; [done|].
  cbn. apply bool_decide_eq_false_2, pretty_N_char_not_sep.
Qed.

Lemma pretty_Z_relative (i : Z) :
  pretty i <> EmptyString /\ startswith_sep (pretty i) = false.
Proof.
  destruct i as [|x|x]; [done | apply pretty_positive_relative | done].
Qed.
End PathFacts.

Section ProfilePaths.
Import Path.
Variables INPUT_DATA_FOLDER PROFILES_FOLDER PRELIMINARY_PROFILES_FOLDER : string.

Local Abbreviation get_profile_dir :=
  (get_profile_dir PROFILES_FOLDER PRELIMINARY_PROFILES_FOLDER).
Local Abbreviation get_profile_filepath :=
  (get_profile_filepath PROFILES_FOLDER PRELIMINARY_PROFILES_FOLDER).
Local Abbreviation get_completeness_marker_filepath :=
  (get_completeness_marker_filepath PROFILES_FOLDER PRELIMINARY_PROFILES_FOLDER).
Local Abbreviation profile_paths :=
  (profile_paths PROFILES_FOLDER PRELIMINARY_PROFILES_FOLDER).

Lemma profile_paths_by_prefix (username : string) (preliminary : bool)
    (subset_index : option Z) :
  exists P,
    (exists rest, P = get_profile_dir username preliminary subset_index +:+ rest)
    /\ profile_paths username preliminary subset_index
       = String.app P <$> [ "profile.json"; "profile.squad"; "unnatural_texts.json";
                            "unsuitable_questions.json"; "incorrect.json";
                            "times.json"; "notes.json"; "complete" ].
Proof.
  destruct (join_prefix (get_profile_dir username preliminary subset_index))
    as (P & HP & Hjoin).
  exists P. split; [done|].
  unfold profile_paths, get_profile_filepath, get_squad_filepath,
    get_unnatural_questions_filepath, get_unsuitable_questions_filepath,
    get_incorrect_qa_filepath, get_times_filepath, get_notes_filepath,
    get_completeness_marker_filepath.
  by rewrite !Hjoin.
Qed.

(** X25. The seven files of an export and the completion marker never
    share a path: for every username, mode and subset index the eight paths
    are pairwise distinct, so no write of [export_data] lands on another's
    file. *)
Theorem profile_files_have_distinct_paths
    (username : string) (preliminary : bool) (subset_index : option Z) :
  NoDup (profile_paths username preliminary subset_index).
Proof.
  destruct (profile_paths_by_prefix username preliminary subset_index)
    as (P & _ & ->).
  apply (NoDup_fmap_2 (String.app P)).
  apply (bool_decide_unpack _). by vm_compute.
Qed.

Lemma get_profile_dir_relative_name (username : string) (subset_index : option Z) :
  startswith_sep username = false ->
  startswith_sep (match subset_index with
                  | Some i => join (pretty i) username
                  | None => username
                  end) = false.
Proof.
  intros Hu. destruct subset_index as [i|]; [|done].
  destruct (pretty_Z_relative i) as [Hne Hrel].
  unfold join. rewrite Hu.
  destruct (_ || _); by rewrite startswith_sep_app.
Qed.

(** X26. The profile directory lies under the configured folder unless
    the username starts with the separator: an absolute username is
    returned as the directory itself, whatever the folder and the subset
    index, and for any other username the directory starts with the folder
    of the mode. *)
Theorem profile_dir_is_under_the_folder_unless_username_is_absolute
    (username : string) (preliminary : bool) (subset_index : option Z) :
  if startswith_sep username
  then get_profile_dir username preliminary subset_index = username
  else String.prefix
         (if preliminary then PRELIMINARY_PROFILES_FOLDER else PROFILES_FOLDER)
         (get_profile_dir username preliminary subset_index) = true.
Proof.
  destruct (startswith_sep username) eqn:Hu.
  - unfold get_profile_dir.
    assert (match subset_index with
            | Some i => join (pretty i) username
            | None => username
            end = username) as ->.
    { destruct subset_index; [by apply join_absolute | done]. }
    destruct preliminary; by apply join_absolute.
  - pose proof (get_profile_dir_relative_name username subset_index Hu) as Hrel.
    unfold get_profile_dir. apply prefix_app.
    destruct preliminary.
    + destruct (join_prefix PRELIMINARY_PROFILES_FOLDER) as (P & [rest ->] & Hjoin).
      rewrite (Hjoin _ Hrel), string_app_assoc. by eexists.
    + destruct (join_prefix PROFILES_FOLDER) as (P & [rest ->] & Hjoin).
      rewrite (Hjoin _ Hrel), string_app_assoc. by eexists.
Qed.

Lemma get_profile_dir_trailing (username : string) (preliminary : bool)
    (subset_index : option Z) :
  username <> EmptyString ->
  get_profile_dir (username +:+ String sep EmptyString) preliminary subset_index
  = get_profile_dir username preliminary subset_index +:+ String sep EmptyString
  /\ get_profile_dir username preliminary subset_index <> EmptyString
  /\ endswith_sep (get_profile_dir username preliminary subset_index)
     = endswith_sep username.
Proof.
  intros Hu. unfold get_profile_dir.
  set (name := match subset_index with
               | Some i => join (pretty i) username
               | None => username
               end).
  assert (match subset_index with
          | Some i => join (pretty i) (username +:+ String sep EmptyString)
          | None => username +:+ String sep EmptyString
          end = name +:+ String sep EmptyString) as ->.
  { unfold name. destruct subset_index; [by apply join_trailing | done]. }
  assert (name <> EmptyString) as Hname.
  { unfold name. destruct subset_index; [by apply join_nonempty | done]. }
  assert (endswith_sep name = endswith_sep username) as Hend.
  { unfold name. destruct subset_index; [by apply join_endswith | done]. }
  destruct preliminary;
    (split; [by apply join_trailing|]; split; [by apply join_nonempty|];
     by rewrite join_endswith).
Qed.

(** X27. A trailing separator names the same profile: for a non-empty
    username that does not end with the separator, the username followed by
    the separator has the same eight file paths, character for character. *)
Theorem trailing_separator_names_the_same_profile
    (username : string) (preliminary : bool) (subset_index : option Z) :
  username <> EmptyString ->
  endswith_sep username = false ->
  profile_paths (username +:+ "/") preliminary subset_index
  = profile_paths username preliminary subset_index.
Proof.
  intros Hu He.
  destruct (get_profile_dir_trailing username preliminary subset_index Hu)
    as (Hdir & Hne & Hend).
  rewrite He in Hend.
  unfold profile_paths, get_profile_filepath, get_squad_filepath,
    get_unnatural_questions_filepath, get_unsuitable_questions_filepath,
    get_incorrect_qa_filepath, get_times_filepath, get_notes_filepath,
    get_completeness_marker_filepath.
  change (username +:+ "/") with (username +:+ String sep EmptyString).
  rewrite Hdir. by rewrite !join_dir_trailing.
Qed.

(** X28. Every mode reads its own dataset file: two calls of
    [get_data_filepath] name the same file exactly when both are in
    preliminary mode, where the subset index is ignored, or both are not
    and have the same subset index or none. *)
Theorem data_file_is_shared_only_within_a_mode
    (preliminary preliminary' : bool) (subset_index subset_index' : option Z) :
  get_data_filepath INPUT_DATA_FOLDER preliminary subset_index
  = get_data_filepath INPUT_DATA_FOLDER preliminary' subset_index'
  <-> preliminary = preliminary'
      /\ (preliminary = true \/ subset_index = subset_index').
Proof.
  destruct (join_prefix INPUT_DATA_FOLDER) as (P & _ & Hjoin).
  unfold get_data_filepath. split.
  - destruct preliminary, preliminary',
      subset_index as [i|], subset_index' as [i'|];
      rewrite !Hjoin by done; intros H%(inj (String.app P));
      try discriminate H; try (split; [done | by auto]).
    split; [done|]. right. f_equal.
    apply (inj (String.app "subset_")) in H.
    by apply string_app_inv_r, (inj pretty) in H.
  - intros [<- [->| ->]]; [done|]. done.
Qed.

Lemma profile_filepath_shape (username : string) (preliminary : bool)
    (subset_index : option Z) :
  username <> EmptyString ->
  Str.contains "/" username = false ->
  exists P,
    (P = EmptyString \/ endswith_sep P = true)
    /\ get_profile_filepath username preliminary subset_index
       = (P +:+ username) +:+ String sep "profile.json".
Proof.
  intros Hu Hsep.
  assert (exists Q, (Q = EmptyString \/ endswith_sep Q = true)
                    /\ match subset_index with
                       | Some i => join (pretty i) username
                       | None => username
                       end = Q +:+ username) as (Q & HQ & Hname).
  { destruct subset_index as [i|].
    - apply (join_keeps_last (pretty i) EmptyString username). by left.
    - exists EmptyString. by split; [left|]. }
  assert (exists P, (P = EmptyString \/ endswith_sep P = true)
                    /\ get_profile_dir username preliminary subset_index
                       = P +:+ username) as (P & HP & Hdir).
  { unfold get_profile_dir. rewrite Hname.
    destruct preliminary; by apply join_keeps_last. }
  exists P. split; [done|].
  unfold get_profile_filepath. rewrite Hdir. unfold join.
  change (startswith_sep "profile.json") with false. cbn match.
  rewrite endswith_sep_app by done. rewrite (no_sep_endswith _ Hsep).
  rewrite bool_decide_eq_false_2; [done|]. by intros [_ ?]%string_app_nil.
Qed.

Section LoginView.
Variable glob : string -> list string.
Variable isfile : string -> bool.

Local Abbreviation list_users :=
  (list_users PROFILES_FOLDER PRELIMINARY_PROFILES_FOLDER glob).
Local Abbreviation show_login_view :=
  (show_login_view PROFILES_FOLDER PRELIMINARY_PROFILES_FOLDER glob isfile).

Lemma profile_name_no_sep (filepath : string) :
  Str.contains "/" (profile_name filepath) = false.
Proof.
  unfold profile_name.
  destruct (last (split (dirname filepath))) as [x|] eqn:E; [|done].
  cbn. apply (split_parts_no_sep (dirname filepath)).
  by apply last_Some_elem_of.
Qed.

(** X29. The completed-user check never refuses a username that contains
    the separator: the names [list_users] returns hold no separator, so
    whatever profiles and completion markers exist, a non-blank username
    with a separator in it is logged in. *)
Theorem username_with_separator_is_never_refused
    (first_user_input : bool) (username : string)
    (preliminary : bool) (subset_index : option Z) :
  Str.contains "/" username = true ->
  Str.strip username <> EmptyString ->
  show_login_view first_user_input username preliminary subset_index
  = LoggedIn username.
Proof.
  intros Hsep Hblank. unfold show_login_view.
  rewrite nonblank_length by done.
  rewrite bool_decide_eq_false_2; [done|].
  intros [_ Hin]%list_elem_of_filter.
  apply list_elem_of_fmap in Hin as (filepath & -> & _).
  by rewrite profile_name_no_sep in Hsep.
Qed.

(** X30. A profile is listed under its own username: for a non-empty
    username without a separator, the name [list_users] derives from that
    user's profile file path is the username, so the user is listed as soon
    as the glob returns the path. *)
Theorem list_users_recovers_the_username
    (username : string) (preliminary : bool) (subset_index : option Z) :
  username <> EmptyString ->
  Str.contains "/" username = false ->
  profile_name (get_profile_filepath username preliminary subset_index) = username
  /\ (get_profile_filepath username preliminary subset_index
        ∈ glob (get_profile_filepath "*" preliminary subset_index) ->
      username ∈ list_users preliminary subset_index).
Proof.
  intros Hu Hsep.
  assert (profile_name (get_profile_filepath username preliminary subset_index)
          = username) as Hname.
  { destruct (profile_filepath_shape username preliminary subset_index Hu Hsep)
      as (P & HP & ->).
    unfold profile_name. rewrite dirname_file.
    - by rewrite last_split_after_prefix.
    - by intros [_ ?]%string_app_nil.
    - rewrite endswith_sep_app by done. by apply no_sep_endswith.
    - rewrite all_sep_app, (no_sep_all_sep username) by done.
      by rewrite andb_false_r.
    - done. }
  split; [done|].
  intros Hin. unfold list_users. apply list_elem_of_fmap.
  by exists (get_profile_filepath username preliminary subset_index).
Qed.
End LoginView.
End ProfilePaths.

Lemma trailing_separator_names_the_same_profile_witness :
  profile_paths "data" "prelim" "alice/" false None
  = profile_paths "data" "prelim" "alice" false None.
Proof.
  apply (trailing_separator_names_the_same_profile "data" "prelim" "alice" false None);
    [discriminate | reflexivity].
Defined.

Lemma username_with_separator_is_never_refused_witness :
  show_login_view "data" "prelim"
    (fun _ => ["data/alice/profile.json"]) (fun _ => true)
    false "alice/" false None
  = LoggedIn "alice/".
Proof.
  apply (username_with_separator_is_never_refused "data" "prelim");
    [reflexivity | discriminate].
Defined.

Lemma list_users_recovers_the_username_witness :
  "alice" ∈ list_users "data" "prelim" (fun _ => ["data/alice/profile.json"]) false None.
Proof.
  apply (list_users_recovers_the_username "data" "prelim"
           (fun _ => ["data/alice/profile.json"]) "alice" false None);
    [discriminate | reflexivity | apply (bool_decide_unpack _); by vm_compute].
Defined.
